(** * LiteEth MAC CRC: engine, CRC32 unit, inserter and checker

    A shallow embedding of [liteeth/mac/crc.py].  Signals are integers
    ([Z]) of a known width, bit selections are [Z.testbit], the
    synchronous logic is a step function on the registers and the
    combinational logic a function of registers and inputs.

    The hardware description follows the rules of migen: a combinational
    signal that no active statement assigns is 0, of several assignments
    to one signal the last one wins, the statements of [fsm.act(state, ...)]
    are active while the machine is in [state], and the elaboration of a
    module is ordinary Python, which may raise. *)

From Stdlib Require Import ZArith List Bool Lia PeanoNat.
Import ListNotations.

Local Open Scope Z_scope.

(** ** Python list primitives used by the engine generator *)

Module PyList.

(** [l.pop()]: removes and returns the last item; [None] stands for the
    [IndexError] raised on an empty list. *)
Fixpoint pop {A} (l : list A) : option (list A * A) :=
  match l with
  | [] => None
  | x :: l' =>
      match l' with
      | [] => Some ([], x)
      | _ :: _ =>
          match pop l' with
          | Some (r, y) => Some (x :: r, y)
          | None => None
          end
      end
  end.

(** [l[j] = v]: [None] stands for the [IndexError] raised out of range. *)
Fixpoint set_item {A} (l : list A) (j : nat) (v : A) : option (list A) :=
  match l, j with
  | [], _ => None
  | _ :: l', O => Some (v :: l')
  | x :: l', S j' =>
      match set_item l' j' v with
      | Some r => Some (x :: r)
      | None => None
      end
  end.

(** A [for] loop over [range(n)] whose body may raise. *)
Definition for_range {S} (n : nat) (body : S -> nat -> option S) (s : S)
  : option S :=
  fold_left (fun acc i => match acc with Some a => body a i | None => None end)
            (seq 0 n) (Some s).

End PyList.

(** ** migen helpers *)

Module Migen.

(** [Signal(bits)]: migen refuses a width that is not a strictly positive
    integer; [None] stands for the exception it raises. *)
Definition Signal (bits : nat) : option nat :=
  if Nat.eqb bits 0 then None else Some bits.

(** [bits_for(n)] for [n >= 0]: the width of [Signal(max=n+1)]. *)
Definition bits_for (n : nat) : nat :=
  match n with
  | O => 1
  | S _ => S (Nat.log2 n)
  end.

(** [signal[lo:hi]] of a signal whose bits above its width are zero. *)
Definition slice (signal : Z) (lo hi : nat) : Z :=
  Z.land (Z.shiftr signal (Z.of_nat lo)) (Z.ones (Z.of_nat (hi - lo))).

(** [chooser(signal, shift, output, reverse=True)] with [w = len(output)]
    and [n = 2**len(shift)]: case [i] selects [signal[s*w:(s+1)*w]] for
    [s = n - i - 1]. *)
Definition chooser_reverse (signal : Z) (shift : nat) (w n : nat) : Z :=
  let s := (n - shift - 1)%nat in
  slice signal (s * w) ((s + 1) * w).

End Migen.

(** ** MAC CRC engine: the class [LiteEthMACCRCEngine] *)

Module Engine.

(** The tuples [("state", i)] and [("din", i)]. *)
Inductive term : Type :=
| State (n : nat)
| Din (n : nat).

Definition term_eqb (a b : term) : bool :=
  match a, b with
  | State n, State m => Nat.eqb n m
  | Din n, Din m => Nat.eqb n m
  | _, _ => false
  end.

(** The [OrderedDict] of [_optimize_eq]: keys in insertion order with
    their counts.  [od_incr e d] is the body of the first loop. *)
Fixpoint od_incr (e : term) (d : list (term * nat)) : list (term * nat) :=
  match d with
  | [] => [(e, 1%nat)]
  | (k, v) :: d' =>
      if term_eqb k e then (k, S v) :: d' else (k, v) :: od_incr e d'
  end.

Definition _optimize_eq (l : list term) : list term :=
  let d := fold_left (fun d e => od_incr e d) l [] in
  map fst (filter (fun kv => negb (Nat.eqb (snd kv mod 2) 0)) d).

(** [taps = [x for x in range(width) if (1 << x) & polynom]] *)
Definition taps (width : nat) (polynom : Z) : list nat :=
  filter (fun x => negb (Z.land (Z.shiftl 1 (Z.of_nat x)) polynom =? 0))
         (seq 0 width).

Definition in_taps (j : nat) (tp : list nat) : bool := existsb (Nat.eqb j) tp.

(** Body of the loop over [j]: [curval[j] += feedback] when [j+1] is a
    tap, then [curval[j] = _optimize_eq(curval[j])]. *)
Definition tap_slot (tp : list nat) (feedback : list term)
           (curval : list (list term)) (j : nat) : option (list (list term)) :=
  match nth_error curval j with
  | None => None
  | Some cj =>
      let cj' := if in_taps (j + 1) tp then cj ++ feedback else cj in
      PyList.set_item curval j (_optimize_eq cj')
  end.

(** Body of the loop over [i]: one shift of the symbolic LFSR. *)
Definition shift (width : nat) (tp : list nat)
           (curval : list (list term)) (i : nat) : option (list (list term)) :=
  match PyList.pop curval with
  | None => None
  | Some (rest, top) =>
      let feedback := top ++ [Din i] in
      match PyList.for_range (width - 1) (tap_slot tp feedback) rest with
      | Some rest' => Some (feedback :: rest')   (* curval.insert(0, feedback) *)
      | None => None
      end
  end.

Definition curval_init (width : nat) : list (list term) :=
  map (fun i => [State i]) (seq 0 width).

Definition curval_final (data_width width : nat) (polynom : Z)
  : option (list (list term)) :=
  PyList.for_range data_width (shift width (taps width polynom))
                   (curval_init width).

(** "implement logic": the references [self.last[n]] and [self.data[n]]
    must be in range and [reduce(xor, xors)] needs a non-empty list. *)
Definition ref_ok (data_width width : nat) (t : term) : bool :=
  match t with
  | State n => Nat.ltb n width
  | Din n => Nat.ltb n data_width
  end.

Definition xors_ok (data_width width : nat) (xors : list term) : bool :=
  match xors with
  | [] => false
  | _ :: _ => forallb (ref_ok data_width width) xors
  end.

Record engine : Type := {
  data_width : nat;
  width : nat;
  xors : list (list term)       (* [xors[i]] drives [next[i]] *)
}.

(** The constructor; [None] when elaboration raises.  The signals
    [data], [last] and [next] come first: a data width or a register width
    of 0 is refused there. *)
Definition LiteEthMACCRCEngine (dwidth cwidth : nat) (polynom : Z)
  : option engine :=
  match Migen.Signal dwidth, Migen.Signal cwidth with
  | Some _, Some _ =>
      match curval_final dwidth cwidth polynom with
      | None => None
      | Some curval =>
          match PyList.for_range cwidth
                  (fun (eqs : list (list term)) i =>
                     match nth_error curval i with
                     | None => None
                     | Some l =>
                         if xors_ok dwidth cwidth l then Some (eqs ++ [l])
                         else None
                     end) [] with
          | Some eqs =>
              Some {| data_width := dwidth; width := cwidth; xors := eqs |}
          | None => None
          end
      end
  | _, _ => None
  end.

(** Value of one referenced bit. *)
Definition bit_of (last data : Z) (t : term) : bool :=
  match t with
  | State n => Z.testbit last (Z.of_nat n)
  | Din n => Z.testbit data (Z.of_nat n)
  end.

(** [reduce(xor, xors)] on a list the constructor checked non-empty. *)
Definition reduce_xor (bs : list bool) : bool :=
  match bs with
  | [] => false
  | b :: r => fold_left xorb r b
  end.

(** The integer whose bit [i] is [bs[i]]. *)
Fixpoint bits_to_Z (bs : list bool) : Z :=
  match bs with
  | [] => 0
  | b :: r => Z.b2z b + 2 * bits_to_Z r
  end.

(** The combinational output [next] for inputs [last] and [data]. *)
Definition next (e : engine) (last data : Z) : Z :=
  bits_to_Z (map (fun l => reduce_xor (map (bit_of last data) l)) e.(xors)).

(** *** The bit-serial recurrence of the specification

    One shift: the bit shifted out, xored with the incoming data bit, is the
    feedback; it enters slot 0 and is xored into every tap position of the
    polynomial; the other bits move up one slot. *)
Definition lfsr_shift (N : nat) (P s : Z) (din : bool) : Z :=
  let fb := xorb (Z.testbit s (Z.of_nat N - 1)) din in
  let sh := Z.land (Z.shiftl s 1) (Z.ones (Z.of_nat N)) in
  if fb then Z.lxor sh (Z.lor 1 (Z.land P (Z.ones (Z.of_nat N)))) else sh.

(** The [W] low bits of [d], low bit first. *)
Definition data_bits (W : nat) (d : Z) : list bool :=
  map (fun i => Z.testbit d (Z.of_nat i)) (seq 0 W).

Definition lfsr_feed (N : nat) (P s : Z) (bits : list bool) : Z :=
  fold_left (lfsr_shift N P) bits s.

End Engine.

(** ** MAC CRC32: the class [LiteEthMACCRC32] *)

Module CRC32.

Definition width : nat := 32.
Definition polynom : Z := 0x04C11DB7.
Definition init : Z := 2 ^ Z.of_nat width - 1.
Definition check : Z := 0xC704DD7B.

(** The elaborated unit: [dw = data_width//8] and one engine per byte
    lane, [engines[e]] of data width [(e+1)*8]. *)
Record unit : Type := {
  data_width : nat;
  dw : nat;
  engines : list Engine.engine
}.

Definition LiteEthMACCRC32 (dwidth : nat) : option unit :=
  let n := (dwidth / 8)%nat in
  match Migen.Signal dwidth, Migen.Signal n with   (* [data], [last_be] *)
  | Some _, Some _ =>
      match PyList.for_range n
              (fun (acc : list Engine.engine) e =>
                 match Engine.LiteEthMACCRCEngine ((e + 1) * 8) width polynom with
                 | Some en => Some (acc ++ [en])
                 | None => None
                 end) [] with
      | Some es => Some {| data_width := dwidth; dw := n; engines := es |}
      | None => None
      end
  | _, _ => None
  end.

(** The registers [regs], one per lane. *)
Definition regs_t : Type := list Z.

Definition regs_reset (u : unit) : regs_t := repeat init u.(dw).

(** [engines[e].next] with [engines[e].data = self.data[:(e+1)*8]] and
    [engines[e].last = regs[-1]]. *)
Definition engine_next (u : unit) (regs : regs_t) (data : Z) (e : nat) : Z :=
  match nth_error u.(engines) e with
  | Some en =>
      Engine.next en (last regs 0)
                  (Z.land data (Z.ones (Z.of_nat ((e + 1) * 8))))
  | None => 0
  end.

(** [self.sync += [regs[e].eq(engines[e].next) for e in range(dw)]] *)
Definition regs_next (u : unit) (regs : regs_t) (data : Z) : regs_t :=
  map (engine_next u regs data) (seq 0 u.(dw)).

(** The internal [last_be]: the input when it is not zero, else
    [2**(dw-1)]. *)
Definition last_be_sel (u : unit) (last_be : Z) : Z :=
  if last_be =? 0 then 2 ^ (Z.of_nat u.(dw) - 1) else last_be.

(** [regs[e][::-1]]: the bits of a [w]-bit signal in reverse order. *)
Definition reverse_bits (w : nat) (x : Z) : Z :=
  Engine.bits_to_Z
    (map (fun i => Z.testbit x (Z.of_nat (w - 1 - i))) (seq 0 w)).

(** [~x] assigned to a [w]-bit signal. *)
Definition invert (w : nat) (x : Z) : Z :=
  Z.land (Z.lnot x) (Z.ones (Z.of_nat w)).

(** The [If(last_be[e], value.eq(...), error.eq(...))] statements in
    the order of [range(dw)]: a later statement overrides an earlier one
    and both signals are 0 when none applies. *)
Definition outputs (u : unit) (regs : regs_t) (data last_be : Z) : Z * bool :=
  fold_left
    (fun (ve : Z * bool) e =>
       if Z.testbit (last_be_sel u last_be) (Z.of_nat e)
       then (invert width (reverse_bits width (nth e regs 0)),
             negb (engine_next u regs data e =? check))
       else ve)
    (seq 0 u.(dw)) (0, false).

(** [value] does not depend on [data]; any data word gives the same. *)
Definition value (u : unit) (regs : regs_t) (last_be : Z) : Z :=
  fst (outputs u regs 0 last_be).

Definition error (u : unit) (regs : regs_t) (data last_be : Z) : bool :=
  snd (outputs u regs data last_be).

End CRC32.

(** ** The CRC class as the inserter and the checker use it *)

Module CRC.

(** What [crc_class(dw)] offers: the registers, their reset value, the
    synchronous update under [ce] for the input [data], and the outputs
    [value] and [error] for the inputs [data] and [last_be]. *)
Record class : Type := {
  regs_t : Type;
  width : nat;
  regs_reset : regs_t;
  regs_next : regs_t -> Z -> regs_t;
  value : regs_t -> Z -> Z;
  error : regs_t -> Z -> Z -> bool
}.

(** One clock edge of a [@ResetInserter() @CEInserter()] module: the
    registers load their reset value under [reset], else take their next
    value under [ce], else hold. *)
Definition sync (c : class) (reset ce : bool) (data : Z) (regs : regs_t c)
  : regs_t c :=
  if reset then regs_reset c
  else if ce then regs_next c regs data
  else regs.

Definition of_crc32 (u : CRC32.unit) : class := {|
  regs_t := CRC32.regs_t;
  width := CRC32.width;
  regs_reset := CRC32.regs_reset u;
  regs_next := CRC32.regs_next u;
  value := CRC32.value u;
  error := CRC32.error u
|}.

End CRC.

(** ** Stream endpoints *)

Module Stream.

(** Modelled from the spec: the stream description of [liteeth.common] is
    not part of the sources; the payload holds the fields of the stream
    element contract, [data], [last_be] and [error]. *)
Record payload : Type := {
  data : Z;
  last_be : Z;
  error : bool
}.

Definition payload0 : payload := {| data := 0; last_be := 0; error := false |}.

(** The signals a producer drives on an endpoint. *)
Record endpoint : Type := {
  valid : bool;
  last : bool;
  pl : payload
}.

Definition endpoint0 : endpoint :=
  {| valid := false; last := false; pl := payload0 |}.

(** One transferred element: its payload and its [last] flag. *)
Definition beat : Type := (payload * bool)%type.

(** A packet on the wire: [last] on the final element only. *)
Fixpoint packet (ps : list payload) : list beat :=
  match ps with
  | [] => []
  | [p] => [(p, true)]
  | p :: ps' => (p, false) :: packet ps'
  end.

(** The producer side of a stream: it presents the head of the pending
    elements, with [valid] when it chooses to ([gate]). *)
Definition present (gate : bool) (pending : list beat) : endpoint :=
  match pending with
  | [] => endpoint0
  | (p, l) :: _ => {| valid := gate; last := l; pl := p |}
  end.

End Stream.

(** ** MAC CRC inserter: the class [LiteEthMACCRCInserter] *)

Module Inserter.

Import Stream.

Inductive fsm_state : Type := IDLE | COPY | CRC.

Section WithClass.

Variable crc : CRC.class.
Variable dw : nat.                         (* [len(sink.data)] *)

Definition ratio : nat := (CRC.width crc / dw)%nat.

Record state : Type := {
  fsm : fsm_state;
  regs : CRC.regs_t crc;
  cnt : nat                                (* [Signal(max=ratio)] *)
}.

Definition reset_state : state :=
  {| fsm := IDLE; regs := CRC.regs_reset crc; cnt := (ratio - 1)%nat |}.

(** The combinational signals of one cycle. *)
Record comb : Type := {
  sink_ready : bool;
  source : endpoint;
  crc_reset : bool;
  crc_ce : bool;
  crc_data : Z;
  next_state : fsm_state
}.

Definition cnt_done (s : state) : bool := Nat.eqb s.(cnt) 0.

(** [crc.value]; the inserter leaves [crc.last_be] at 0. *)
Definition crc_value (s : state) : Z := CRC.value crc s.(regs) 0.

Definition comb_of (s : state) (sink : endpoint) (source_ready : bool) : comb :=
  match s.(fsm) with
  | IDLE =>
      {| sink_ready := negb sink.(valid);
         source := endpoint0;
         crc_reset := true;
         crc_ce := false;
         crc_data := 0;
         next_state := if sink.(valid) then COPY else IDLE |}
  | COPY =>
      {| sink_ready := source_ready;
         source := {| valid := sink.(valid); last := false; pl := sink.(pl) |};
         crc_reset := false;
         crc_ce := sink.(valid) && source_ready;
         crc_data := sink.(pl).(data);
         next_state :=
           if sink.(valid) && sink.(last) && source_ready then CRC else COPY |}
  | CRC =>
      if Nat.ltb 1 ratio then
        {| sink_ready := false;
           source :=
             {| valid := true;
                last := cnt_done s;
                pl := {| data := Migen.chooser_reverse (crc_value s) s.(cnt) dw
                                   (2 ^ Migen.bits_for (ratio - 1));
                         last_be := 0; error := false |} |};
           crc_reset := false;
           crc_ce := false;
           crc_data := 0;
           next_state := if cnt_done s && source_ready then IDLE else CRC |}
      else
        {| sink_ready := false;
           source :=
             {| valid := true;
                last := true;
                pl := {| data := Z.land (crc_value s) (Z.ones (Z.of_nat dw));
                         last_be := 0; error := false |} |};
           crc_reset := false;
           crc_ce := false;
           crc_data := 0;
           next_state := if source_ready then IDLE else CRC |}
  end.

(** The clock edge.  [cnt] exists only when [ratio > 1]; it is decremented
    only while it is not zero, so it never wraps. *)
Definition step (s : state) (sink : endpoint) (source_ready : bool) : state :=
  let c := comb_of s sink source_ready in
  {| fsm := c.(next_state);
     regs := CRC.sync crc c.(crc_reset) c.(crc_ce) c.(crc_data) s.(regs);
     cnt :=
       if Nat.ltb 1 ratio then
         match s.(fsm) with
         | IDLE => (ratio - 1)%nat
         | CRC => if cnt_done s then s.(cnt)
                  else (s.(cnt) - Nat.b2n source_ready)%nat
         | COPY => s.(cnt)
         end
       else s.(cnt) |}.

(** One cycle with a producer holding [pending] and a consumer: the
    environment chooses [gate] (the producer's [valid]) and [ready]. *)
Definition cycle (sp : state * list beat) (gr : bool * bool)
  : (state * list beat) * option beat :=
  let '(s, pending) := sp in
  let '(gate, ready) := gr in
  let sink := present gate pending in
  let c := comb_of s sink ready in
  ((step s sink ready,
    if sink.(valid) && c.(sink_ready) then tl pending else pending),
   if c.(source).(valid) && ready
   then Some (c.(source).(pl), c.(source).(last)) else None).

Fixpoint trace (sp : state * list beat) (env : list (bool * bool))
  : list (option beat) :=
  match env with
  | [] => []
  | gr :: env' => snd (cycle sp gr) :: trace (fst (cycle sp gr)) env'
  end.

Definition final (sp : state * list beat) (env : list (bool * bool))
  : state * list beat :=
  fold_left (fun sp gr => fst (cycle sp gr)) env sp.

End WithClass.

(** The elements transferred downstream, in order. *)
Definition released (tr : list (option beat)) : list beat :=
  flat_map (fun o => match o with Some b => [b] | None => [] end) tr.

End Inserter.

(** ** The staging FIFO *)

Module SyncFIFO.

Import Stream.

(** Modelled from the library's interface: [stream.SyncFIFO] is not part
    of the sources.  [ResetInserter()(stream.SyncFIFO(description, depth))]
    for a depth of at least 2, as a queue of elements, oldest first: a
    write happens under [sink.valid] when the queue is writable, a read
    under [source.ready] when it is readable, both on the same edge when
    both hold, and [reset] empties it.  The checker builds it with depth
    [ratio + 1], so the queue stands for its FIFO when [ratio >= 1].  For
    depth 1 the library builds a one-element buffer that has no level;
    the queue does not describe it, and the theorems about the checker
    are stated for [ratio >= 1]. *)
Definition state : Type := list beat.

Definition level (q : state) : nat := length q.

Definition writable (depth : nat) (q : state) : bool :=
  negb (Nat.eqb (level q) depth).

Definition readable (q : state) : bool := negb (Nat.eqb (level q) 0).

Definition source_payload (q : state) : payload :=
  match q with
  | [] => payload0
  | (p, _) :: _ => p
  end.

Definition sync (depth : nat) (reset : bool) (sink : endpoint)
           (source_ready : bool) (q : state) : state :=
  if reset then []
  else
    let q' := if readable q && source_ready then tl q else q in
    if sink.(valid) && writable depth q
    then q' ++ [(sink.(pl), sink.(last))] else q'.

End SyncFIFO.

(** ** MAC CRC checker: the class [LiteEthMACCRCChecker] *)

Module Checker.

Import Stream.

Inductive fsm_state : Type := RESET | IDLE | COPY.

Section WithClass.

Variable crc : CRC.class.
Variable dw : nat.                         (* [len(sink.data)] *)

Definition ratio : nat := (CRC.width crc / dw)%nat.

Record state : Type := {
  fsm : fsm_state;
  regs : CRC.regs_t crc;
  fifo : SyncFIFO.state
}.

Definition reset_state : state :=
  {| fsm := RESET; regs := CRC.regs_reset crc; fifo := [] |}.

Record comb : Type := {
  fifo_in : bool;
  fifo_out : bool;
  fifo_full : bool;
  sink_ready : bool;
  source : endpoint;
  self_error : bool;                       (* [self.error] *)
  crc_reset : bool;
  crc_ce : bool;
  fifo_reset : bool;
  next_state : fsm_state
}.

(** [crc.error] with [crc.data = sink.data]; [crc.last_be] stays 0. *)
Definition crc_error (s : state) (sink : endpoint) : bool :=
  CRC.error crc s.(regs) sink.(pl).(data) 0.

Definition comb_of (s : state) (sink : endpoint) (source_ready : bool) : comb :=
  let full := Nat.eqb (SyncFIFO.level s.(fifo)) ratio in
  let source_valid := sink.(valid) && full in
  let out := source_valid && source_ready in
  let inp := sink.(valid) && (negb full || out) in
  let src :=
    {| valid := source_valid;
       last := sink.(last);
       pl := {| data := (SyncFIFO.source_payload s.(fifo)).(data);
                last_be := (SyncFIFO.source_payload s.(fifo)).(last_be);
                error := sink.(pl).(Stream.error) || crc_error s sink |} |} in
  let accept := sink.(valid) && inp in     (* [sink.valid & sink.ready] *)
  {| fifo_in := inp;
     fifo_out := out;
     fifo_full := full;
     sink_ready := inp;
     source := src;
     self_error := source_valid && sink.(last) && crc_error s sink;
     crc_reset := match s.(fsm) with RESET => true | _ => false end;
     crc_ce := match s.(fsm) with RESET => false | _ => accept end;
     fifo_reset := match s.(fsm) with RESET => true | _ => false end;
     next_state :=
       match s.(fsm) with
       | RESET => IDLE
       | IDLE => if accept then COPY else IDLE
       | COPY => if accept && sink.(last) then RESET else COPY
       end |}.

Definition step (s : state) (sink : endpoint) (source_ready : bool) : state :=
  let c := comb_of s sink source_ready in
  {| fsm := c.(next_state);
     regs := CRC.sync crc c.(crc_reset) c.(crc_ce) sink.(pl).(data) s.(regs);
     fifo := SyncFIFO.sync (ratio + 1) c.(fifo_reset)
               {| valid := c.(fifo_in); last := sink.(last); pl := sink.(pl) |}
               c.(fifo_out) s.(fifo) |}.

(** What one cycle shows downstream: the source endpoint, the consumer's
    [ready] and [self.error]. *)
Record event : Type := {
  src : endpoint;
  rdy : bool;
  pulse : bool
}.

Definition cycle (sp : state * list beat) (gr : bool * bool)
  : (state * list beat) * event :=
  let '(s, pending) := sp in
  let '(gate, ready) := gr in
  let sink := present gate pending in
  let c := comb_of s sink ready in
  ((step s sink ready,
    if sink.(valid) && c.(sink_ready) then tl pending else pending),
   {| src := c.(source); rdy := ready; pulse := c.(self_error) |}).

Fixpoint trace (sp : state * list beat) (env : list (bool * bool))
  : list event :=
  match env with
  | [] => []
  | gr :: env' => snd (cycle sp gr) :: trace (fst (cycle sp gr)) env'
  end.

Definition final (sp : state * list beat) (env : list (bool * bool))
  : state * list beat :=
  fold_left (fun sp gr => fst (cycle sp gr)) env sp.

End WithClass.

(** The elements released downstream ([source.valid & source.ready]). *)
Definition released (tr : list event) : list beat :=
  flat_map (fun e => if e.(src).(valid) && e.(rdy)
                     then [(e.(src).(pl), e.(src).(last))] else []) tr.

(** The number of cycles in which [self.error] is asserted. *)
Definition pulses (tr : list event) : nat :=
  length (filter pulse tr).

End Checker.

(** ** Notions used to state and prove the properties *)

Module EngineSem.

Import Engine.

Fixpoint xor_all (bs : list bool) : bool :=
  match bs with
  | [] => false
  | b :: r => xorb b (xor_all r)
  end.

(** The value of a list of references: the xor of the referenced bits. *)
Definition sem (s d : Z) (l : list term) : bool :=
  xor_all (map (bit_of s d) l).

Definition odd_count (v : nat) : bool := negb (Nat.eqb (v mod 2) 0).

(** The value of a dictionary of counts: the xor of the bits whose count
    is odd. *)
Definition od_sem (s d : Z) (od : list (term * nat)) : bool :=
  xor_all (map (fun kv => odd_count (snd kv) && bit_of s d (fst kv)) od).

(** Equality of references is decidable; [count_occ term_eq_dec l t] is
    the number of times [t] occurs in [l]. *)
Definition term_eq_dec (a b : term) : {a = b} + {a <> b}.
Proof. decide equality; apply Nat.eq_dec. Defined.

(** The count the dictionary holds for the key [k], 0 for a missing key. *)
Fixpoint od_get (d : list (term * nat)) (k : term) : nat :=
  match d with
  | [] => 0%nat
  | (k', v) :: d' => if term_eqb k' k then v else od_get d' k
  end.

(** The inputs with the bit that [t] refers to inverted. *)
Definition flip_last (t : term) (s : Z) : Z :=
  match t with
  | State n => Z.lxor s (2 ^ Z.of_nat n)
  | Din _ => s
  end.

Definition flip_data (t : term) (d : Z) : Z :=
  match t with
  | State _ => d
  | Din n => Z.lxor d (2 ^ Z.of_nat n)
  end.

(** The values of an [N]-bit register. *)
Definition in_range (N : nat) (v : Z) : Prop := 0 <= v < 2 ^ Z.of_nat N.

(** The feedback bit of one serial shift. *)
Definition feedback (N : nat) (s : Z) (din : bool) : bool :=
  xorb (Z.testbit s (Z.of_nat N - 1)) din.

(** References allowed after [i] shifts. *)
Definition scoped (N i : nat) (t : term) : Prop :=
  match t with
  | State n => (n < N)%nat
  | Din n => (n < i)%nat
  end.

(** The invariant of the generator loop: after [i] shifts, slot [j]
    denotes bit [j] of the register after [i] serial shifts. *)
Definition good (N : nat) (P : Z) (i : nat) (c : list (list term)) : Prop :=
  length c = N /\
  (forall j l, nth_error c j = Some l -> Forall (scoped N i) l) /\
  (forall s d j l, in_range N s -> nth_error c j = Some l ->
     sem s d l = Z.testbit (lfsr_feed N P s (data_bits i d)) (Z.of_nat j)).

End EngineSem.

(** The environment of a run: per cycle, the producer's [valid] gate and
    the consumer's [ready].  A cycle with both lets every state of the
    inserter and of the checker advance. *)
Module Env.

Definition progress (env : list (bool * bool)) : nat :=
  length (filter (fun gr => fst gr && snd gr) env).

(** The cycles in which the consumer is ready. *)
Definition readies (env : list (bool * bool)) : nat :=
  length (filter snd env).

End Env.

(** What the inserter is expected to put on the wire. *)
Module InserterSpec.

Import Stream.

(** The value [v] cut in [n] elements of [w] bits, low bits first, with
    [last] on the final element. *)
Definition low_first (w n : nat) (v : Z) : list beat :=
  map (fun i => ({| data := Migen.slice v (i * w) ((i + 1) * w);
                    last_be := 0; error := false |},
                 Nat.eqb i (n - 1)))
      (seq 0 n).

(** The same elements, high bits first. *)
Definition high_first (w n : nat) (v : Z) : list beat :=
  map (fun i => ({| data := Migen.slice v ((n - 1 - i) * w) ((n - i) * w);
                    last_be := 0; error := false |},
                 Nat.eqb i (n - 1)))
      (seq 0 n).

Section WithClass.

Variable crc : CRC.class.
Variable dw : nat.

(** The registers after the data of [ps] went through the unit. *)
Definition absorb (r : CRC.regs_t crc) (ps : list payload) : CRC.regs_t crc :=
  fold_left (fun r p => CRC.regs_next crc r p.(data)) ps r.

(** The element shown in the CRC state when the counter is [c]. *)
Definition chunk (v : Z) (c : nat) : beat :=
  ({| data := Migen.chooser_reverse v c dw
                (2 ^ Migen.bits_for (Inserter.ratio crc dw - 1));
      last_be := 0; error := false |},
   Nat.eqb c 0).

(** The elements for the counter values [c], [c-1], ..., [0]. *)
Fixpoint chunks_from (v : Z) (c : nat) : list beat :=
  chunk v c :: match c with
               | O => []
               | S c' => chunks_from v c'
               end.

Definition crc_beats (v : Z) : list beat :=
  if Nat.ltb 1 (Inserter.ratio crc dw)
  then chunks_from v (Inserter.ratio crc dw - 1)
  else [({| data := Z.land v (Z.ones (Z.of_nat dw));
            last_be := 0; error := false |}, true)].

(** The packet [ps] followed by the CRC of its data. *)
Definition inserted (ps : list payload) : list beat :=
  map (fun p => (p, false)) ps ++
  crc_beats (CRC.value crc (absorb (CRC.regs_reset crc) ps) 0).

(** The elements the CRC state still has to show when the counter is
    [c]. *)
Definition crc_rest (v : Z) (c : nat) : list beat :=
  if Nat.ltb 1 (Inserter.ratio crc dw)
  then chunks_from v c
  else [({| data := Z.land v (Z.ones (Z.of_nat dw));
            last_be := 0; error := false |}, true)].

(** What the pending elements [bs] become on the wire, the registers at
    [r]: every element with [last] cleared, and the CRC after each element
    that carries [last]. *)
Fixpoint wire (r : CRC.regs_t crc) (bs : list beat) : list beat :=
  match bs with
  | [] => []
  | (p, l) :: bs' =>
      let r' := CRC.regs_next crc r p.(data) in
      (p, false) ::
      (if l then crc_beats (CRC.value crc r' 0) ++ wire (CRC.regs_reset crc) bs'
       else wire r' bs')
  end.

(** The elements still to come out of the state [s] with [pending] at
    the sink. *)
Definition expected (s : Inserter.state crc) (pending : list beat) : list beat :=
  match Inserter.fsm crc s with
  | Inserter.IDLE => wire (CRC.regs_reset crc) pending
  | Inserter.COPY => wire (Inserter.regs crc s) pending
  | Inserter.CRC =>
      crc_rest (CRC.value crc (Inserter.regs crc s) 0) (Inserter.cnt crc s) ++
      wire (CRC.regs_reset crc) pending
  end.

(** The packets of [bs] that still have to leave IDLE; [fresh] tells
    whether the first element begins a packet. *)
Fixpoint starts (fresh : bool) (bs : list beat) : nat :=
  match bs with
  | [] => 0
  | (_, l) :: bs' => ((if fresh then 1 else 0) + starts l bs')%nat
  end.

(** The cycles with both sides willing that are still needed. *)
Definition todo (s : Inserter.state crc) (pending : list beat) : nat :=
  (length (expected s pending) +
   starts (match Inserter.fsm crc s with Inserter.COPY => false | _ => true end)
          pending)%nat.

(** The pending elements end with the end of a packet. *)
Definition complete (bs : list beat) : Prop :=
  snd (List.last bs (payload0, true)) = true.

(** What the state needs for the elements to come out as expected: in
    COPY there is an element pending and the counter is loaded. *)
Definition steady (s : Inserter.state crc) (pending : list beat) : Prop :=
  complete pending /\
  (Inserter.fsm crc s = Inserter.COPY ->
   pending <> [] /\
   ((1 < Inserter.ratio crc dw)%nat ->
    Inserter.cnt crc s = (Inserter.ratio crc dw - 1)%nat)).

End WithClass.

End InserterSpec.

(** What the checker is expected to release. *)
Module CheckerSpec.

Import Stream.

Section WithClass.

Variable crc : CRC.class.
Variable dw : nat.

(** The registers after the data of the elements [bs] went through the
    unit. *)
Definition absorb (r : CRC.regs_t crc) (bs : list beat) : CRC.regs_t crc :=
  fold_left (fun r b => CRC.regs_next crc r (fst b).(data)) bs r.

(** The element released while [e] is accepted with the registers at [r]:
    the payload of the oldest staged element [h], the error annotation and
    [last] of [e]. *)
Definition release (r : CRC.regs_t crc) (h e : beat) : beat :=
  ({| data := (fst h).(data);
      last_be := (fst h).(last_be);
      error := (fst e).(error) || CRC.error crc r (fst e).(data) 0 |},
   snd e).

(** The elements released while [rest] is accepted, from the registers
    [r] and the staged elements [q], oldest first. *)
Fixpoint expect (r : CRC.regs_t crc) (q rest : list beat) : list beat :=
  match rest with
  | [] => []
  | e :: rest' =>
      let r' := CRC.regs_next crc r (fst e).(data) in
      if Nat.eqb (length q) (Checker.ratio crc dw) then
        match q with
        | h :: q' => release r h e :: expect r' (q' ++ [e]) rest'
        | [] => expect r' q rest'
        end
      else expect r' (q ++ [e]) rest'
  end.

(** The residue check on the final element of [rest]. *)
Fixpoint final_bad (r : CRC.regs_t crc) (rest : list beat) : bool :=
  match rest with
  | [] => false
  | e :: rest' =>
      match rest' with
      | [] => CRC.error crc r (fst e).(data) 0
      | _ :: _ => final_bad (CRC.regs_next crc r (fst e).(data)) rest'
      end
  end.

(** [last] on the final element only. *)
Fixpoint last_only (l : list beat) : Prop :=
  match l with
  | [] => True
  | e :: l' =>
      match l' with
      | [] => snd e = true
      | _ :: _ => snd e = false /\ last_only l'
      end
  end.

(** The state after the reset cycle. *)
Definition idle_state : Checker.state crc :=
  {| Checker.fsm := Checker.IDLE;
     Checker.regs := CRC.regs_reset crc;
     Checker.fifo := [] |}.

(** The elements accepted and fed to the unit since the last reset of the
    unit and of the FIFO, after one more cycle. *)
Definition history (s : Checker.state crc) (h : list beat)
           (sink : endpoint) (ready : bool) : list beat :=
  match s.(Checker.fsm crc) with
  | Checker.RESET => []
  | _ =>
      if sink.(valid) && (Checker.comb_of crc dw s sink ready).(Checker.sink_ready)
      then h ++ [(sink.(pl), sink.(last))]
      else h
  end.

(** The states the checker reaches from reset under any inputs, with the
    history of each. *)
Inductive reach : Checker.state crc -> list beat -> Prop :=
| reach_reset : reach (Checker.reset_state crc) []
| reach_step s h sink ready :
    reach s h ->
    reach (Checker.step crc dw s sink ready) (history s h sink ready).

End WithClass.

End CheckerSpec.

(** The lane of the CRC32 unit a mask selects. *)
Module CRC32Spec.

(** The top lane for an empty mask, else the lane of the highest bit set;
    for a one-hot mask that is the lane of the bit set. *)
Definition selected_lane (u : CRC32.unit) (last_be : Z) : nat :=
  if last_be =? 0 then (CRC32.dw u - 1)%nat else Z.to_nat (Z.log2 last_be).

(** The [n] low bytes of the word [d], the lowest first. *)
Definition bytes_of (n : nat) (d : Z) : list Z :=
  map (fun i => Migen.slice d (i * 8) ((i + 1) * 8)) (seq 0 n).

End CRC32Spec.

(** The CRC32 instances: [LiteEthMACCRC32Inserter] and
    [LiteEthMACCRC32Checker] pass [LiteEthMACCRC32] as the CRC class. *)
(** ** The CRC-32 of IEEE 802.3 as software computes it

    The docstring of [LiteEthMACCRC32] names the unit the IEEE 802.3 CRC.
    This is the usual bitwise algorithm for it, in its reflected form, to
    compare the unit with: the register starts at 0xFFFFFFFF; each byte is
    xored into the low bits of the register, which is then shifted right
    eight times, the reflected polynomial 0xEDB88320 xored in whenever a
    one is shifted out; the CRC is the complement of the register. *)
Module Reference.

Definition shift_right (c : Z) : Z :=
  if Z.testbit c 0 then Z.lxor (Z.shiftr c 1) 0xEDB88320 else Z.shiftr c 1.

Definition update (c byte : Z) : Z :=
  Nat.iter 8 shift_right (Z.lxor c (Z.land byte 0xFF)).

Definition crc32 (bytes : list Z) : Z :=
  Z.lxor (fold_left update bytes 0xFFFFFFFF) 0xFFFFFFFF.

End Reference.

Module Instances.

Import Stream.

(** The unit an elaboration returned; the empty unit stands for a failed
    elaboration. *)
Definition elaborated (o : option CRC32.unit) : CRC32.unit :=
  match o with
  | Some u => u
  | None => {| CRC32.data_width := 0; CRC32.dw := 0; CRC32.engines := [] |}
  end.

(** The engine an elaboration returned; the empty engine stands for a
    failed elaboration. *)
Definition elaborated_engine (o : option Engine.engine) : Engine.engine :=
  match o with
  | Some e => e
  | None => {| Engine.data_width := 0; Engine.width := 0; Engine.xors := [] |}
  end.

Definition crc32_class (dwidth : nat) : CRC.class :=
  CRC.of_crc32 (elaborated (CRC32.LiteEthMACCRC32 dwidth)).

(** A stream element that carries the byte [d]. *)
Definition byte (d : Z) : payload :=
  {| data := d; last_be := 0; error := false |}.

(** The registers of the byte-wide unit: one lane, within 32 bits. *)
Definition regs_ok (R : CRC32.regs_t) : Prop :=
  exists r, R = [r] /\ EngineSem.in_range CRC32.width r.

End Instances.

(** * Proofs *)

(** * Facts about the Python list primitives *)

Module PyListFacts.
Import PyList.

Lemma pop_snoc {A} (l : list A) (x : A) : pop (l ++ [x]) = Some (l, x).
Proof.
  induction l as [|a l IH]; [reflexivity|].
  change ((a :: l) ++ [x]) with (a :: (l ++ [x])).
  cbn [pop]. rewrite IH.
  destruct (l ++ [x]) eqn:E; [destruct l; discriminate|reflexivity].
Qed.

Lemma set_item_spec {A} (l : list A) (j : nat) (v : A) :
  (j < length l)%nat ->
  exists l', set_item l j v = Some l' /\ length l' = length l /\
             forall i, nth_error l' i = if Nat.eqb i j then Some v else nth_error l i.
Proof.
  revert j. induction l as [|a l IH]; intros j Hj; [cbn in Hj; lia|].
  destruct j as [|j].
  - exists (v :: l). repeat split. intros [|i]; reflexivity.
  - destruct (IH j) as (l' & E & Hl & Hn); [cbn in Hj; lia|].
    exists (a :: l'). cbn [set_item]. rewrite E. repeat split.
    + cbn. now rewrite Hl.
    + intros [|i]; [reflexivity|]. cbn. apply Hn.
Qed.

Lemma for_range_S {S} (n : nat) (body : S -> nat -> option S) (s : S) :
  for_range (Datatypes.S n) body s =
  match for_range n body s with Some a => body a n | None => None end.
Proof.
  unfold for_range. rewrite seq_S, fold_left_app. reflexivity.
Qed.

(** A loop that rewrites every slot [j] of a list in place from its own
    content computes a slot-wise map. *)
Lemma for_range_slots {A} (f : nat -> A -> A) (l : list A) (k : nat) :
  (k <= length l)%nat ->
  exists l',
    for_range k
      (fun c j => match nth_error c j with
                  | None => None
                  | Some x => set_item c j (f j x)
                  end) l = Some l' /\
    length l' = length l /\
    forall j, nth_error l' j =
              if Nat.ltb j k then option_map (f j) (nth_error l j)
              else nth_error l j.
Proof.
  induction k as [|k IH]; intros Hk.
  - exists l. repeat split.
  - destruct IH as (l1 & E & Hl & Hn); [lia|].
    rewrite for_range_S, E.
    assert (Hk1 : nth_error l1 k = nth_error l k).
    { rewrite Hn. now rewrite Nat.ltb_irrefl. }
    destruct (nth_error l k) as [x|] eqn:Ex.
    2:{ apply nth_error_None in Ex. lia. }
    rewrite Hk1.
    destruct (set_item_spec l1 k (f k x)) as (l2 & E2 & Hl2 & Hn2); [lia|].
    exists l2. split; [exact E2|]. split; [lia|].
    intros j. rewrite Hn2, Hn.
    destruct (Nat.eqb_spec j k) as [->|Hne].
    + rewrite Ex. replace (k <? Datatypes.S k)%nat with true; [reflexivity|].
      symmetry. apply Nat.ltb_lt. lia.
    + destruct (Nat.ltb_spec j k), (Nat.ltb_spec j (Datatypes.S k)); try lia; reflexivity.
Qed.

(** A loop that appends slot [i] of [c] when it passes a test collects
    [c] itself. *)
Lemma for_range_collect {A} (ok : A -> bool) (c : list A) (k : nat) :
  (k <= length c)%nat ->
  forallb ok c = true ->
  for_range k
    (fun (acc : list A) i =>
       match nth_error c i with
       | None => None
       | Some l => if ok l then Some (acc ++ [l]) else None
       end) [] = Some (firstn k c).
Proof.
  intros Hk Hok. induction k as [|k IH]; [reflexivity|].
  rewrite for_range_S, IH by lia.
  destruct (nth_error c k) as [x|] eqn:Ex.
  2:{ apply nth_error_None in Ex. lia. }
  rewrite forallb_forall in Hok.
  rewrite (Hok x) by (eapply nth_error_In; eauto).
  f_equal.
  clear - Ex. revert k Ex. induction c as [|a c IHc]; intros [|k] Ex; try discriminate.
  - cbn in Ex. injection Ex as ->. reflexivity.
  - cbn in Ex. specialize (IHc k Ex). cbn [firstn app] in *.
    now rewrite IHc.
Qed.

End PyListFacts.

Module EngineFacts.
Import Engine EngineSem.

(** ** Xor-lists and their meaning *)

Lemma term_eqb_eq a b : term_eqb a b = true <-> a = b.
Proof.
  destruct a, b; cbn; rewrite ?Nat.eqb_eq; split; intros H;
    try discriminate; try congruence; now injection H.
Qed.

Lemma fold_left_xorb r b : fold_left xorb r b = xorb b (xor_all r).
Proof.
  revert b. induction r as [|a r IH]; intros b; cbn.
  - now rewrite xorb_false_r.
  - rewrite IH. generalize (xor_all r). intros c. now destruct b, a, c.
Qed.

Lemma reduce_xor_all bs : reduce_xor bs = xor_all bs.
Proof. destruct bs; [reflexivity|]. cbn. apply fold_left_xorb. Qed.

Lemma xor_all_app a b : xor_all (a ++ b) = xorb (xor_all a) (xor_all b).
Proof.
  induction a as [|x a IH]; cbn; [now destruct (xor_all b)|].
  rewrite IH. generalize (xor_all a) (xor_all b). intros p q. now destruct x, p, q.
Qed.

Lemma sem_app s d a b : sem s d (a ++ b) = xorb (sem s d a) (sem s d b).
Proof. unfold sem. now rewrite map_app, xor_all_app. Qed.

(** ** [_optimize_eq] keeps the meaning *)

Lemma odd_count_S v : odd_count (S v) = negb (odd_count v).
Proof.
  unfold odd_count.
  pose proof (Nat.mod_upper_bound v 2 ltac:(lia)).
  pose proof (Nat.mod_upper_bound (S v) 2 ltac:(lia)).
  pose proof (Nat.div_mod_eq v 2). pose proof (Nat.div_mod_eq (S v) 2).
  destruct (Nat.eqb_spec (v mod 2) 0), (Nat.eqb_spec (S v mod 2) 0); cbn; try reflexivity; lia.
Qed.

Lemma od_sem_incr s d e od :
  od_sem s d (od_incr e od) = xorb (bit_of s d e) (od_sem s d od).
Proof.
  induction od as [|[k v] od IH]; cbn.
  - unfold od_sem. cbn. now destruct (bit_of s d e).
  - destruct (term_eqb k e) eqn:E.
    + apply term_eqb_eq in E. subst k. unfold od_sem. cbn.
      rewrite odd_count_S.
      generalize (odd_count v) (bit_of s d e)
        (xor_all (map (fun kv => odd_count (snd kv) && bit_of s d (fst kv)) od)).
      intros p q r. now destruct p, q, r.
    + unfold od_sem in *. cbn. rewrite IH.
      generalize (odd_count v && bit_of s d k) (bit_of s d e)
        (xor_all (map (fun kv => odd_count (snd kv) && bit_of s d (fst kv)) od)).
      intros p q r. now destruct p, q, r.
Qed.

Lemma od_sem_fold s d l od :
  od_sem s d (fold_left (fun d e => od_incr e d) l od) =
  xorb (sem s d l) (od_sem s d od).
Proof.
  revert od. induction l as [|e l IH]; intros od; cbn [fold_left].
  - unfold sem. cbn. reflexivity.
  - rewrite IH, od_sem_incr. unfold sem. cbn.
    generalize (bit_of s d e) (xor_all (map (bit_of s d) l)) (od_sem s d od).
    intros p q r. now destruct p, q, r.
Qed.

Lemma od_sem_filter s d od :
  sem s d (map fst (filter (fun kv => negb (Nat.eqb (snd kv mod 2) 0)) od)) =
  od_sem s d od.
Proof.
  unfold sem, od_sem.
  induction od as [|[k v] od IH]; [reflexivity|].
  cbn [filter map xor_all fst snd]. fold (odd_count v).
  destruct (odd_count v); cbn [map xor_all fst andb].
  - now rewrite IH.
  - rewrite IH. reflexivity.
Qed.

Lemma sem_optimize_eq s d l : sem s d (_optimize_eq l) = sem s d l.
Proof.
  unfold _optimize_eq. rewrite od_sem_filter, od_sem_fold.
  unfold od_sem. cbn. now rewrite xorb_false_r.
Qed.

(** ** [_optimize_eq] introduces no key *)

Lemma od_incr_keys e od k :
  In k (map fst (od_incr e od)) -> k = e \/ In k (map fst od).
Proof.
  induction od as [|[k' v] od IH]; cbn.
  - intros [H|[]]; auto.
  - destruct (term_eqb k' e); cbn; intros [H|H]; auto.
    destruct (IH H); auto.
Qed.

Lemma od_fold_keys l od k :
  In k (map fst (fold_left (fun d e => od_incr e d) l od)) ->
  In k l \/ In k (map fst od).
Proof.
  revert od. induction l as [|e l IH]; intros od; cbn; auto.
  intros H. destruct (IH _ H) as [H1|H1]; auto.
  destruct (od_incr_keys _ _ _ H1); auto.
Qed.

Lemma optimize_eq_incl l k : In k (_optimize_eq l) -> In k l.
Proof.
  unfold _optimize_eq. intros H.
  apply in_map_iff in H. destruct H as (kv & <- & H).
  apply filter_In in H. destruct H as [H _].
  destruct (od_fold_keys l [] (fst kv)) as [H1|[]]; auto.
  apply in_map. exact H.
Qed.

End EngineFacts.

Module BitFacts.

Lemma testbit_1 j : 0 <= j -> Z.testbit 1 j = (j =? 0).
Proof.
  intros Hj. change 1 with (2 ^ 0). rewrite Z.pow2_bits_eqb by lia.
  now rewrite Z.eqb_sym.
Qed.

Lemma testbit_ones_low N j : 0 <= j < N -> Z.testbit (Z.ones N) j = true.
Proof. intros. apply Z.ones_spec_low. lia. Qed.

Lemma testbit_ones_high N j : 0 <= N <= j -> Z.testbit (Z.ones N) j = false.
Proof. intros. apply Z.ones_spec_high. lia. Qed.

Lemma testbit_high N v j : 0 <= v < 2 ^ N -> 0 <= N <= j -> Z.testbit v j = false.
Proof.
  intros Hv Hj. rewrite <- (Z.mod_small v (2 ^ N)) by lia.
  apply Z.mod_pow2_bits_high. lia.
Qed.

Lemma bits_bound N v :
  0 <= N -> 0 <= v -> (forall j, N <= j -> Z.testbit v j = false) ->
  0 <= v < 2 ^ N.
Proof.
  intros HN Hv H. split; [exact Hv|].
  assert (E : v = v mod 2 ^ N).
  { apply Z.bits_inj'. intros j Hj.
    destruct (Z.lt_ge_cases j N).
    - now rewrite Z.mod_pow2_bits_low by lia.
    - rewrite Z.mod_pow2_bits_high by lia. apply H. lia. }
  rewrite E. apply Z.mod_pos_bound. apply Z.pow_pos_nonneg; lia.
Qed.

Lemma ones_nonneg N : 0 <= N -> 0 <= Z.ones N.
Proof.
  intros HN. rewrite Z.ones_equiv.
  pose proof (Z.pow_pos_nonneg 2 N ltac:(lia) HN). lia.
Qed.

Lemma land_pow2_eq0 x P :
  0 <= x -> (Z.land (Z.shiftl 1 x) P =? 0) = negb (Z.testbit P x).
Proof.
  intros Hx. rewrite Z.shiftl_1_l.
  destruct (Z.testbit P x) eqn:E; cbn.
  - apply Z.eqb_neq. intros H0.
    assert (Z.testbit (Z.land (2 ^ x) P) x = true).
    { rewrite Z.land_spec, Z.pow2_bits_true, E by lia. reflexivity. }
    rewrite H0, Z.bits_0 in H. discriminate.
  - apply Z.eqb_eq. apply Z.bits_inj'. intros j Hj.
    rewrite Z.land_spec, Z.bits_0, Z.pow2_bits_eqb by lia.
    destruct (Z.eqb_spec x j); [subst; now rewrite E|reflexivity].
Qed.

End BitFacts.

Module LfsrFacts.
Import Engine EngineSem BitFacts.

Section Lfsr.
Variable N : nat.
Variable P : Z.
Hypothesis N_pos : (1 <= N)%nat.

Lemma lfsr_shift_bit s din (j : nat) :
  (j < N)%nat ->
  Z.testbit (lfsr_shift N P s din) (Z.of_nat j) =
  match j with
  | O => feedback N s din
  | S j' => xorb (Z.testbit s (Z.of_nat j'))
                 (feedback N s din && Z.testbit P (Z.of_nat j))
  end.
Proof.
  intros Hj. unfold lfsr_shift. fold (feedback N s din).
  destruct (feedback N s din).
  - rewrite Z.lxor_spec, Z.lor_spec, !Z.land_spec, Z.shiftl_spec,
      testbit_1, testbit_ones_low by lia.
    destruct j as [|j'].
    + cbn. reflexivity.
    + replace (Z.of_nat (S j') - 1) with (Z.of_nat j') by lia.
      replace (Z.of_nat (S j') =? 0) with false by (symmetry; apply Z.eqb_neq; lia).
      now rewrite !andb_true_r.
  - rewrite Z.land_spec, Z.shiftl_spec, testbit_ones_low by lia.
    destruct j as [|j'].
    + cbn. reflexivity.
    + replace (Z.of_nat (S j') - 1) with (Z.of_nat j') by lia.
      now rewrite andb_true_r, xorb_false_r.
Qed.

Lemma lfsr_shift_range s din : in_range N (lfsr_shift N P s din).
Proof.
  unfold in_range, lfsr_shift.
  assert (Hsh : 0 <= Z.land (Z.shiftl s 1) (Z.ones (Z.of_nat N)) < 2 ^ Z.of_nat N).
  { rewrite Z.land_ones by lia. apply Z.mod_pos_bound.
    apply Z.pow_pos_nonneg; lia. }
  destruct (xorb _ din); [|exact Hsh].
  apply bits_bound; [lia| |].
  - apply Z.lxor_nonneg. split; intros _; [|lia].
    apply Z.lor_nonneg. split; [lia|].
    apply Z.land_nonneg. right. apply ones_nonneg. lia.
  - intros j Hj.
    rewrite Z.lxor_spec, Z.lor_spec, !Z.land_spec, testbit_1,
      testbit_ones_high by lia.
    replace (j =? 0) with false by (symmetry; apply Z.eqb_neq; lia).
    now rewrite !andb_false_r.
Qed.

Lemma lfsr_feed_range s bits : in_range N s -> in_range N (lfsr_feed N P s bits).
Proof.
  unfold lfsr_feed. revert s. induction bits as [|b bits IH]; intros s Hs; [exact Hs|].
  cbn. apply IH. apply lfsr_shift_range.
Qed.

Lemma lfsr_feed_snoc s bits b :
  lfsr_feed N P s (bits ++ [b]) = lfsr_shift N P (lfsr_feed N P s bits) b.
Proof. unfold lfsr_feed. now rewrite fold_left_app. Qed.

(** Two values of the register with the same bits are equal. *)
Lemma in_range_ext a b :
  in_range N a -> in_range N b ->
  (forall j, (j < N)%nat -> Z.testbit a (Z.of_nat j) = Z.testbit b (Z.of_nat j)) ->
  a = b.
Proof.
  intros Ha Hb H. apply Z.bits_inj'. intros j Hj.
  destruct (Z.lt_ge_cases j (Z.of_nat N)).
  - specialize (H (Z.to_nat j)). rewrite Z2Nat.id in H by lia. apply H. lia.
  - rewrite (testbit_high (Z.of_nat N) a), (testbit_high (Z.of_nat N) b); trivial; lia.
Qed.

(** One shift is onto the register values: every value has a predecessor. *)
Lemma lfsr_shift_onto din t :
  in_range N t -> exists s, in_range N s /\ lfsr_shift N P s din = t.
Proof.
  intros Ht.
  remember (Z.testbit t 0) as fb eqn:Efb.
  set (K := Z.lor 1 (Z.land P (Z.ones (Z.of_nat N)))).
  set (t' := if fb then Z.lxor t K else t).
  set (s := Z.lor (Z.shiftr t' 1)
                  (if xorb fb din then 2 ^ (Z.of_nat N - 1) else 0)).
  assert (HK : forall j, (j < N)%nat ->
             Z.testbit K (Z.of_nat j) =
             match j with O => true | S _ => Z.testbit P (Z.of_nat j) end).
  { intros j Hj. unfold K.
    rewrite Z.lor_spec, Z.land_spec, testbit_1, testbit_ones_low by lia.
    destruct j; [reflexivity|].
    replace (Z.of_nat (S j) =? 0) with false by (symmetry; apply Z.eqb_neq; lia).
    now rewrite andb_true_r. }
  assert (HKr : in_range N K).
  { apply bits_bound; [lia| |].
    - apply Z.lor_nonneg. split; [lia|]. apply Z.land_nonneg. right.
      apply ones_nonneg. lia.
    - intros j Hj. unfold K.
      rewrite Z.lor_spec, Z.land_spec, testbit_1, testbit_ones_high by lia.
      replace (j =? 0) with false by (symmetry; apply Z.eqb_neq; lia).
      now rewrite andb_false_r. }
  assert (Ht'r : in_range N t').
  { unfold t'. destruct fb; [|exact Ht].
    apply bits_bound; [lia| |].
    - apply Z.lxor_nonneg. unfold in_range in *. lia.
    - intros j Hj. rewrite Z.lxor_spec.
      rewrite (testbit_high (Z.of_nat N) t), (testbit_high (Z.of_nat N) K); trivial; lia. }
  assert (Ht'0 : Z.testbit t' 0 = false).
  { unfold t'. destruct fb; [|now symmetry].
    rewrite Z.lxor_spec, <- Efb. change 0 with (Z.of_nat 0).
    rewrite HK by lia. reflexivity. }
  assert (Hpow : forall j, 0 <= j ->
             Z.testbit (if xorb fb din then 2 ^ (Z.of_nat N - 1) else 0) j =
             xorb fb din && (j =? Z.of_nat N - 1)).
  { intros j Hj. destruct (xorb fb din); cbn [andb].
    - rewrite Z.pow2_bits_eqb by lia. apply Z.eqb_sym.
    - apply Z.bits_0. }
  assert (Hs : forall j, 0 <= j ->
             Z.testbit s j = Z.testbit t' (j + 1) || (xorb fb din && (j =? Z.of_nat N - 1))).
  { intros j Hj. unfold s. rewrite Z.lor_spec, Z.shiftr_spec, Hpow by lia. reflexivity. }
  assert (Hsr : in_range N s).
  { apply bits_bound; [lia| |].
    - unfold s. apply Z.lor_nonneg. split.
      + apply Z.shiftr_nonneg. unfold in_range in Ht'r. lia.
      + destruct (xorb fb din); [|lia]. apply Z.pow_nonneg. lia.
    - intros j Hj. rewrite Hs by lia.
      rewrite (testbit_high (Z.of_nat N) t') by (trivial; lia).
      replace (j =? Z.of_nat N - 1) with false by (symmetry; apply Z.eqb_neq; lia).
      now rewrite andb_false_r. }
  assert (Hfb : feedback N s din = fb).
  { unfold feedback. rewrite Hs by lia.
    replace (Z.of_nat N - 1 + 1) with (Z.of_nat N) by lia.
    rewrite (testbit_high (Z.of_nat N) t') by (trivial; lia).
    rewrite Z.eqb_refl, andb_true_r. cbn [orb].
    now destruct fb, din. }
  exists s. split; [exact Hsr|].
  apply in_range_ext; [apply lfsr_shift_range|exact Ht|].
  intros j Hj. rewrite lfsr_shift_bit by exact Hj. rewrite Hfb.
  destruct j as [|j'].
  - rewrite Efb. reflexivity.
  - rewrite Hs by lia.
    replace (Z.of_nat j' =? Z.of_nat N - 1) with false by (symmetry; apply Z.eqb_neq; lia).
    rewrite andb_false_r, orb_false_r.
    replace (Z.of_nat j' + 1) with (Z.of_nat (S j')) by lia.
    unfold t'. destruct fb; cbn [andb].
    + rewrite Z.lxor_spec, HK by lia.
      generalize (Z.testbit t (Z.of_nat (S j'))) (Z.testbit P (Z.of_nat (S j'))).
      intros p q. now destruct p, q.
    + now rewrite xorb_false_r.
Qed.

Lemma lfsr_feed_onto bits t :
  in_range N t -> exists s, in_range N s /\ lfsr_feed N P s bits = t.
Proof.
  revert t. induction bits as [|b bits IH]; intros t Ht.
  - exists t. split; [exact Ht|reflexivity].
  - destruct (IH t Ht) as (s1 & Hs1 & E1).
    destruct (lfsr_shift_onto b s1 Hs1) as (s & Hs & E).
    exists s. split; [exact Hs|]. unfold lfsr_feed in *. cbn. now rewrite E.
Qed.

End Lfsr.
End LfsrFacts.

Module EngineCorrect.
Import Engine EngineSem EngineFacts PyListFacts BitFacts LfsrFacts.

Lemma bits_to_Z_range bs : 0 <= bits_to_Z bs < 2 ^ Z.of_nat (length bs).
Proof.
  induction bs as [|b bs IH]; [cbn; lia|].
  cbn [bits_to_Z length]. rewrite Nat2Z.inj_succ, Z.pow_succ_r by lia.
  destruct b; cbn [Z.b2z]; lia.
Qed.

Lemma bits_to_Z_testbit bs (j : nat) :
  Z.testbit (bits_to_Z bs) (Z.of_nat j) = nth j bs false.
Proof.
  revert j. induction bs as [|b bs IH]; intros j.
  - cbn [bits_to_Z]. rewrite Z.bits_0. now destruct j.
  - cbn [bits_to_Z]. rewrite Z.add_comm. destruct j as [|j].
    + cbn [Z.of_nat nth]. apply Z.testbit_0_r.
    + rewrite Nat2Z.inj_succ, Z.testbit_succ_r by lia. cbn [nth]. apply IH.
Qed.

Lemma nth_error_Some_lt {A} (l : list A) j x :
  nth_error l j = Some x -> (j < length l)%nat.
Proof. intros E. apply nth_error_Some. congruence. Qed.

Lemma nth_error_seq0 n j : (j < n)%nat -> nth_error (seq 0 n) j = Some j.
Proof.
  intros Hj. rewrite (nth_error_nth' _ 0%nat) by (rewrite length_seq; lia).
  now rewrite seq_nth by lia.
Qed.

(** A signal needs a width of at least 1. *)
Lemma Signal_pos n : (1 <= n)%nat -> Migen.Signal n = Some n.
Proof.
  intros Hn. unfold Migen.Signal.
  now replace (Nat.eqb n 0) with false by (symmetry; apply Nat.eqb_neq; lia).
Qed.

Lemma Signal_some n m : Migen.Signal n = Some m -> (1 <= n)%nat.
Proof.
  unfold Migen.Signal. destruct (Nat.eqb_spec n 0); [discriminate|lia].
Qed.

(** An engine that elaborated has a data width and a register width of
    at least 1. *)
Lemma built_pos W N P e :
  LiteEthMACCRCEngine W N P = Some e -> (1 <= W)%nat /\ (1 <= N)%nat.
Proof.
  unfold LiteEthMACCRCEngine. intros He.
  destruct (Migen.Signal W) as [w|] eqn:EW; [|discriminate].
  destruct (Migen.Signal N) as [n|] eqn:EN; [|discriminate].
  split; eapply Signal_some; eauto.
Qed.

Section Build.
Variables (N : nat) (P : Z).
Hypothesis N_pos : (1 <= N)%nat.

Lemma in_taps_true j :
  in_taps j (taps N P) = true <-> (j < N)%nat /\ Z.testbit P (Z.of_nat j) = true.
Proof.
  unfold in_taps, taps. rewrite existsb_exists. split.
  - intros (x & Hx & E). apply Nat.eqb_eq in E. subst x.
    apply filter_In in Hx. destruct Hx as [Hx Hb].
    apply in_seq in Hx. rewrite land_pow2_eq0, negb_involutive in Hb by lia.
    split; [lia|exact Hb].
  - intros [Hj Hb]. exists j. split; [|apply Nat.eqb_refl].
    apply filter_In. split; [apply in_seq; lia|].
    rewrite land_pow2_eq0, negb_involutive by lia. exact Hb.
Qed.

Lemma in_taps_eq j :
  (j < N)%nat -> in_taps j (taps N P) = Z.testbit P (Z.of_nat j).
Proof.
  intros Hj. destruct (Z.testbit P (Z.of_nat j)) eqn:E.
  - apply in_taps_true. auto.
  - destruct (in_taps j (taps N P)) eqn:E'; [|reflexivity].
    apply in_taps_true in E'. destruct E' as [_ E']. congruence.
Qed.

Lemma scoped_mono i t : scoped N i t -> scoped N (S i) t.
Proof. destruct t; cbn; lia. Qed.

Lemma good_init : good N P 0 (curval_init N).
Proof.
  unfold curval_init. split; [now rewrite length_map, length_seq|].
  assert (H : forall j l, nth_error (map (fun i => [State i]) (seq 0 N)) j = Some l ->
                          (j < N)%nat /\ l = [State j]).
  { intros j l E.
    assert (Hj : (j < N)%nat).
    { apply nth_error_Some_lt in E. now rewrite length_map, length_seq in E. }
    rewrite nth_error_map, nth_error_seq0 in E by exact Hj.
    cbn in E. injection E as <-. auto. }
  split.
  - intros j l E. destruct (H j l E) as [Hj ->]. constructor; [exact Hj|constructor].
  - intros s d j l _ E. destruct (H j l E) as [Hj ->].
    unfold sem. cbn. now rewrite xorb_false_r.
Qed.

Lemma data_bits_S i d :
  data_bits (S i) d = data_bits i d ++ [Z.testbit d (Z.of_nat i)].
Proof. unfold data_bits. now rewrite seq_S, map_app. Qed.

Lemma good_shift i c :
  good N P i c -> exists c', shift N (taps N P) c i = Some c' /\ good N P (S i) c'.
Proof.
  intros (Hlen & Hsc & Hsem).
  destruct (exists_last (l := c)) as (rest & top & ->).
  { intros ->. cbn in Hlen. lia. }
  rewrite length_app in Hlen. cbn in Hlen.
  assert (Hrest : length rest = (N - 1)%nat) by lia.
  unfold shift. rewrite pop_snoc.
  set (fbk := top ++ [Din i]).
  destruct (for_range_slots
              (fun j x => _optimize_eq
                            (if in_taps (j + 1) (taps N P) then x ++ fbk else x))
              rest (N - 1)) as (l' & E & Hl' & Hn); [lia|].
  unfold tap_slot. rewrite E. exists (fbk :: l'). split; [reflexivity|].
  assert (Htop : nth_error (rest ++ [top]) (N - 1) = Some top).
  { rewrite nth_error_app2 by lia. now rewrite Hrest, Nat.sub_diag. }
  assert (Hfsc : Forall (scoped N (S i)) fbk).
  { unfold fbk. apply Forall_app. split.
    - eapply Forall_impl; [apply scoped_mono|]. eapply Hsc. exact Htop.
    - constructor; [cbn; lia|constructor]. }
  assert (Hfsem : forall s d, in_range N s ->
            sem s d fbk = feedback N (lfsr_feed N P s (data_bits i d))
                                   (Z.testbit d (Z.of_nat i))).
  { intros s d Hs. unfold fbk. rewrite sem_app.
    rewrite (Hsem s d (N - 1)%nat top Hs Htop).
    unfold feedback, sem. cbn.
    replace (Z.of_nat (N - 1)) with (Z.of_nat N - 1) by lia.
    now rewrite xorb_false_r. }
  assert (Hslot : forall j l, nth_error l' j = Some l ->
            exists x, nth_error (rest ++ [top]) j = Some x /\ (j < N - 1)%nat /\
                      l = _optimize_eq
                            (if in_taps (j + 1) (taps N P) then x ++ fbk else x)).
  { intros j l El.
    assert (Hj : (j < N - 1)%nat).
    { apply nth_error_Some_lt in El. lia. }
    rewrite Hn in El.
    replace (j <? N - 1)%nat with true in El by (symmetry; apply Nat.ltb_lt; lia).
    destruct (nth_error rest j) as [x|] eqn:Ex; [|discriminate].
    exists x. rewrite nth_error_app1 by lia. cbn in El. injection El as <-. auto. }
  split; [cbn; lia|]. split.
  - intros [|j] l El; cbn in El.
    + injection El as <-. exact Hfsc.
    + destruct (Hslot j l El) as (x & Ex & Hj & ->).
      apply Forall_forall. intros t Ht. apply optimize_eq_incl in Ht.
      assert (Hx : Forall (scoped N (S i)) x).
      { eapply Forall_impl; [apply scoped_mono|]. eapply Hsc. exact Ex. }
      destruct (in_taps (j + 1) (taps N P)).
      * apply in_app_or in Ht. destruct Ht as [Ht|Ht];
          [eapply Forall_forall in Hx|eapply Forall_forall in Hfsc]; eauto.
      * eapply Forall_forall in Hx; eauto.
  - intros s d j l Hs El.
    rewrite data_bits_S, lfsr_feed_snoc.
    destruct j as [|j]; cbn in El.
    + injection El as <-. rewrite lfsr_shift_bit by lia. now apply Hfsem.
    + destruct (Hslot j l El) as (x & Ex & Hj & ->).
      rewrite lfsr_shift_bit by lia. rewrite sem_optimize_eq.
      rewrite <- (Hsem s d j x Hs Ex), <- (Hfsem s d Hs).
      replace (j + 1)%nat with (S j) by lia.
      rewrite in_taps_eq by lia.
      destruct (Z.testbit P (Z.of_nat (S j))).
      * rewrite sem_app. now rewrite andb_true_r.
      * now rewrite andb_false_r, xorb_false_r.
Qed.

Lemma good_loop k :
  exists c, PyList.for_range k (shift N (taps N P)) (curval_init N) = Some c /\
            good N P k c.
Proof.
  induction k as [|k (c & E & Hc)].
  - exists (curval_init N). split; [reflexivity|apply good_init].
  - destruct (good_shift k c Hc) as (c' & E' & Hc').
    exists c'. rewrite for_range_S, E. auto.
Qed.

(** No slot is empty: some register value sets the bit it denotes. *)
Lemma good_nonempty k c j l : good N P k c -> nth_error c j = Some l -> l <> [].
Proof.
  intros (Hlen & _ & Hsem) El ->.
  assert (Hj : (j < N)%nat).
  { apply nth_error_Some_lt in El. lia. }
  destruct (lfsr_feed_onto N P N_pos (data_bits k 0) (2 ^ Z.of_nat j))
    as (s & Hs & E).
  { split; [apply Z.pow_nonneg; lia|]. apply Z.pow_lt_mono_r; lia. }
  specialize (Hsem s 0 j [] Hs El).
  rewrite E, Z.pow2_bits_true in Hsem by lia. discriminate.
Qed.

Lemma good_xors_ok W c : good N P W c -> forallb (xors_ok W N) c = true.
Proof.
  intros Hc. apply forallb_forall. intros l Hl.
  apply In_nth_error in Hl. destruct Hl as (j & El).
  pose proof (good_nonempty W c j l Hc El) as Hne.
  destruct Hc as (_ & Hsc & _). specialize (Hsc j l El).
  unfold xors_ok. destruct l as [|t l]; [congruence|].
  apply forallb_forall. intros t' Ht'.
  eapply Forall_forall in Hsc; [|exact Ht'].
  destruct t'; cbn in *; apply Nat.ltb_lt; exact Hsc.
Qed.

Lemma engine_built W :
  (1 <= W)%nat ->
  exists c, LiteEthMACCRCEngine W N P =
            Some {| data_width := W; width := N; xors := c |} /\ good N P W c.
Proof.
  intros HW. destruct (good_loop W) as (c & E & Hc).
  exists c. unfold LiteEthMACCRCEngine, curval_final.
  rewrite (Signal_pos W HW), (Signal_pos N N_pos), E.
  rewrite (for_range_collect (xors_ok W N) c N).
  - rewrite firstn_all2 by (destruct Hc as (Hl & _); lia). auto.
  - destruct Hc as (Hl & _); lia.
  - now apply good_xors_ok.
Qed.

Lemma next_of_good W c s d :
  good N P W c -> in_range N s ->
  next {| data_width := W; width := N; xors := c |} s d =
  lfsr_feed N P s (data_bits W d).
Proof.
  intros Hc Hs. unfold next. cbn [xors].
  apply (in_range_ext N N_pos).
  - pose proof (bits_to_Z_range
                  (map (fun l => reduce_xor (map (bit_of s d) l)) c)) as H.
    rewrite length_map in H. destruct Hc as (Hl & _). rewrite Hl in H. exact H.
  - apply lfsr_feed_range; assumption.
  - intros j Hj. rewrite bits_to_Z_testbit.
    destruct Hc as (Hl & _ & Hsem).
    destruct (nth_error c j) as [l|] eqn:El.
    2:{ apply nth_error_None in El. lia. }
    rewrite <- (Hsem s d j l Hs El).
    erewrite nth_indep by (rewrite length_map; lia).
    rewrite (map_nth (fun l => reduce_xor (map (bit_of s d) l)) c [] j).
    rewrite (nth_error_nth _ _ _ El). apply reduce_xor_all.
Qed.

End Build.
End EngineCorrect.

Module CRC32Facts.
Import CRC32 EngineSem PyListFacts BitFacts LfsrFacts EngineCorrect.

(** A loop that appends [g e] for every [e] builds the list of the [g e]. *)
Lemma for_range_build {A} (g : nat -> option A) (k : nat) :
  (forall e, (e < k)%nat -> g e <> None) ->
  exists l,
    PyList.for_range k
      (fun (acc : list A) e =>
         match g e with Some x => Some (acc ++ [x]) | None => None end) [] =
    Some l /\
    length l = k /\
    forall e, (e < k)%nat -> nth_error l e = g e.
Proof.
  induction k as [|k IH]; intros Hg.
  - exists []. repeat split. intros e He. lia.
  - destruct IH as (l & E & Hl & Hn); [intros e He; apply Hg; lia|].
    rewrite for_range_S, E.
    destruct (g k) as [x|] eqn:Ex; [|now destruct (Hg k ltac:(lia))].
    exists (l ++ [x]). split; [reflexivity|]. split.
    + rewrite length_app. cbn. lia.
    + intros e He. destruct (Nat.eq_dec e k) as [->|Hne].
      * rewrite nth_error_app2 by lia. now rewrite Hl, Nat.sub_diag.
      * rewrite nth_error_app1 by lia. apply Hn. lia.
Qed.

(** The unit elaborates from a data width of 8 on, and only then. *)
Lemma built_width dwidth u :
  LiteEthMACCRC32 dwidth = Some u -> (8 <= dwidth)%nat /\ (1 <= dw u)%nat.
Proof.
  unfold LiteEthMACCRC32. cbv zeta. intros Hu.
  destruct (Migen.Signal dwidth) as [w|] eqn:EW; [|discriminate].
  destruct (Migen.Signal (dwidth / 8)) as [n|] eqn:En; [|discriminate].
  apply Signal_some in En.
  assert (H8 : (8 <= dwidth)%nat).
  { destruct (Nat.lt_ge_cases dwidth 8) as [H|H]; [|exact H].
    rewrite Nat.div_small in En by exact H. lia. }
  split; [exact H8|].
  destruct (PyList.for_range _ _ _); [|discriminate].
  injection Hu as <-. exact En.
Qed.

(** Elaboration of the unit succeeds and yields one engine per lane. *)
Lemma crc32_built dwidth :
  (8 <= dwidth)%nat ->
  exists u, LiteEthMACCRC32 dwidth = Some u /\
            data_width u = dwidth /\ dw u = (dwidth / 8)%nat /\
            length (engines u) = dw u /\
            forall e, (e < dw u)%nat ->
              exists en, nth_error (engines u) e = Some en /\
                Engine.LiteEthMACCRCEngine ((e + 1) * 8) width polynom = Some en.
Proof.
  intros H8.
  assert (Hn8 : (1 <= dwidth / 8)%nat).
  { change 1%nat with (8 / 8)%nat. apply Nat.Div0.div_le_mono. exact H8. }
  destruct (for_range_build
              (fun e => Engine.LiteEthMACCRCEngine ((e + 1) * 8) width polynom)
              (dwidth / 8)) as (l & E & Hl & Hn).
  { intros e _.
    destruct (engine_built width polynom ltac:(unfold width; lia) ((e + 1) * 8)
                 ltac:(lia))
      as (c & Ec & _).
    rewrite Ec. discriminate. }
  unfold LiteEthMACCRC32. cbv zeta.
  rewrite (Signal_pos dwidth) by lia. rewrite (Signal_pos (dwidth / 8)) by exact Hn8.
  rewrite E. eexists. split; [reflexivity|].
  cbn. repeat split; trivial.
  intros e He. specialize (Hn e He).
  destruct (Engine.LiteEthMACCRCEngine ((e + 1) * 8) width polynom) as [en|] eqn:Een.
  - exists en. auto.
  - destruct (engine_built width polynom ltac:(unfold width; lia) ((e + 1) * 8)
                 ltac:(lia))
      as (c & Ec & _). congruence.
Qed.

Lemma built_inv dwidth u :
  LiteEthMACCRC32 dwidth = Some u ->
  data_width u = dwidth /\ dw u = (dwidth / 8)%nat /\
  length (engines u) = dw u /\
  forall e, (e < dw u)%nat ->
    exists en, nth_error (engines u) e = Some en /\
      Engine.LiteEthMACCRCEngine ((e + 1) * 8) width polynom = Some en.
Proof.
  intros E. destruct (built_width dwidth u E) as (H8 & _).
  destruct (crc32_built dwidth H8) as (u' & E' & H).
  rewrite E in E'. injection E' as <-. exact H.
Qed.

(** What lane [e]'s engine computes, in terms of the serial recurrence. *)
Lemma engine_next_serial dwidth u regs data e :
  LiteEthMACCRC32 dwidth = Some u -> (e < dw u)%nat ->
  in_range width (last regs 0) ->
  engine_next u regs data e =
  Engine.lfsr_feed width polynom (last regs 0)
                   (Engine.data_bits ((e + 1) * 8) data).
Proof.
  intros Hu He Hr.
  destruct (built_inv dwidth u Hu) as (_ & _ & _ & Hen).
  destruct (Hen e He) as (en & Een & Eb).
  unfold engine_next. rewrite Een.
  destruct (engine_built width polynom ltac:(unfold width; lia) ((e + 1) * 8)
                 ltac:(lia))
    as (c & Ec & Hc).
  rewrite Eb in Ec. injection Ec as ->.
  rewrite (next_of_good width polynom ltac:(unfold width; lia) _ c) by assumption.
  f_equal. unfold Engine.data_bits. apply map_ext_in. intros i Hi.
  apply in_seq in Hi. rewrite Z.land_spec, testbit_ones_low by lia.
  apply andb_true_r.
Qed.

(** The [If] chain keeps the last lane whose bit is set; for a one-hot
    mask that is the lane of the set bit. *)
Lemma select_one_hot {A} (g : nat -> A) (v0 : A) (k n : nat) :
  fold_left (fun v e => if Z.testbit (2 ^ Z.of_nat k) (Z.of_nat e) then g e else v)
            (seq 0 n) v0 =
  if Nat.ltb k n then g k else v0.
Proof.
  induction n as [|n IH]; [reflexivity|].
  rewrite seq_S, fold_left_app, IH. cbn [fold_left Nat.add].
  rewrite Z.pow2_bits_eqb by lia.
  destruct (Z.eqb_spec (Z.of_nat k) (Z.of_nat n)) as [E|E].
  - apply Nat2Z.inj in E. subst n.
    replace (k <? S k)%nat with true by (symmetry; apply Nat.ltb_lt; lia).
    reflexivity.
  - destruct (Nat.ltb_spec k n), (Nat.ltb_spec k (S n)); try lia; reflexivity.
Qed.

(** For any mask the lane of the highest bit set wins. *)
Lemma select_highest {A} (g : nat -> A) (v0 : A) (n : nat) (m : Z) :
  0 < m < 2 ^ Z.of_nat n ->
  fold_left (fun v e => if Z.testbit m (Z.of_nat e) then g e else v)
            (seq 0 n) v0 =
  g (Z.to_nat (Z.log2 m)).
Proof.
  induction n as [|n IH]; intros Hm; [cbn in Hm; lia|].
  rewrite seq_S, fold_left_app. cbn [fold_left Nat.add].
  assert (Hlog : Z.log2 m < Z.of_nat (S n)).
  { apply Z.log2_lt_pow2; lia. }
  pose proof (Z.log2_nonneg m) as Hnn.
  destruct (Z.testbit m (Z.of_nat n)) eqn:Eb.
  - f_equal. destruct (Z.lt_ge_cases (Z.log2 m) (Z.of_nat n)) as [H|H].
    + rewrite Z.bits_above_log2 in Eb by lia. discriminate.
    + lia.
  - apply IH. split; [lia|].
    apply Z.log2_lt_pow2; [lia|].
    destruct (Z.eq_dec (Z.log2 m) (Z.of_nat n)) as [E|E]; [|lia].
    rewrite <- E, Z.bit_log2 in Eb by lia. discriminate.
Qed.

Lemma selected_lane_bound u last_be :
  (1 <= dw u)%nat -> 0 <= last_be < 2 ^ Z.of_nat (dw u) ->
  (CRC32Spec.selected_lane u last_be < dw u)%nat.
Proof.
  intros Hdw Hbe. unfold CRC32Spec.selected_lane.
  destruct (Z.eqb_spec last_be 0) as [E|E]; [lia|].
  assert (Z.log2 last_be < Z.of_nat (dw u)) by (apply Z.log2_lt_pow2; lia).
  pose proof (Z.log2_nonneg last_be). lia.
Qed.

Lemma outputs_lane u regs data last_be :
  (1 <= dw u)%nat -> 0 <= last_be < 2 ^ Z.of_nat (dw u) ->
  outputs u regs data last_be =
  (invert width (reverse_bits width
                   (nth (CRC32Spec.selected_lane u last_be) regs 0)),
   negb (engine_next u regs data (CRC32Spec.selected_lane u last_be) =? check)).
Proof.
  intros Hdw Hbe. unfold outputs, last_be_sel, CRC32Spec.selected_lane.
  destruct (Z.eqb_spec last_be 0) as [E|E].
  - replace (Z.of_nat (dw u) - 1) with (Z.of_nat (dw u - 1)) by lia.
    rewrite (select_one_hot
             (fun e => (invert width (reverse_bits width (nth e regs 0)),
                        negb (engine_next u regs data e =? check)))).
    now replace (dw u - 1 <? dw u)%nat with true by (symmetry; apply Nat.ltb_lt; lia).
  - apply (select_highest
             (fun e => (invert width (reverse_bits width (nth e regs 0)),
                        negb (engine_next u regs data e =? check)))).
    lia.
Qed.

(** Bits of the visible value: complemented and in reverse order. *)
Lemma reverse_bits_testbit w x (i : nat) :
  (i < w)%nat ->
  Z.testbit (reverse_bits w x) (Z.of_nat i) = Z.testbit x (Z.of_nat (w - 1 - i)).
Proof.
  intros Hi. unfold reverse_bits. rewrite bits_to_Z_testbit.
  erewrite nth_indep by (rewrite length_map, length_seq; lia).
  rewrite (map_nth (fun i => Z.testbit x (Z.of_nat (w - 1 - i))) (seq 0 w) 0%nat).
  now rewrite seq_nth by lia.
Qed.

Lemma invert_testbit w x (i : nat) :
  (i < w)%nat -> Z.testbit (invert w x) (Z.of_nat i) = negb (Z.testbit x (Z.of_nat i)).
Proof.
  intros Hi. unfold invert.
  rewrite Z.land_spec, Z.lnot_spec, testbit_ones_low by lia.
  apply andb_true_r.
Qed.

Lemma invert_range w x : in_range w (invert w x).
Proof.
  unfold invert, in_range. rewrite Z.land_ones by lia.
  apply Z.mod_pos_bound. apply Z.pow_pos_nonneg; lia.
Qed.

End CRC32Facts.

Module ResidueFacts.
Import Engine EngineSem BitFacts LfsrFacts.

Section Residue.
Variables (N : nat) (P : Z).
Hypothesis N_pos : (1 <= N)%nat.

Lemma lxor_range a b : in_range N a -> in_range N b -> in_range N (Z.lxor a b).
Proof.
  intros Ha Hb. apply bits_bound; [lia| |].
  - apply Z.lxor_nonneg. unfold in_range in *. lia.
  - intros j Hj. rewrite Z.lxor_spec.
    rewrite (testbit_high (Z.of_nat N) a), (testbit_high (Z.of_nat N) b); trivial; lia.
Qed.

Lemma shl_range r k : in_range N (Z.land (Z.shiftl r k) (Z.ones (Z.of_nat N))).
Proof.
  unfold in_range. rewrite Z.land_ones by lia.
  apply Z.mod_pos_bound. apply Z.pow_pos_nonneg; lia.
Qed.

Lemma shl_bit r (k j : nat) :
  (j < N)%nat ->
  Z.testbit (Z.land (Z.shiftl r (Z.of_nat k)) (Z.ones (Z.of_nat N))) (Z.of_nat j) =
  Z.testbit r (Z.of_nat j - Z.of_nat k).
Proof.
  intros Hj. rewrite Z.land_spec, Z.shiftl_spec, testbit_ones_low by lia.
  apply andb_true_r.
Qed.

Lemma ones_feed_S k :
  lfsr_feed N P 0 (repeat true (S k)) =
  lfsr_shift N P (lfsr_feed N P 0 (repeat true k)) true.
Proof.
  rewrite <- lfsr_feed_snoc. f_equal. cbn [repeat]. apply repeat_cons.
Qed.

(** Feeding the complemented register, top bit first, cancels the register:
    after [k] bits the state is the register shifted by [k] xored with a
    constant that depends on [k] only. *)
Lemma feed_complement r k :
  in_range N r -> (k <= N)%nat ->
  lfsr_feed N P r
    (map (fun i => negb (Z.testbit r (Z.of_nat (N - 1 - i)))) (seq 0 k)) =
  Z.lxor (Z.land (Z.shiftl r (Z.of_nat k)) (Z.ones (Z.of_nat N)))
         (lfsr_feed N P 0 (repeat true k)).
Proof.
  intros Hr. induction k as [|k IH]; intros Hk.
  - cbn [seq map repeat]. unfold lfsr_feed. cbn [fold_left].
    rewrite Z.lxor_0_r, Z.shiftl_0_r, Z.land_ones by lia.
    unfold in_range in Hr. now rewrite Z.mod_small.
  - rewrite seq_S, map_app. cbn [map Nat.add].
    rewrite lfsr_feed_snoc, IH, ones_feed_S by lia.
    set (A := Z.land (Z.shiftl r (Z.of_nat k)) (Z.ones (Z.of_nat N))).
    set (K := lfsr_feed N P 0 (repeat true k)).
    assert (HK : in_range N K).
    { apply lfsr_feed_range; [exact N_pos|]. unfold in_range.
      split; [lia|]. apply Z.pow_pos_nonneg; lia. }
    assert (Hfb : feedback N (Z.lxor A K)
                    (negb (Z.testbit r (Z.of_nat (N - 1 - k)))) =
                  feedback N K true).
    { unfold feedback. rewrite Z.lxor_spec.
      replace (Z.of_nat N - 1) with (Z.of_nat (N - 1)) by lia.
      unfold A. rewrite shl_bit by lia.
      replace (Z.of_nat (N - 1) - Z.of_nat k) with (Z.of_nat (N - 1 - k)) by lia.
      generalize (Z.testbit r (Z.of_nat (N - 1 - k))) (Z.testbit K (Z.of_nat (N - 1))).
      intros p q. now destruct p, q. }
    apply (in_range_ext N N_pos).
    + apply lfsr_shift_range. exact N_pos.
    + apply lxor_range; [apply shl_range|apply lfsr_shift_range; exact N_pos].
    + intros j Hj. rewrite Z.lxor_spec, !lfsr_shift_bit, shl_bit, Hfb by lia.
      destruct j as [|j'].
      * rewrite Z.testbit_neg_r by lia. reflexivity.
      * rewrite Z.lxor_spec. unfold A. rewrite shl_bit by lia.
        replace (Z.of_nat (S j') - Z.of_nat (S k)) with (Z.of_nat j' - Z.of_nat k) by lia.
        generalize (Z.testbit r (Z.of_nat j' - Z.of_nat k))
                   (Z.testbit K (Z.of_nat j'))
                   (feedback N K true && Z.testbit P (Z.of_nat (S j'))).
        intros p q t. now destruct p, q, t.
Qed.

(** The residue: the register followed by its own complement, top bit
    first, always leads to the same state. *)
Lemma residue_constant r :
  in_range N r ->
  lfsr_feed N P r
    (map (fun i => negb (Z.testbit r (Z.of_nat (N - 1 - i)))) (seq 0 N)) =
  lfsr_feed N P 0 (repeat true N).
Proof.
  intros Hr. rewrite feed_complement by (trivial; lia).
  replace (Z.land (Z.shiftl r (Z.of_nat N)) (Z.ones (Z.of_nat N))) with 0.
  - apply Z.lxor_0_l.
  - symmetry. apply (in_range_ext N N_pos).
    + apply shl_range.
    + unfold in_range. split; [lia|]. apply Z.pow_pos_nonneg; lia.
    + intros j Hj. rewrite shl_bit, Z.bits_0 by lia.
      apply Z.testbit_neg_r. lia.
Qed.

End Residue.

Lemma residue_crc32 :
  lfsr_feed CRC32.width CRC32.polynom 0 (repeat true CRC32.width) = CRC32.check.
Proof. vm_compute. reflexivity. Qed.

End ResidueFacts.

Module InserterFacts.
Import Stream Inserter InserterSpec Env.

#[local] Arguments Inserter.ratio : simpl never.
#[local] Arguments Nat.ltb : simpl never.

Lemma progress_cons g r env :
  progress ((g, r) :: env) = ((if g && r then 1 else 0) + progress env)%nat.
Proof. unfold progress. cbn. now destruct (g && r). Qed.

Lemma readies_cons g r env :
  readies ((g, r) :: env) = ((if r then 1 else 0) + readies env)%nat.
Proof. unfold readies. cbn. now destruct r. Qed.

Lemma progress_le_readies env : (progress env <= readies env)%nat.
Proof.
  induction env as [|[g r] env IH]; [apply Nat.le_refl|].
  rewrite progress_cons, readies_cons. destruct g, r; cbn; lia.
Qed.

Lemma ins_released_cons o tr :
  released (o :: tr) = match o with Some b => [b] | None => [] end ++ released tr.
Proof. reflexivity. Qed.

Section WithClass.
Variable crc : CRC.class.
Variable dw : nat.

Lemma ins_trace_cons sp gr env :
  trace crc dw sp (gr :: env) =
  snd (cycle crc dw sp gr) :: trace crc dw (fst (cycle crc dw sp gr)) env.
Proof. reflexivity. Qed.

Lemma ins_final_cons sp gr env :
  final crc dw sp (gr :: env) = final crc dw (fst (cycle crc dw sp gr)) env.
Proof. reflexivity. Qed.

(** *** One cycle in each state *)

Lemma cycle_idle rg c pending g r :
  cycle crc dw ({| fsm := IDLE; regs := rg; cnt := c |}, pending) (g, r) =
  (({| fsm := if valid (present g pending) then COPY else IDLE;
       regs := CRC.regs_reset crc;
       cnt := if Nat.ltb 1 (ratio crc dw) then (ratio crc dw - 1)%nat else c |},
    pending), None).
Proof.
  unfold cycle, comb_of, step. cbn.
  destruct (valid (present g pending)); reflexivity.
Qed.

Lemma cycle_copy_stall rg c pending g r :
  valid (present g pending) && r = false ->
  cycle crc dw ({| fsm := COPY; regs := rg; cnt := c |}, pending) (g, r) =
  (({| fsm := COPY; regs := rg; cnt := c |}, pending), None).
Proof.
  intros H. unfold cycle, comb_of, step. cbn. rewrite H.
  destruct (valid (present g pending)), r; try discriminate; cbn;
    rewrite ?andb_false_r; destruct (Nat.ltb 1 (ratio crc dw)); reflexivity.
Qed.

Lemma cycle_copy_accept rg c p l (rest : list beat) :
  cycle crc dw ({| fsm := COPY; regs := rg; cnt := c |}, ((p, l) : beat) :: rest)
        (true, true) =
  (({| fsm := if l then CRC else COPY;
       regs := CRC.regs_next crc rg p.(data); cnt := c |}, rest),
   Some ((p, false) : beat)).
Proof.
  unfold cycle, comb_of, step. cbn. rewrite andb_true_r.
  destruct l, (Nat.ltb 1 (ratio crc dw)); reflexivity.
Qed.

Lemma cycle_crc_many rg c pending g r :
  (1 < ratio crc dw)%nat ->
  cycle crc dw ({| fsm := CRC; regs := rg; cnt := c |}, pending) (g, r) =
  ((if r then
      match c with
      | O => {| fsm := IDLE; regs := rg; cnt := c |}
      | S c' => {| fsm := CRC; regs := rg; cnt := c' |}
      end
    else {| fsm := CRC; regs := rg; cnt := c |}, pending),
   if r then Some (chunk crc dw (CRC.value crc rg 0) c) else None).
Proof.
  intros Hr. apply Nat.ltb_lt in Hr.
  unfold cycle, comb_of, step, cnt_done, chunk, crc_value. cbn. rewrite Hr. cbn.
  rewrite andb_false_r.
  destruct r, c as [|c']; cbn; rewrite ?Nat.sub_0_r; reflexivity.
Qed.

Lemma cycle_crc_one rg c pending g r :
  (ratio crc dw <= 1)%nat ->
  cycle crc dw ({| fsm := CRC; regs := rg; cnt := c |}, pending) (g, r) =
  (({| fsm := if r then IDLE else CRC; regs := rg; cnt := c |}, pending),
   if r then Some ({| data := Z.land (CRC.value crc rg 0) (Z.ones (Z.of_nat dw));
                      last_be := 0; error := false |}, true)
   else None).
Proof.
  intros Hr.
  assert (E : Nat.ltb 1 (ratio crc dw) = false) by (apply Nat.ltb_ge; exact Hr).
  unfold cycle, comb_of, step, crc_value. cbn. rewrite E. cbn.
  rewrite andb_false_r. destruct r; reflexivity.
Qed.

(** *** The phases of a packet *)

(** With nothing pending an idle inserter stays idle and silent. *)
Lemma idle_quiet env s :
  fsm crc s = IDLE ->
  released (trace crc dw (s, []) env) = [] /\
  fsm crc (fst (final crc dw (s, []) env)) = IDLE /\
  snd (final crc dw (s, []) env) = [].
Proof.
  revert s. induction env as [|[g r] env IH]; intros s Hs.
  - cbn. auto.
  - rewrite ins_trace_cons, ins_final_cons, ins_released_cons.
    destruct s as [f rg c]. cbn in Hs. subst f.
    rewrite cycle_idle. cbn [fst snd present valid endpoint0].
    apply IH. reflexivity.
Qed.

(** The CRC state with the counter at [c]: the elements for [c], ..., [0]
    leave in that order, one per cycle in which the consumer is ready. *)
Lemma crc_phase_many env rg c :
  (1 < ratio crc dw)%nat -> (c + 1 <= readies env)%nat ->
  released (trace crc dw ({| fsm := CRC; regs := rg; cnt := c |}, []) env) =
    chunks_from crc dw (CRC.value crc rg 0) c /\
  fsm crc (fst (final crc dw ({| fsm := CRC; regs := rg; cnt := c |}, []) env)) = IDLE /\
  snd (final crc dw ({| fsm := CRC; regs := rg; cnt := c |}, []) env) = [].
Proof.
  intros Hr. revert c.
  induction env as [|[g r] env IH]; intros c Hp.
  - cbn in Hp. lia.
  - rewrite readies_cons in Hp.
    rewrite ins_trace_cons, ins_final_cons, ins_released_cons, cycle_crc_many by exact Hr.
    cbn [fst snd]. destruct r.
    + destruct c as [|c'].
      * destruct (idle_quiet env {| fsm := IDLE; regs := rg; cnt := 0 |} eq_refl)
          as (E1 & E2 & E3); unfold beat in *.
        rewrite E1. auto.
      * destruct (IH c') as (E1 & E2 & E3); unfold beat in *.
        { lia. }
        rewrite E1. auto.
    + apply IH. exact Hp.
Qed.

Lemma crc_phase_one env rg c :
  (ratio crc dw <= 1)%nat -> (1 <= readies env)%nat ->
  released (trace crc dw ({| fsm := CRC; regs := rg; cnt := c |}, []) env) =
    [({| data := Z.land (CRC.value crc rg 0) (Z.ones (Z.of_nat dw));
         last_be := 0; error := false |}, true)] /\
  fsm crc (fst (final crc dw ({| fsm := CRC; regs := rg; cnt := c |}, []) env)) = IDLE /\
  snd (final crc dw ({| fsm := CRC; regs := rg; cnt := c |}, []) env) = [].
Proof.
  intros Hr.
  induction env as [|[g r] env IH]; intros Hp.
  - cbn in Hp. lia.
  - rewrite readies_cons in Hp.
    rewrite ins_trace_cons, ins_final_cons, ins_released_cons, cycle_crc_one by exact Hr.
    cbn [fst snd]. destruct r.
    + destruct (idle_quiet env {| fsm := IDLE; regs := rg; cnt := c |} eq_refl)
        as (E1 & E2 & E3); unfold beat in *.
      rewrite E1. auto.
    + apply IH. exact Hp.
Qed.

Lemma crc_beats_length v :
  length (crc_beats crc dw v) = Nat.max (ratio crc dw) 1.
Proof.
  unfold crc_beats. destruct (Nat.ltb_spec 1 (ratio crc dw)) as [H|H].
  - assert (E : forall c, length (chunks_from crc dw v c) = S c).
    { induction c as [|c IHc]; cbn; [reflexivity|]. cbn in IHc. now rewrite IHc. }
    rewrite E. lia.
  - cbn. lia.
Qed.

Lemma crc_phase env rg c :
  (1 < ratio crc dw -> c = ratio crc dw - 1)%nat ->
  (Nat.max (ratio crc dw) 1 <= readies env)%nat ->
  released (trace crc dw ({| fsm := CRC; regs := rg; cnt := c |}, []) env) =
    crc_beats crc dw (CRC.value crc rg 0) /\
  fsm crc (fst (final crc dw ({| fsm := CRC; regs := rg; cnt := c |}, []) env)) = IDLE /\
  snd (final crc dw ({| fsm := CRC; regs := rg; cnt := c |}, []) env) = [].
Proof.
  intros Hc Hp. unfold crc_beats.
  destruct (Nat.ltb_spec 1 (ratio crc dw)) as [H|H].
  - rewrite (Hc H). apply crc_phase_many; [exact H|lia].
  - apply crc_phase_one; [exact H|lia].
Qed.

Lemma present_packet g p ps :
  valid (present g (packet (p :: ps))) = g.
Proof. destruct ps; reflexivity. Qed.

(** The COPY state: the pending packet leaves unchanged with [last]
    cleared, then the CRC follows. *)
Lemma copy_phase env rg c ps :
  ps <> [] ->
  (1 < ratio crc dw -> c = ratio crc dw - 1)%nat ->
  (length ps + Nat.max (ratio crc dw) 1 <= progress env)%nat ->
  released (trace crc dw ({| fsm := COPY; regs := rg; cnt := c |}, packet ps) env) =
    map (fun p => (p, false)) ps ++
    crc_beats crc dw (CRC.value crc (absorb crc rg ps) 0) /\
  fsm crc (fst (final crc dw ({| fsm := COPY; regs := rg; cnt := c |},
                              packet ps) env)) = IDLE /\
  snd (final crc dw ({| fsm := COPY; regs := rg; cnt := c |}, packet ps) env) = [].
Proof.
  intros Hne Hc. revert rg ps Hne.
  induction env as [|[g r] env IH]; intros rg ps Hne Hp.
  - cbn in Hp. lia.
  - rewrite progress_cons in Hp.
    rewrite ins_trace_cons, ins_final_cons, ins_released_cons.
    destruct ps as [|p ps]; [congruence|].
    destruct (g && r) eqn:Egr.
    + apply andb_prop in Egr. destruct Egr as [-> ->].
      destruct ps as [|p' ps].
      * cbn [packet]. rewrite cycle_copy_accept. cbn [fst snd app].
        destruct (crc_phase env (CRC.regs_next crc rg (data p)) c Hc)
          as (E1 & E2 & E3); unfold beat in *.
        { pose proof (progress_le_readies env). cbn in Hp. lia. }
        rewrite E1. cbn. auto.
      * change (packet (p :: p' :: ps)) with ((p, false) :: packet (p' :: ps)).
        rewrite cycle_copy_accept. cbn [fst snd app].
        destruct (IH (CRC.regs_next crc rg (data p)) (p' :: ps))
          as (E1 & E2 & E3); unfold beat in *.
        { discriminate. }
        { cbn [length] in *. lia. }
        rewrite E1. cbn. auto.
    + rewrite cycle_copy_stall.
      * cbn [fst snd app]. apply IH; [discriminate|exact Hp].
      * rewrite present_packet. exact Egr.
Qed.

(** A whole packet, from the idle state. *)
Lemma idle_phase env rg c ps :
  ps <> [] ->
  (S (length ps + Nat.max (ratio crc dw) 1) <= progress env)%nat ->
  released (trace crc dw ({| fsm := IDLE; regs := rg; cnt := c |}, packet ps) env) =
    inserted crc dw ps /\
  fsm crc (fst (final crc dw ({| fsm := IDLE; regs := rg; cnt := c |},
                              packet ps) env)) = IDLE /\
  snd (final crc dw ({| fsm := IDLE; regs := rg; cnt := c |}, packet ps) env) = [].
Proof.
  intros Hne. revert rg c.
  induction env as [|[g r] env IH]; intros rg c Hp.
  - cbn in Hp. lia.
  - rewrite progress_cons in Hp.
    rewrite ins_trace_cons, ins_final_cons, ins_released_cons, cycle_idle.
    cbn [fst snd app].
    destruct ps as [|p ps]; [congruence|].
    rewrite present_packet. destruct g.
    + apply copy_phase; [exact Hne| |destruct r; cbn [andb] in Hp; lia].
      intros H. now replace (Nat.ltb 1 (ratio crc dw)) with true
        by (symmetry; apply Nat.ltb_lt; exact H).
    + apply IH. cbn [andb] in Hp. exact Hp.
Qed.

End WithClass.
End InserterFacts.

Module CheckerFacts.
Import Stream Checker CheckerSpec Env InserterFacts.

#[local] Arguments Checker.ratio : simpl never.
#[local] Arguments Nat.eqb : simpl never.

Lemma chk_released_cons ev tr :
  released (ev :: tr) =
  (if valid (src ev) && rdy ev then [(pl (src ev), last (src ev))] else []) ++
  released tr.
Proof. reflexivity. Qed.

Section WithClass.
Variable crc : CRC.class.
Variable dw : nat.

Lemma chk_trace_cons sp gr env :
  trace crc dw sp (gr :: env) =
  snd (cycle crc dw sp gr) :: trace crc dw (fst (cycle crc dw sp gr)) env.
Proof. reflexivity. Qed.

Lemma chk_final_cons sp gr env :
  final crc dw sp (gr :: env) = final crc dw (fst (cycle crc dw sp gr)) env.
Proof. reflexivity. Qed.

(** *** One cycle *)

(** What a cycle shows while the element [(p, l)] is presented. *)
Lemma cycle_event f r q p l (rest : list beat) g ready :
  snd (cycle crc dw ({| fsm := f; regs := r; fifo := q |}, (p, l) :: rest)
             (g, ready)) =
  {| src := {| valid := g && Nat.eqb (length q) (ratio crc dw);
               last := l;
               pl := {| data := data (SyncFIFO.source_payload q);
                        last_be := last_be (SyncFIFO.source_payload q);
                        Stream.error :=
                          Stream.error p || CRC.error crc r (data p) 0 |} |};
     rdy := ready;
     pulse := g && Nat.eqb (length q) (ratio crc dw) && l
              && CRC.error crc r (data p) 0 |}.
Proof. reflexivity. Qed.

(** The element is accepted while the FIFO fills. *)
Lemma cycle_fill f r q p l (rest : list beat) ready :
  f <> RESET -> (length q < ratio crc dw)%nat ->
  fst (cycle crc dw ({| fsm := f; regs := r; fifo := q |}, (p, l) :: rest)
             (true, ready)) =
  ({| fsm := match f with
             | COPY => if l then RESET else COPY
             | _ => COPY
             end;
      regs := CRC.regs_next crc r (data p);
      fifo := q ++ [(p, l)] |}, rest).
Proof.
  intros Hf Hq.
  assert (E1 : Nat.eqb (length q) (ratio crc dw) = false) by (apply Nat.eqb_neq; lia).
  assert (E2 : Nat.eqb (length q) (ratio crc dw + 1) = false) by (apply Nat.eqb_neq; lia).
  unfold cycle, comb_of, step, SyncFIFO.sync, SyncFIFO.writable,
    SyncFIFO.readable, SyncFIFO.level.
  cbn. rewrite E1, E2. cbn. rewrite andb_false_r.
  destruct f; [congruence| |]; cbn; reflexivity.
Qed.

(** The element is accepted and the oldest one released when the FIFO
    holds [ratio] elements and the consumer is ready. *)
Lemma cycle_shift f r h q p l (rest : list beat) :
  f <> RESET -> length (h :: q) = ratio crc dw ->
  fst (cycle crc dw ({| fsm := f; regs := r; fifo := h :: q |}, (p, l) :: rest)
             (true, true)) =
  ({| fsm := match f with
             | COPY => if l then RESET else COPY
             | _ => COPY
             end;
      regs := CRC.regs_next crc r (data p);
      fifo := q ++ [(p, l)] |}, rest).
Proof.
  intros Hf Hq.
  cbn [length] in Hq.
  assert (E1 : Nat.eqb (S (length q)) (ratio crc dw) = true) by (apply Nat.eqb_eq; lia).
  assert (E2 : Nat.eqb (S (length q)) (ratio crc dw + 1) = false) by (apply Nat.eqb_neq; lia).
  assert (E3 : Nat.eqb (S (length q)) 0 = false) by (apply Nat.eqb_neq; lia).
  unfold cycle, comb_of, step, SyncFIFO.sync, SyncFIFO.writable,
    SyncFIFO.readable, SyncFIFO.level.
  cbn. rewrite ?E1, ?E2, ?E3. cbn. rewrite ?E1, ?E2, ?E3. cbn.
  destruct f; [congruence| |]; cbn; reflexivity.
Qed.

(** Nothing moves when the element is not accepted. *)
Lemma cycle_stall f r q (pending : list beat) g ready :
  f <> RESET ->
  valid (present g pending)
    && (negb (Nat.eqb (length q) (ratio crc dw)) || ready) = false ->
  fst (cycle crc dw ({| fsm := f; regs := r; fifo := q |}, pending) (g, ready)) =
  ({| fsm := f; regs := r; fifo := q |}, pending).
Proof.
  intros Hf H.
  unfold cycle, comb_of, step, SyncFIFO.sync, SyncFIFO.writable,
    SyncFIFO.readable, SyncFIFO.level.
  cbn.
  destruct (valid (present g pending)) eqn:Ev,
           (Nat.eqb (length q) (ratio crc dw)) eqn:Ef, ready;
    cbn in H; try discriminate;
    destruct f; try congruence; cbn; rewrite ?andb_false_r; reflexivity.
Qed.

(** The reset cycle with no element presented. *)
Lemma cycle_reset_gap r q (pending : list beat) ready :
  cycle crc dw ({| fsm := RESET; regs := r; fifo := q |}, pending) (false, ready) =
  ((idle_state crc, pending),
   {| src := source (comb_of crc dw {| fsm := RESET; regs := r; fifo := q |}
                              (present false pending) ready);
      rdy := ready; pulse := false |}).
Proof.
  unfold cycle.
  assert (Ev : valid (present false pending) = false).
  { destruct pending as [|[? ?] ?]; reflexivity. }
  unfold comb_of, step, idle_state, SyncFIFO.sync. rewrite Ev. reflexivity.
Qed.

(** *** Runs *)

(** With nothing pending the checker shows nothing. *)
Lemma quiet env s :
  Forall (fun ev => valid (src ev) = false /\ pulse ev = false)
         (trace crc dw (s, []) env).
Proof.
  revert s. induction env as [|[g ready] env IH]; intros s; [constructor|].
  rewrite chk_trace_cons. constructor.
  - unfold cycle, comb_of. cbn. auto.
  - unfold cycle at 1. cbn [fst snd present valid endpoint0 andb]. apply IH.
Qed.

Lemma silent_released tr :
  Forall (fun ev => valid (src ev) = false /\ pulse ev = false) tr ->
  released tr = [].
Proof.
  induction 1 as [|ev tr [Hv _] _ IH]; [reflexivity|].
  rewrite chk_released_cons, Hv, IH. reflexivity.
Qed.

Lemma silent_pulses tr b :
  Forall (fun ev => valid (src ev) = false /\ pulse ev = false) tr ->
  Forall (fun ev => pulse ev = valid (src ev) && last (src ev) && b) tr.
Proof.
  apply Forall_impl. intros ev [Hv Hp]. now rewrite Hv, Hp.
Qed.

Lemma silent_valid tr :
  Forall (fun ev => valid (src ev) = false /\ pulse ev = false) tr ->
  Forall (fun ev => valid (src ev) = false) tr.
Proof. apply Forall_impl. now intros ev [Hv _]. Qed.

(** The state a packet leaves behind is never [RESET] before its final
    element. *)
Lemma next_fsm_not_reset f l (rest : list beat) e :
  last_only ((e, l) :: rest) -> rest <> [] ->
  match f with COPY => if l then RESET else COPY | _ => COPY end <> RESET.
Proof.
  intros Hl Hne. destruct rest as [|e' rest]; [congruence|].
  cbn in Hl. destruct Hl as [-> _]. destruct f; discriminate.
Qed.

Lemma last_only_tail e (rest : list beat) :
  last_only (e :: rest) -> last_only rest.
Proof. destruct rest as [|e' rest]; cbn; [trivial|now intros [_ H]]. Qed.

Lemma final_bad_tail r e e' (rest : list beat) :
  final_bad crc r (e :: e' :: rest) =
  final_bad crc (CRC.regs_next crc r (data (fst e))) (e' :: rest).
Proof. reflexivity. Qed.

(** A packet through the checker, from a state in which [q] is staged and
    [rest] is still to come: what is released, when [self.error] is
    asserted, and that nothing is shown while the packet fits the FIFO. *)
Lemma run env f r q (rest : list beat) :
  f <> RESET -> (1 <= ratio crc dw)%nat -> (length q <= ratio crc dw)%nat ->
  last_only rest ->
  ((length rest <= progress env)%nat ->
   released (trace crc dw ({| fsm := f; regs := r; fifo := q |}, rest) env) =
   expect crc dw r q rest) /\
  Forall (fun ev => pulse ev = valid (src ev) && last (src ev)
                               && final_bad crc r rest)
         (trace crc dw ({| fsm := f; regs := r; fifo := q |}, rest) env) /\
  ((length q + length rest <= ratio crc dw)%nat ->
   Forall (fun ev => valid (src ev) = false)
          (trace crc dw ({| fsm := f; regs := r; fifo := q |}, rest) env)).
Proof.
  intros Hf Hr. revert f r q rest Hf.
  induction env as [|[g ready] env IH]; intros f r q rest Hf Hq Hl.
  - cbn. repeat split; try constructor.
    intros H. destruct rest; [reflexivity|cbn in H; lia].
  - destruct rest as [|[p l] rest].
    { pose proof (quiet (((g, ready)) :: env) {| fsm := f; regs := r; fifo := q |}) as Q.
      repeat split; intros;
        [now apply silent_released|now apply silent_pulses|now apply silent_valid]. }
    rewrite chk_trace_cons, cycle_event, progress_cons.
    (* the continuation after the element is accepted *)
    assert (K : forall f' q',
              f' = match f with COPY => if l then RESET else COPY | _ => COPY end ->
              (length q' <= ratio crc dw)%nat ->
              let tr := trace crc dw ({| fsm := f';
                                         regs := CRC.regs_next crc r (data p);
                                         fifo := q' |}, rest) env in
              ((length rest <= progress env)%nat ->
               released tr = expect crc dw (CRC.regs_next crc r (data p)) q' rest) /\
              Forall (fun ev => pulse ev = valid (src ev) && last (src ev)
                                && final_bad crc r ((p, l) :: rest)) tr /\
              ((length q' + length rest <= ratio crc dw)%nat ->
               Forall (fun ev => valid (src ev) = false) tr)).
    { intros f' q' -> Hq'. cbn zeta. destruct rest as [|e' rest'].
      - pose proof (quiet env {| fsm := match f with
                                        | COPY => if l then RESET else COPY
                                        | _ => COPY end;
                                 regs := CRC.regs_next crc r (data p);
                                 fifo := q' |}) as Q.
        repeat split; intros;
          [now apply silent_released|now apply silent_pulses|now apply silent_valid].
      - rewrite final_bad_tail. apply IH; trivial.
        + eapply next_fsm_not_reset; [exact Hl|discriminate].
        + eapply last_only_tail. exact Hl. }
    assert (Hpl : forall b, b && l && CRC.error crc r (data p) 0 =
                            b && l && final_bad crc r ((p, l) :: rest)).
    { intros b. destruct l; [|now rewrite !andb_false_r].
      destruct rest as [|e' rest']; [reflexivity|].
      cbn in Hl. destruct Hl as [Hl _]. cbn in Hl. discriminate. }
    destruct g.
    + destruct (Nat.eqb (length q) (ratio crc dw)) eqn:Ef.
      * apply Nat.eqb_eq in Ef. destruct ready.
        -- (* released and accepted *)
           destruct q as [|h q0]; [cbn in Ef; lia|].
           rewrite cycle_shift by trivial.
           destruct (K (match f with COPY => if l then RESET else COPY | _ => COPY end)
                       (q0 ++ [(p, l)]) eq_refl) as (K1 & K2 & K3).
           { rewrite length_app. cbn in *. lia. }
           repeat split.
           ++ intros Hp. rewrite chk_released_cons. cbn [src valid rdy andb pl last].
              rewrite K1 by (cbn in Hp; lia).
              cbn [expect]. replace (Nat.eqb (length (h :: q0)) (ratio crc dw)) with true
                by (symmetry; apply Nat.eqb_eq; exact Ef).
              reflexivity.
           ++ constructor; [|exact K2]. cbn [pulse src valid last]. apply Hpl.
           ++ intros H. cbn in H, Ef. lia.
        -- (* shown but not taken *)
           rewrite cycle_stall.
           2: exact Hf.
           2:{ cbn [present valid]. replace (Nat.eqb (length q) (ratio crc dw)) with true
                 by (symmetry; apply Nat.eqb_eq; exact Ef). reflexivity. }
           destruct (IH f r q ((p, l) :: rest) Hf Hq Hl) as (I1 & I2 & I3).
           repeat split.
           ++ intros Hp. rewrite chk_released_cons. cbn [src valid rdy andb].
              rewrite ?andb_false_r. cbn [app]. apply I1. cbn in Hp. exact Hp.
           ++ constructor; [|exact I2]. cbn [pulse src valid last]. apply Hpl.
           ++ intros H. cbn in H. lia.
      * (* accepted into the FIFO *)
        apply Nat.eqb_neq in Ef.
        rewrite cycle_fill by (trivial; lia).
        destruct (K (match f with COPY => if l then RESET else COPY | _ => COPY end)
                    (q ++ [(p, l)]) eq_refl) as (K1 & K2 & K3).
        { rewrite length_app. cbn. lia. }
        repeat split.
        -- intros Hp. rewrite chk_released_cons. cbn [src valid rdy andb app].
           rewrite K1 by (destruct ready; cbn in Hp; lia).
           cbn [expect]. replace (Nat.eqb (length q) (ratio crc dw)) with false
             by (symmetry; apply Nat.eqb_neq; exact Ef).
           reflexivity.
        -- constructor; [|exact K2]. cbn [pulse src valid last]. apply Hpl.
        -- intros H. constructor; [reflexivity|]. apply K3.
           rewrite length_app. cbn in *. lia.
    + (* nothing presented *)
      rewrite cycle_stall by (trivial; reflexivity).
      destruct (IH f r q ((p, l) :: rest) Hf Hq Hl) as (I1 & I2 & I3).
      repeat split.
      * intros Hp. rewrite chk_released_cons. cbn [src valid rdy andb app].
        apply I1. cbn in Hp. exact Hp.
      * constructor; [|exact I2]. reflexivity.
      * intros H. constructor; [reflexivity|]. apply I3. exact H.
Qed.

End WithClass.
End CheckerFacts.

Module ExpectFacts.
Import Stream Checker CheckerSpec.

#[local] Arguments Checker.ratio : simpl never.
#[local] Arguments Nat.eqb : simpl never.

Section WithClass.
Variable crc : CRC.class.
Variable dw : nat.
Hypothesis ratio_pos : (1 <= ratio crc dw)%nat.

Lemma expect_full r h q e (rest : list beat) :
  length (h :: q) = ratio crc dw ->
  expect crc dw r (h :: q) (e :: rest) =
  release crc r h e ::
  expect crc dw (CRC.regs_next crc r (data (fst e))) (q ++ [e]) rest.
Proof.
  intros H. cbn [expect].
  now replace (Nat.eqb (length (h :: q)) (ratio crc dw)) with true
    by (symmetry; apply Nat.eqb_eq; exact H).
Qed.

Lemma expect_fill r q e (rest : list beat) :
  (length q < ratio crc dw)%nat ->
  expect crc dw r q (e :: rest) =
  expect crc dw (CRC.regs_next crc r (data (fst e))) (q ++ [e]) rest.
Proof.
  intros H. cbn [expect].
  now replace (Nat.eqb (length q) (ratio crc dw)) with false
    by (symmetry; apply Nat.eqb_neq; lia).
Qed.

(** The released elements carry the data and [last_be] of the elements
    that entered [ratio] places earlier. *)
Lemma expect_payload r q (rest : list beat) :
  (length q <= ratio crc dw)%nat ->
  map (fun b => (data (fst b), last_be (fst b))) (expect crc dw r q rest) =
  map (fun b => (data (fst b), last_be (fst b)))
      (firstn (length q + length rest - ratio crc dw) (q ++ rest)).
Proof.
  revert r q. induction rest as [|e rest IH]; intros r q Hq.
  - cbn [expect map length]. now replace (length q + 0 - ratio crc dw)%nat with 0%nat by lia.
  - destruct (Nat.eq_dec (length q) (ratio crc dw)) as [E|E].
    + destruct q as [|h q]; [cbn in E; lia|].
      rewrite expect_full by exact E. cbn [map]. rewrite IH by (rewrite length_app; cbn in *; lia).
      rewrite length_app. cbn [length] in *.
      replace (S (length q) + S (length rest) - ratio crc dw)%nat
        with (S (length rest)) by lia.
      replace (length q + 1 + length rest - ratio crc dw)%nat
        with (length rest) by lia.
      cbn [app firstn map fst]. rewrite <- app_assoc. reflexivity.
    + rewrite expect_fill by lia. rewrite IH by (rewrite length_app; cbn; lia).
      rewrite length_app, <- app_assoc. cbn [length app].
      now replace (length q + 1 + length rest)%nat with (length q + S (length rest))%nat by lia.
Qed.

(** They carry the [last] flags of the elements accepted meanwhile. *)
Lemma expect_last r q (rest : list beat) :
  (length q <= ratio crc dw)%nat ->
  map snd (expect crc dw r q rest) =
  map snd (skipn (ratio crc dw - length q) rest).
Proof.
  revert r q. induction rest as [|e rest IH]; intros r q Hq.
  - now rewrite skipn_nil.
  - destruct (Nat.eq_dec (length q) (ratio crc dw)) as [E|E].
    + destruct q as [|h q]; [cbn in E; lia|].
      rewrite expect_full by exact E. cbn [map]. rewrite IH by (rewrite length_app; cbn in *; lia).
      rewrite length_app. cbn [length] in *.
      replace (ratio crc dw - S (length q))%nat with 0%nat by lia.
      replace (ratio crc dw - (length q + 1))%nat with 0%nat by lia.
      reflexivity.
    + rewrite expect_fill by lia. rewrite IH by (rewrite length_app; cbn; lia).
      rewrite length_app. cbn [length].
      replace (ratio crc dw - length q)%nat with (S (ratio crc dw - (length q + 1))) by lia.
      reflexivity.
Qed.

(** The final released element carries the residue check of the whole
    packet. *)
Lemma expect_final r q (front : list beat) e :
  (length q <= ratio crc dw)%nat ->
  (ratio crc dw <= length q + length front)%nat ->
  exists pre h,
    expect crc dw r q (front ++ [e]) =
    pre ++ [release crc (absorb crc r front) h e].
Proof.
  revert r q. induction front as [|x front IH]; intros r q Hq Hn.
  - cbn [length] in Hn. destruct q as [|h q]; [cbn in *; lia|].
    exists [], h. cbn [app]. rewrite expect_full by (cbn in *; lia). reflexivity.
  - cbn [app]. destruct (Nat.eq_dec (length q) (ratio crc dw)) as [E|E].
    + destruct q as [|h q]; [cbn in E; lia|].
      rewrite expect_full by exact E.
      destruct (IH (CRC.regs_next crc r (data (fst x))) (q ++ [x])) as (pre & h' & Ex).
      { rewrite length_app. cbn in *. lia. }
      { rewrite length_app. cbn in *. lia. }
      rewrite Ex. exists (release crc r h x :: pre), h'. reflexivity.
    + rewrite expect_fill by lia.
      destruct (IH (CRC.regs_next crc r (data (fst x))) (q ++ [x])) as (pre & h' & Ex).
      { rewrite length_app. cbn in *. lia. }
      { rewrite length_app. cbn in *. lia. }
      rewrite Ex. exists pre, h'. reflexivity.
Qed.

Lemma final_bad_snoc r (front : list beat) e :
  final_bad crc r (front ++ [e]) =
  CRC.error crc (absorb crc r front) (data (fst e)) 0.
Proof.
  revert r. induction front as [|x front IH]; intros r; [reflexivity|].
  cbn [app]. destruct front as [|y front].
  - reflexivity.
  - cbn [app] in *. change (final_bad crc r (x :: y :: front ++ [e])) with (final_bad crc (CRC.regs_next crc r (data (fst x))) (y :: front ++ [e])). apply IH.
Qed.

End WithClass.
End ExpectFacts.

Module ByteWide.
Import Stream EngineSem Instances BitFacts LfsrFacts CRC32Facts ResidueFacts.

Lemma width_pos : (1 <= CRC32.width)%nat.
Proof. unfold CRC32.width. lia. Qed.

Lemma init_range : in_range CRC32.width CRC32.init.
Proof. unfold in_range, CRC32.init, CRC32.width. cbn. lia. Qed.

Lemma seq_offset k n : seq k n = map (fun b => (k + b)%nat) (seq 0 n).
Proof.
  revert k. induction n as [|n IH]; intros k; [reflexivity|].
  cbn [seq map]. rewrite Nat.add_0_r. f_equal.
  rewrite (IH (S k)), (IH 1%nat), map_map.
  apply map_ext. intros b. lia.
Qed.

Section Unit8.
Variable u : CRC32.unit.
Hypothesis Hu : CRC32.LiteEthMACCRC32 8 = Some u.

Lemma dw_one : CRC32.dw u = 1%nat.
Proof. destruct (built_inv 8 u Hu) as (_ & E & _). exact E. Qed.

Lemma regs_reset_ok : regs_ok (CRC32.regs_reset u).
Proof.
  exists CRC32.init. unfold CRC32.regs_reset. rewrite dw_one.
  split; [reflexivity|apply init_range].
Qed.

Lemma regs_next_byte r d :
  in_range CRC32.width r ->
  CRC32.regs_next u [r] d =
  [Engine.lfsr_feed CRC32.width CRC32.polynom r (Engine.data_bits 8 d)].
Proof.
  intros Hr. unfold CRC32.regs_next. rewrite dw_one. cbn [seq map].
  rewrite (engine_next_serial 8 u [r] d 0 Hu) by (rewrite ?dw_one; trivial; lia).
  reflexivity.
Qed.

Lemma regs_next_ok R d : regs_ok R -> regs_ok (CRC32.regs_next u R d).
Proof.
  intros (r & -> & Hr). rewrite regs_next_byte by exact Hr.
  eexists. split; [reflexivity|].
  apply lfsr_feed_range; [apply width_pos|exact Hr].
Qed.

Lemma value_byte r :
  CRC32.value u [r] 0 = CRC32.invert CRC32.width (CRC32.reverse_bits CRC32.width r).
Proof.
  unfold CRC32.value.
  rewrite (outputs_lane u [r] 0 0) by (rewrite dw_one; cbn; lia).
  unfold CRC32Spec.selected_lane. rewrite dw_one. reflexivity.
Qed.

Lemma error_byte r d :
  in_range CRC32.width r ->
  CRC32.error u [r] d 0 =
  negb (Engine.lfsr_feed CRC32.width CRC32.polynom r (Engine.data_bits 8 d)
        =? CRC32.check).
Proof.
  intros Hr. unfold CRC32.error.
  rewrite (outputs_lane u [r] d 0) by (rewrite dw_one; cbn; lia).
  unfold CRC32Spec.selected_lane. rewrite dw_one. cbn [snd Z.eqb Nat.sub].
  rewrite (engine_next_serial 8 u [r] d 0 Hu) by (rewrite ?dw_one; trivial; lia).
  reflexivity.
Qed.

(** The bits of byte [i] of the visible value. *)
Lemma slice_bits v (i : nat) :
  Engine.data_bits 8 (Migen.slice v (i * 8) ((i + 1) * 8)) =
  map (fun j => Z.testbit v (Z.of_nat j)) (seq (i * 8) 8).
Proof.
  unfold Engine.data_bits, Migen.slice.
  replace ((i + 1) * 8 - i * 8)%nat with 8%nat by lia.
  rewrite (seq_offset (i * 8)), map_map.
  apply map_ext_in. intros b Hb. apply in_seq in Hb.
  rewrite Z.land_spec, Z.shiftr_spec, testbit_ones_low by lia.
  rewrite andb_true_r. f_equal. lia.
Qed.

(** Bit [j] of the visible value is the complement of bit [31 - j] of
    the register. *)
Lemma value_bits r :
  map (fun j => Z.testbit (CRC32.value u [r] 0) (Z.of_nat j)) (seq 0 32) =
  map (fun i => negb (Z.testbit r (Z.of_nat (CRC32.width - 1 - i))))
      (seq 0 CRC32.width).
Proof.
  rewrite value_byte. change CRC32.width with 32%nat.
  apply map_ext_in. intros j Hj. apply in_seq in Hj.
  rewrite invert_testbit, reverse_bits_testbit by lia. reflexivity.
Qed.

Lemma feed_app s a b :
  Engine.lfsr_feed CRC32.width CRC32.polynom
    (Engine.lfsr_feed CRC32.width CRC32.polynom s a) b =
  Engine.lfsr_feed CRC32.width CRC32.polynom s (a ++ b).
Proof. unfold Engine.lfsr_feed. now rewrite fold_left_app. Qed.

(** The residue check passes once the four bytes of the visible value,
    low byte first, have followed the packet. *)
Lemma residue_byte r :
  in_range CRC32.width r ->
  let v := CRC32.value u [r] 0 in
  CRC32.error u
    (CRC32.regs_next u
       (CRC32.regs_next u
          (CRC32.regs_next u [r] (Migen.slice v (0 * 8) ((0 + 1) * 8)))
          (Migen.slice v (1 * 8) ((1 + 1) * 8)))
       (Migen.slice v (2 * 8) ((2 + 1) * 8)))
    (Migen.slice v (3 * 8) ((3 + 1) * 8)) 0 = false.
Proof.
  intros Hr v.
  pose proof width_pos as Hw.
  rewrite (regs_next_byte r) by exact Hr.
  rewrite regs_next_byte by (apply lfsr_feed_range; trivial).
  rewrite regs_next_byte by (repeat apply lfsr_feed_range; trivial).
  rewrite error_byte by (repeat apply lfsr_feed_range; trivial).
  rewrite !feed_app, !slice_bits, <- !map_app.
  replace (seq (0 * 8) 8 ++ seq (1 * 8) 8 ++ seq (2 * 8) 8 ++ seq (3 * 8) 8)
    with (seq 0 32) by reflexivity.
  unfold v. rewrite value_bits.
  rewrite (residue_constant CRC32.width CRC32.polynom Hw r Hr), residue_crc32.
  now rewrite Z.eqb_refl.
Qed.

End Unit8.
End ByteWide.

Module RoundTripFacts.
Import Stream EngineSem Instances Env ByteWide.

Lemma skipn_repeat {A} (x : A) k m (l : list A) :
  (k <= m)%nat -> skipn k (repeat x m ++ l) = repeat x (m - k) ++ l.
Proof.
  revert m. induction k as [|k IH]; intros m Hk.
  - now rewrite Nat.sub_0_r.
  - destruct m as [|m]; [lia|]. cbn [repeat app skipn]. rewrite IH by lia.
    reflexivity.
Qed.

Lemma packet_last ps :
  ps <> [] -> map snd (packet ps) = repeat false (length ps - 1) ++ [true].
Proof.
  induction ps as [|p ps IH]; [congruence|]. intros _.
  destruct ps as [|p' ps]; [reflexivity|].
  change (packet (p :: p' :: ps)) with ((p, false) :: packet (p' :: ps)).
  cbn [map snd]. rewrite IH by discriminate. cbn [length].
  replace (S (S (length ps)) - 1)%nat with (S (S (length ps) - 1)) by lia.
  reflexivity.
Qed.

Lemma plain_last (ps : list payload) :
  map snd (map (fun p => (p, false)) ps) = repeat false (length ps).
Proof. induction ps as [|p ps IH]; [reflexivity|]. cbn. now rewrite IH. Qed.

Lemma last_only_app (ps : list payload) (l : list beat) :
  l <> [] -> CheckerSpec.last_only l ->
  CheckerSpec.last_only (map (fun p => (p, false)) ps ++ l).
Proof.
  intros Hne Hl. induction ps as [|p ps IH]; [exact Hl|].
  cbn [map app]. destruct (map (fun p => (p, false)) ps ++ l) eqn:E.
  - apply app_eq_nil in E. destruct E as [_ E]. contradiction.
  - cbn [CheckerSpec.last_only]. split; [reflexivity|exact IH].
Qed.

Section WithClass.
Variable crc : CRC.class.

Lemma absorb_plain r (ps : list payload) :
  CheckerSpec.absorb crc r (map (fun p => (p, false)) ps) =
  InserterSpec.absorb crc r ps.
Proof.
  revert r. induction ps as [|p ps IH]; intros r; [reflexivity|].
  cbn. apply IH.
Qed.

Lemma absorb_app r (a b : list beat) :
  CheckerSpec.absorb crc r (a ++ b) =
  CheckerSpec.absorb crc (CheckerSpec.absorb crc r a) b.
Proof. unfold CheckerSpec.absorb. apply fold_left_app. Qed.

End WithClass.

Section Unit8.
Variable u : CRC32.unit.
Hypothesis Hu : CRC32.LiteEthMACCRC32 8 = Some u.

Lemma absorb_ok R (ps : list payload) :
  regs_ok R -> regs_ok (InserterSpec.absorb (CRC.of_crc32 u) R ps).
Proof.
  revert R. induction ps as [|p ps IH]; intros R HR; [exact HR|].
  cbn. apply IH. now apply (regs_next_ok u Hu).
Qed.

(** The four elements the inserter appends: the bytes of the visible
    value, low byte first, [last] on the fourth. *)
Lemma crc_beats_byte v :
  InserterSpec.crc_beats (CRC.of_crc32 u) 8 v =
  [(byte (Migen.slice v (0 * 8) ((0 + 1) * 8)), false);
   (byte (Migen.slice v (1 * 8) ((1 + 1) * 8)), false);
   (byte (Migen.slice v (2 * 8) ((2 + 1) * 8)), false);
   (byte (Migen.slice v (3 * 8) ((3 + 1) * 8)), true)].
Proof. reflexivity. Qed.

Lemma inserted_residue (ps : list payload) :
  CheckerSpec.final_bad (CRC.of_crc32 u) (CRC.regs_reset (CRC.of_crc32 u))
    (InserterSpec.inserted (CRC.of_crc32 u) 8 ps) = false.
Proof.
  unfold InserterSpec.inserted. rewrite crc_beats_byte.
  destruct (absorb_ok (CRC32.regs_reset u) ps (regs_reset_ok u Hu)) as (r & Er & Hr).
  set (crc := CRC.of_crc32 u) in *.
  change (CRC.regs_reset crc) with (CRC32.regs_reset u).
  rewrite Er.
  change (CRC.value crc [r] 0) with (CRC32.value u [r] 0).
  set (v := CRC32.value u [r] 0).
  change [(byte (Migen.slice v (0 * 8) ((0 + 1) * 8)), false);
          (byte (Migen.slice v (1 * 8) ((1 + 1) * 8)), false);
          (byte (Migen.slice v (2 * 8) ((2 + 1) * 8)), false);
          (byte (Migen.slice v (3 * 8) ((3 + 1) * 8)), true)]
    with ([(byte (Migen.slice v (0 * 8) ((0 + 1) * 8)), false);
           (byte (Migen.slice v (1 * 8) ((1 + 1) * 8)), false);
           (byte (Migen.slice v (2 * 8) ((2 + 1) * 8)), false)] ++
          [(byte (Migen.slice v (3 * 8) ((3 + 1) * 8)), true)]).
  rewrite app_assoc, ExpectFacts.final_bad_snoc, absorb_app, absorb_plain.
  fold crc. rewrite Er.
  apply (residue_byte u Hu r Hr).
Qed.

Lemma inserted_last_only (ps : list payload) :
  CheckerSpec.last_only (InserterSpec.inserted (CRC.of_crc32 u) 8 ps).
Proof.
  unfold InserterSpec.inserted. rewrite crc_beats_byte.
  apply last_only_app; [discriminate|]. cbn. auto.
Qed.

Lemma inserted_length (ps : list payload) :
  length (InserterSpec.inserted (CRC.of_crc32 u) 8 ps) = (length ps + 4)%nat.
Proof.
  unfold InserterSpec.inserted. rewrite crc_beats_byte, length_app, length_map.
  reflexivity.
Qed.

End Unit8.
End RoundTripFacts.

Module CheckerInvariant.
Import Stream Checker CheckerSpec CheckerFacts.

#[local] Arguments Checker.ratio : simpl never.
#[local] Arguments Nat.eqb : simpl never.

Lemma skipn_S_tl {A} k (l : list A) : skipn (S k) l = tl (skipn k l).
Proof.
  revert l. induction k as [|k IH]; intros l.
  - now destruct l.
  - destruct l as [|a l]; [reflexivity|]. cbn [skipn] in *. apply IH.
Qed.

Lemma fsm_state_is_reset f : f = RESET \/ f <> RESET.
Proof. destruct f; [left; reflexivity|right; discriminate|right; discriminate]. Qed.

Section WithClass.
Variable crc : CRC.class.
Variable dw : nat.
Hypothesis ratio_pos : (1 <= ratio crc dw)%nat.

(** A step on any inputs is a cycle that presents one element. *)
Lemma step_as_cycle s sink ready :
  step crc dw s sink ready =
  fst (fst (cycle crc dw (s, [(pl sink, last sink)]) (valid sink, ready))).
Proof. destruct sink. reflexivity. Qed.

Lemma accept_as_cycle f r q sink ready :
  valid sink && sink_ready (comb_of crc dw {| fsm := f; regs := r; fifo := q |}
                                    sink ready) =
  valid sink && (negb (Nat.eqb (length q) (ratio crc dw)) || ready).
Proof.
  unfold comb_of. cbn. unfold SyncFIFO.level.
  destruct (valid sink), (Nat.eqb (length q) (ratio crc dw)), ready; reflexivity.
Qed.

(** The FIFO holds the last [ratio] accepted elements, the unit has taken
    all of them in. *)
Lemma reach_inv s h :
  reach crc dw s h ->
  fifo crc s = skipn (length h - ratio crc dw) h /\
  regs crc s = absorb crc (CRC.regs_reset crc) h.
Proof.
  induction 1 as [|s h sink ready Hreach [IHq IHr]].
  - split; reflexivity.
  - destruct s as [f r q]. cbn [fifo regs] in IHq, IHr.
    assert (Hlen : length q = Nat.min (length h) (ratio crc dw)).
    { rewrite IHq, length_skipn. lia. }
    unfold history. cbn [fsm].
    destruct (fsm_state_is_reset f) as [->|Hf].
    { split; reflexivity. }
    replace (match f with RESET => [] | _ =>
               if valid sink && sink_ready (comb_of crc dw
                    {| fsm := f; regs := r; fifo := q |} sink ready)
               then h ++ [(pl sink, last sink)] else h end)
      with (if valid sink && sink_ready (comb_of crc dw
                    {| fsm := f; regs := r; fifo := q |} sink ready)
            then h ++ [(pl sink, last sink)] else h)
      by (destruct f; congruence).
    rewrite accept_as_cycle, step_as_cycle.
    destruct (valid sink) eqn:Ev.
    + destruct (Nat.eqb (length q) (ratio crc dw)) eqn:Ef.
      * apply Nat.eqb_eq in Ef. destruct ready; cbn [negb orb andb].
        -- destruct q as [|x q']; [cbn in Ef; lia|].
           rewrite cycle_shift by trivial. cbn [fst fifo regs].
           split.
           ++ rewrite length_app. cbn [length] in *.
              replace (length h + 1 - ratio crc dw)%nat
                with (S (length h - ratio crc dw)) by lia.
              rewrite skipn_app, skipn_S_tl, <- IHq. cbn [tl].
              replace (S (length h - ratio crc dw) - length h)%nat with 0%nat by lia.
              reflexivity.
           ++ rewrite IHr. unfold absorb. now rewrite fold_left_app.
        -- rewrite cycle_stall; trivial.
           ++ split; assumption.
           ++ cbn [present valid]. replace (Nat.eqb (length q) (ratio crc dw)) with true
                by (symmetry; apply Nat.eqb_eq; exact Ef). reflexivity.
      * apply Nat.eqb_neq in Ef. cbn [negb orb andb].
        rewrite cycle_fill by (trivial; lia). cbn [fst fifo regs].
        split.
        -- rewrite length_app. cbn [length].
           replace (length h + 1 - ratio crc dw)%nat with 0%nat by lia.
           replace (length h - ratio crc dw)%nat with 0%nat in IHq by lia.
           cbn [skipn] in *. now rewrite IHq.
        -- rewrite IHr. unfold absorb. now rewrite fold_left_app.
    + cbn [andb]. rewrite cycle_stall; trivial. split; assumption.
Qed.

End WithClass.
End CheckerInvariant.

Module PulseFacts.
Import Stream Checker CheckerSpec CheckerFacts Env.

#[local] Arguments Checker.ratio : simpl never.
#[local] Arguments Nat.eqb : simpl never.

Lemma count_last tr :
  Forall (fun ev => rdy ev = true) tr ->
  length (filter (fun ev => valid (src ev) && last (src ev)) tr) =
  length (filter (fun b : bool => b) (map snd (released tr))).
Proof.
  induction 1 as [|ev tr Hr _ IH]; [reflexivity|].
  rewrite chk_released_cons, Hr, andb_true_r. cbn [filter].
  destruct (valid (src ev)); cbn [andb app map filter snd].
  - destruct (last (src ev)); cbn [length]; now rewrite IH.
  - exact IH.
Qed.

Lemma last_only_skipn k (l : list beat) : last_only l -> last_only (skipn k l).
Proof.
  revert l. induction k as [|k IH]; intros l Hl; [exact Hl|].
  destruct l as [|e l]; [exact I|]. cbn [skipn]. apply IH.
  eapply last_only_tail. exact Hl.
Qed.

Lemma last_only_count (l : list beat) :
  last_only l -> l <> [] ->
  length (filter (fun b : bool => b) (map snd l)) = 1%nat.
Proof.
  induction l as [|e l IH]; [congruence|]. intros Hl _.
  destruct l as [|e' l].
  - cbn in Hl. cbn. now rewrite Hl.
  - destruct Hl as [He Hl]. cbn [map filter]. rewrite He.
    apply IH; [exact Hl|discriminate].
Qed.

Lemma pulses_law tr b :
  Forall (fun ev => pulse ev = valid (src ev) && last (src ev) && b) tr ->
  pulses tr =
  if b then length (filter (fun ev => valid (src ev) && last (src ev)) tr)
  else 0%nat.
Proof.
  unfold pulses. induction 1 as [|ev tr Hp _ IH]; [now destruct b|].
  cbn [filter]. rewrite Hp. destruct b.
  - rewrite andb_true_r.
    destruct (valid (src ev) && last (src ev)); cbn [length]; now rewrite IH.
  - rewrite andb_false_r. exact IH.
Qed.

Section WithClass.
Variable crc : CRC.class.
Variable dw : nat.

Lemma trace_rdy sp env :
  Forall (fun gr : bool * bool => snd gr = true) env ->
  Forall (fun ev => rdy ev = true) (trace crc dw sp env).
Proof.
  intros H. revert sp. induction H as [|[g r] env Hr _ IH]; intros [s pending].
  - constructor.
  - rewrite chk_trace_cons. constructor; [exact Hr|apply IH].
Qed.

(** With a consumer that is always ready, [self.error] is asserted in one
    cycle of a packet whose residue check fails and in none otherwise. *)
Lemma pulses_ready f r (rest : list beat) env :
  f <> RESET -> (1 <= ratio crc dw)%nat ->
  last_only rest -> (ratio crc dw < length rest)%nat ->
  Forall (fun gr : bool * bool => snd gr = true) env ->
  (length rest <= progress env)%nat ->
  pulses (trace crc dw ({| fsm := f; regs := r; fifo := [] |}, rest) env) =
  if final_bad crc r rest then 1%nat else 0%nat.
Proof.
  intros Hf Hr Hl Hn Henv Hp.
  destruct (run crc dw env f r [] rest Hf Hr ltac:(cbn; lia) Hl) as (R1 & R2 & _).
  rewrite (pulses_law _ _ R2).
  destruct (final_bad crc r rest); [|reflexivity].
  rewrite count_last by (apply trace_rdy; exact Henv).
  rewrite R1 by exact Hp.
  rewrite (ExpectFacts.expect_last crc dw Hr) by (cbn; lia).
  apply last_only_count.
  - apply last_only_skipn. exact Hl.
  - intros E. apply (f_equal (@length _)) in E.
    rewrite length_skipn in E. cbn in E. lia.
Qed.

End WithClass.
End PulseFacts.

Module RoundTrip.
Import Stream EngineSem Instances Env ByteWide RoundTripFacts.

#[local] Arguments Checker.ratio : simpl never.
#[local] Arguments Inserter.ratio : simpl never.
#[local] Arguments Nat.eqb : simpl never.

Section WithClass.
Variable crc : CRC.class.
Variable dw : nat.

(** A packet through the checker from reset, the producer idle during the
    reset cycle. *)
Lemma checker_from_reset (rest : list beat) r0 env :
  (1 <= Checker.ratio crc dw)%nat -> CheckerSpec.last_only rest ->
  ((length rest <= progress env)%nat ->
   Checker.released (Checker.trace crc dw (Checker.reset_state crc, rest)
                                   ((false, r0) :: env)) =
   CheckerSpec.expect crc dw (CRC.regs_reset crc) [] rest) /\
  Forall (fun ev => Checker.pulse ev =
                    valid (Checker.src ev) && last (Checker.src ev)
                    && CheckerSpec.final_bad crc (CRC.regs_reset crc) rest)
         (Checker.trace crc dw (Checker.reset_state crc, rest)
                        ((false, r0) :: env)) /\
  ((length rest <= Checker.ratio crc dw)%nat ->
   Forall (fun ev => valid (Checker.src ev) = false)
          (Checker.trace crc dw (Checker.reset_state crc, rest)
                         ((false, r0) :: env))).
Proof.
  intros Hr Hl.
  rewrite CheckerFacts.chk_trace_cons. unfold Checker.reset_state.
  rewrite CheckerFacts.cycle_reset_gap. cbn [fst snd].
  assert (Hv : valid (Checker.source
                        (Checker.comb_of crc dw
                           {| Checker.fsm := Checker.RESET;
                              Checker.regs := CRC.regs_reset crc;
                              Checker.fifo := [] |}
                           (present false rest) r0)) = false).
  { destruct rest as [|[? ?] ?]; reflexivity. }
  destruct (CheckerFacts.run crc dw env Checker.IDLE (CRC.regs_reset crc) [] rest)
    as (R1 & R2 & R3); trivial; [discriminate|cbn; lia|].
  repeat split.
  - intros Hp. rewrite CheckerFacts.chk_released_cons. cbn [Checker.src Checker.rdy].
    rewrite Hv. cbn [andb app]. apply R1. exact Hp.
  - constructor; [|exact R2]. cbn [Checker.pulse Checker.src]. now rewrite Hv.
  - intros Hn. constructor; [exact Hv|]. apply R3. cbn. exact Hn.
Qed.

End WithClass.

Section Unit8.
Variable u : CRC32.unit.
Hypothesis Hu : CRC32.LiteEthMACCRC32 8 = Some u.

Lemma ratio_checker : Checker.ratio (CRC.of_crc32 u) 8 = 4%nat.
Proof. reflexivity. Qed.

Lemma ratio_inserter : Inserter.ratio (CRC.of_crc32 u) 8 = 4%nat.
Proof. reflexivity. Qed.

(** The inserter followed by the checker, byte-wide. *)
Lemma roundtrip_general (ps : list payload) env1 env2 r0 :
  ps <> [] ->
  (length ps + 5 <= progress env1)%nat ->
  (length ps + 4 <= progress env2)%nat ->
  let crc := CRC.of_crc32 u in
  let wire := Inserter.released
                (Inserter.trace crc 8 (Inserter.reset_state crc 8, packet ps) env1) in
  let tr := Checker.trace crc 8 (Checker.reset_state crc, wire)
                          ((false, r0) :: env2) in
  wire = InserterSpec.inserted crc 8 ps /\
  Checker.released tr =
    CheckerSpec.expect crc 8 (CRC.regs_reset crc) [] (InserterSpec.inserted crc 8 ps) /\
  map (fun b => (data (fst b), last_be (fst b))) (Checker.released tr) =
    map (fun p => (data p, last_be p)) ps /\
  map snd (Checker.released tr) = map snd (packet ps) /\
  (exists pre fin, Checker.released tr = pre ++ [fin] /\
                   error (fst fin) = false /\ snd fin = true) /\
  Checker.pulses tr = 0%nat.
Proof.
  intros Hne Hp1 Hp2 crc wire tr. subst crc.
  assert (Hlen : (1 <= length ps)%nat).
  { destruct ps; [congruence|cbn; lia]. }
  assert (Hwire : wire = InserterSpec.inserted (CRC.of_crc32 u) 8 ps).
  { unfold wire, Inserter.reset_state.
    apply (InserterFacts.idle_phase (CRC.of_crc32 u) 8 env1); [exact Hne|].
    rewrite ratio_inserter. cbn. lia. }
  assert (Hr : (1 <= Checker.ratio (CRC.of_crc32 u) 8)%nat)
    by (rewrite ratio_checker; lia).
  destruct (checker_from_reset (CRC.of_crc32 u) 8 wire r0 env2 Hr) as (R1 & R2 & _).
  { rewrite Hwire. apply (inserted_last_only u). }
  fold tr in R1, R2.
  assert (Hrel : Checker.released tr =
                 CheckerSpec.expect (CRC.of_crc32 u) 8
                   (CRC.regs_reset (CRC.of_crc32 u)) []
                   (InserterSpec.inserted (CRC.of_crc32 u) 8 ps)).
  { rewrite <- Hwire. apply R1. rewrite Hwire.
    rewrite (inserted_length u). exact Hp2. }
  split; [exact Hwire|]. split; [exact Hrel|].
  split; [|split; [|split]].
  - rewrite Hrel, (ExpectFacts.expect_payload (CRC.of_crc32 u) 8 Hr) by (cbn; lia).
    rewrite ratio_checker, (inserted_length u).
    cbn [length app]. replace (0 + (length ps + 4) - 4)%nat with (length ps) by lia.
    unfold InserterSpec.inserted.
    rewrite firstn_app, length_map, Nat.sub_diag, firstn_O, app_nil_r.
    rewrite firstn_all2 by (rewrite length_map; lia).
    rewrite map_map. reflexivity.
  - rewrite Hrel, (ExpectFacts.expect_last (CRC.of_crc32 u) 8 Hr) by (cbn; lia).
    rewrite ratio_checker. cbn [length].
    rewrite <- skipn_map. unfold InserterSpec.inserted.
    rewrite (crc_beats_byte u).
    rewrite map_app, plain_last. cbn [map snd].
    change [false; false; false; true] with (repeat false 3 ++ [true]).
    rewrite app_assoc, <- repeat_app, skipn_repeat by lia.
    rewrite packet_last by exact Hne.
    now replace (length ps + 3 - (4 - 0))%nat with (length ps - 1)%nat by lia.
  - pose proof (inserted_residue u Hu ps) as Hres.
    unfold InserterSpec.inserted in Hrel, Hres.
    rewrite (crc_beats_byte u) in Hrel, Hres.
    set (v := CRC.value (CRC.of_crc32 u)
                (InserterSpec.absorb (CRC.of_crc32 u)
                   (CRC.regs_reset (CRC.of_crc32 u)) ps) 0) in *.
    set (front := map (fun p : payload => (p, false)) ps ++
                  [(byte (Migen.slice v (0 * 8) ((0 + 1) * 8)), false);
                   (byte (Migen.slice v (1 * 8) ((1 + 1) * 8)), false);
                   (byte (Migen.slice v (2 * 8) ((2 + 1) * 8)), false)]).
    set (fin := (byte (Migen.slice v (3 * 8) ((3 + 1) * 8)), true)).
    assert (E : map (fun p : payload => (p, false)) ps ++
                [(byte (Migen.slice v (0 * 8) ((0 + 1) * 8)), false);
                 (byte (Migen.slice v (1 * 8) ((1 + 1) * 8)), false);
                 (byte (Migen.slice v (2 * 8) ((2 + 1) * 8)), false);
                 fin] = front ++ [fin]).
    { unfold front. now rewrite <- app_assoc. }
    fold fin in Hrel, Hres. rewrite E in Hrel, Hres.
    rewrite ExpectFacts.final_bad_snoc in Hres.
    destruct (ExpectFacts.expect_final (CRC.of_crc32 u) 8 Hr
                (CRC.regs_reset (CRC.of_crc32 u)) [] front fin)
      as (pre & h & Ex).
    { cbn. lia. }
    { unfold front. rewrite length_app, length_map. cbn.
      rewrite ratio_checker. lia. }
    exists pre, (CheckerSpec.release (CRC.of_crc32 u)
                   (CheckerSpec.absorb (CRC.of_crc32 u)
                      (CRC.regs_reset (CRC.of_crc32 u)) front) h fin).
    split; [rewrite Hrel; exact Ex|]. split; [|reflexivity].
    unfold CheckerSpec.release. cbn [fst error]. rewrite Hres. reflexivity.
  - rewrite (PulseFacts.pulses_law _ _ R2). rewrite Hwire.
    now rewrite (inserted_residue u Hu ps).
Qed.

End Unit8.
End RoundTrip.

(** * The properties of the specification *)

(** For an odd polynomial within the register the recurrence is the
    textbook one: shift, then xor the polynomial in when the feedback is
    set. *)
Lemma lfsr_shift_textbook (N : nat) (P s : Z) (din : bool) :
  (1 <= N)%nat -> 0 <= P < 2 ^ Z.of_nat N -> Z.odd P = true ->
  Engine.lfsr_shift N P s din =
  if xorb (Z.testbit s (Z.of_nat N - 1)) din
  then Z.lxor ((2 * s) mod 2 ^ Z.of_nat N) P
  else (2 * s) mod 2 ^ Z.of_nat N.
Proof.
  intros HN HP Hodd. unfold Engine.lfsr_shift.
  rewrite Z.land_ones, Z.shiftl_mul_pow2 by lia.
  replace (s * 2 ^ 1) with (2 * s) by lia.
  replace (Z.lor 1 (Z.land P (Z.ones (Z.of_nat N)))) with P; [reflexivity|].
  apply Z.bits_inj'. intros j Hj.
  rewrite Z.lor_spec, Z.land_spec, BitFacts.testbit_1 by lia.
  destruct (Z.eqb_spec j 0) as [->|Hne].
  - now rewrite <- Z.bit0_odd in Hodd.
  - cbn [orb]. destruct (Z.lt_ge_cases j (Z.of_nat N)).
    + rewrite BitFacts.testbit_ones_low by lia. now rewrite andb_true_r.
    + rewrite BitFacts.testbit_ones_high, andb_false_r by lia.
      apply (BitFacts.testbit_high (Z.of_nat N)); lia.
Qed.

(** A data width or a register width of 0 is refused: the signals cannot
    be built. *)
Lemma engine_width_0 (W N : nat) (P : Z) :
  W = 0%nat \/ N = 0%nat -> Engine.LiteEthMACCRCEngine W N P = None.
Proof.
  intros H. destruct (Engine.LiteEthMACCRCEngine W N P) as [e|] eqn:E;
    [|reflexivity].
  apply EngineCorrect.built_pos in E. lia.
Qed.

(** C2. The engine elaborates exactly when the data width [W] and the
    register width [N] are at least 1 (a signal of width 0 is refused);
    for every [N]-bit state [s] and data word [d] its output [next]
    equals the state reached by feeding the [W] low bits of [d], low bit
    first, through the bit-serial recurrence from [s]. *)
Theorem engine_next_is_serial_lfsr (W N : nat) (P : Z) :
  (Engine.LiteEthMACCRCEngine W N P <> None <->
   (1 <= W)%nat /\ (1 <= N)%nat) /\
  forall e, Engine.LiteEthMACCRCEngine W N P = Some e ->
    forall s d, 0 <= s < 2 ^ Z.of_nat N ->
      Engine.next e s d = Engine.lfsr_feed N P s (Engine.data_bits W d).
Proof.
  split.
  - split.
    + intros H.
      destruct (Engine.LiteEthMACCRCEngine W N P) as [e|] eqn:E; [|congruence].
      now apply EngineCorrect.built_pos in E.
    + intros (HW & HN).
      destruct (EngineCorrect.engine_built N P HN W HW) as (c & E & _).
      rewrite E. discriminate.
  - intros e He s d Hs.
    destruct (EngineCorrect.built_pos W N P e He) as (HW & HN).
    destruct (EngineCorrect.engine_built N P HN W HW) as (c & E & Hc).
    rewrite E in He. injection He as <-.
    now apply EngineCorrect.next_of_good.
Qed.

Lemma engine_next_is_serial_lfsr_witness :
  exists e, Engine.LiteEthMACCRCEngine 8 32 0x04C11DB7 = Some e /\
    Engine.next e 0xFFFFFFFF 0x01 =
    Engine.lfsr_feed 32 0x04C11DB7 0xFFFFFFFF (Engine.data_bits 8 0x01).
Proof.
  destruct (engine_next_is_serial_lfsr 8 32 0x04C11DB7) as [H1 H2].
  destruct (Engine.LiteEthMACCRCEngine 8 32 0x04C11DB7) as [e|] eqn:E.
  - exists e. split; [reflexivity|]. apply (H2 e eq_refl). cbn. lia.
  - exfalso. apply H1; [split; lia|reflexivity].
Defined.

(** C4. For every [last_be] the selected lane [k] is the lane of the bit
    set when [last_be] is not zero (the highest one, should several be
    set) and the top lane [dw-1] when [last_be = 0]; [value] is the
    complement of the bit-reversed register of lane [k], and [error] holds
    exactly when the raw output [next] of the engine of lane [k] differs
    from the residue constant 0xC704DD7B. *)
Theorem crc32_lane_select (dwidth : nat) (u : CRC32.unit)
        (regs : CRC32.regs_t) (data last_be : Z) :
  CRC32.LiteEthMACCRC32 dwidth = Some u ->
  (1 <= CRC32.dw u)%nat ->
  0 <= last_be < 2 ^ Z.of_nat (CRC32.dw u) ->
  let k := CRC32Spec.selected_lane u last_be in
  (k < CRC32.dw u)%nat /\
  (last_be = 0 -> k = (CRC32.dw u - 1)%nat) /\
  (last_be <> 0 -> Z.testbit last_be (Z.of_nat k) = true) /\
  (forall j, last_be = 2 ^ Z.of_nat j -> k = j) /\
  CRC32.value u regs last_be =
    CRC32.invert 32 (CRC32.reverse_bits 32 (nth k regs 0)) /\
  (forall i, (i < 32)%nat ->
     Z.testbit (CRC32.value u regs last_be) (Z.of_nat i) =
     negb (Z.testbit (nth k regs 0) (Z.of_nat (31 - i)))) /\
  exists en,
    Engine.LiteEthMACCRCEngine ((k + 1) * 8) 32 0x04C11DB7 = Some en /\
    (CRC32.error u regs data last_be = true <->
     Engine.next en (last regs 0)
                 (Z.land data (Z.ones (Z.of_nat ((k + 1) * 8)))) <> 0xC704DD7B).
Proof.
  intros Hu Hdw Hbe k.
  assert (Hk : (k < CRC32.dw u)%nat) by now apply CRC32Facts.selected_lane_bound.
  assert (Hv : CRC32.value u regs last_be =
               CRC32.invert 32 (CRC32.reverse_bits 32 (nth k regs 0))).
  { unfold CRC32.value. now rewrite (CRC32Facts.outputs_lane u regs 0 last_be). }
  split; [exact Hk|]. split; [|split; [|split; [|split; [exact Hv|split]]]].
  - intros ->. reflexivity.
  - intros Hne. unfold k, CRC32Spec.selected_lane.
    destruct (Z.eqb_spec last_be 0) as [E|E]; [contradiction|].
    pose proof (Z.log2_nonneg last_be).
    rewrite Z2Nat.id by lia. apply Z.bit_log2. lia.
  - intros j ->. unfold k, CRC32Spec.selected_lane.
    assert (0 < 2 ^ Z.of_nat j) by (apply Z.pow_pos_nonneg; lia).
    destruct (Z.eqb_spec (2 ^ Z.of_nat j) 0) as [E|E]; [lia|].
    rewrite Z.log2_pow2 by lia. apply Nat2Z.id.
  - intros i Hi. rewrite Hv.
    rewrite CRC32Facts.invert_testbit, CRC32Facts.reverse_bits_testbit by lia.
    reflexivity.
  - destruct (CRC32Facts.built_inv dwidth u Hu) as (_ & _ & _ & Hen).
    destruct (Hen k Hk) as (en & Een & Eb).
    exists en. split; [exact Eb|].
    unfold CRC32.error.
    rewrite (CRC32Facts.outputs_lane u regs data last_be) by assumption.
    cbn [snd]. fold k. unfold CRC32.engine_next. rewrite Een.
    change CRC32.check with 0xC704DD7B.
    rewrite negb_true_iff, Z.eqb_neq. reflexivity.
Qed.

Lemma crc32_lane_select_witness :
  let u := Instances.elaborated (CRC32.LiteEthMACCRC32 32) in
  let regs := [5; 7; 9; 11] in
  let k := CRC32Spec.selected_lane u 4 in
  (k < CRC32.dw u)%nat /\
  (4 = 0 -> k = (CRC32.dw u - 1)%nat) /\
  (4 <> 0 -> Z.testbit 4 (Z.of_nat k) = true) /\
  (forall j, 4 = 2 ^ Z.of_nat j -> k = j) /\
  CRC32.value u regs 4 =
    CRC32.invert 32 (CRC32.reverse_bits 32 (nth k regs 0)) /\
  (forall i, (i < 32)%nat ->
     Z.testbit (CRC32.value u regs 4) (Z.of_nat i) =
     negb (Z.testbit (nth k regs 0) (Z.of_nat (31 - i)))) /\
  exists en,
    Engine.LiteEthMACCRCEngine ((k + 1) * 8) 32 0x04C11DB7 = Some en /\
    (CRC32.error u regs 0x11223344 4 = true <->
     Engine.next en (last regs 0)
                 (Z.land 0x11223344 (Z.ones (Z.of_nat ((k + 1) * 8))))
     <> 0xC704DD7B).
Proof.
  intros u regs.
  apply (crc32_lane_select 32 u regs 0x11223344 4).
  - vm_compute. reflexivity.
  - vm_compute. lia.
  - vm_compute. split; [discriminate|reflexivity].
Defined.

(** C5. On an enabled update with the data word [d] every lane [k] loads
    the output of its engine, of data width [(k+1)*8], for the previous
    register of the top lane [dw-1] and the low [(k+1)*8] bits of [d]; all
    lanes are loaded on the same edge from that same state; reset loads
    0xFFFFFFFF in every lane. *)
Theorem crc32_update (dwidth : nat) (u : CRC32.unit)
        (regs : CRC32.regs_t) (d : Z) (k : nat) :
  CRC32.LiteEthMACCRC32 dwidth = Some u ->
  length regs = CRC32.dw u ->
  (k < CRC32.dw u)%nat ->
  CRC32.dw u = (dwidth / 8)%nat /\
  length (CRC.sync (CRC.of_crc32 u) false true d regs) = CRC32.dw u /\
  (exists en,
     Engine.LiteEthMACCRCEngine ((k + 1) * 8) 32 0x04C11DB7 = Some en /\
     nth k (CRC.sync (CRC.of_crc32 u) false true d regs) 0 =
     Engine.next en (nth (CRC32.dw u - 1) regs 0)
                 (Z.land d (Z.ones (Z.of_nat ((k + 1) * 8))))) /\
  (forall ce, CRC.sync (CRC.of_crc32 u) true ce d regs =
              repeat 0xFFFFFFFF (CRC32.dw u)) /\
  CRC.sync (CRC.of_crc32 u) false false d regs = regs.
Proof.
  intros Hu Hlen Hk.
  destruct (CRC32Facts.built_inv dwidth u Hu) as (_ & Hdw & _ & Hen).
  destruct (Hen k Hk) as (en & Een & Eb).
  assert (Hlast : last regs 0 = nth (CRC32.dw u - 1) regs 0).
  { destruct (exists_last (l := regs)) as (l & x & ->).
    { intros ->. cbn in Hlen. lia. }
    rewrite last_last. rewrite length_app in Hlen. cbn in Hlen.
    replace (CRC32.dw u - 1)%nat with (length l) by lia.
    now rewrite nth_middle. }
  split; [exact Hdw|]. split; [|split; [|split]].
  - cbn. unfold CRC32.regs_next. now rewrite length_map, length_seq.
  - exists en. split; [exact Eb|].
    cbn. unfold CRC32.regs_next.
    erewrite nth_indep by (rewrite length_map, length_seq; lia).
    rewrite (map_nth (CRC32.engine_next u regs d) (seq 0 (CRC32.dw u)) 0%nat k).
    rewrite seq_nth by lia. cbn [Nat.add].
    unfold CRC32.engine_next. rewrite Een, Hlast. reflexivity.
  - intros ce. reflexivity.
  - reflexivity.
Qed.

Lemma crc32_update_witness :
  CRC32.dw (Instances.elaborated (CRC32.LiteEthMACCRC32 16)) = (16 / 8)%nat /\
  length (CRC.sync (CRC.of_crc32 (Instances.elaborated (CRC32.LiteEthMACCRC32 16)))
                   false true 0x1234 [5; 7]) =
    CRC32.dw (Instances.elaborated (CRC32.LiteEthMACCRC32 16)) /\
  (exists en,
     Engine.LiteEthMACCRCEngine ((0 + 1) * 8) 32 0x04C11DB7 = Some en /\
     nth 0 (CRC.sync (CRC.of_crc32 (Instances.elaborated (CRC32.LiteEthMACCRC32 16)))
                     false true 0x1234 [5; 7]) 0 =
     Engine.next en
       (nth (CRC32.dw (Instances.elaborated (CRC32.LiteEthMACCRC32 16)) - 1)
            [5; 7] 0)
       (Z.land 0x1234 (Z.ones (Z.of_nat ((0 + 1) * 8))))) /\
  (forall ce,
     CRC.sync (CRC.of_crc32 (Instances.elaborated (CRC32.LiteEthMACCRC32 16)))
              true ce 0x1234 [5; 7] =
     repeat 0xFFFFFFFF (CRC32.dw (Instances.elaborated (CRC32.LiteEthMACCRC32 16)))) /\
  CRC.sync (CRC.of_crc32 (Instances.elaborated (CRC32.LiteEthMACCRC32 16)))
           false false 0x1234 [5; 7] = [5; 7].
Proof.
  apply (crc32_update 16 (Instances.elaborated (CRC32.LiteEthMACCRC32 16))
                      [5; 7] 0x1234 0).
  - vm_compute. reflexivity.
  - vm_compute. reflexivity.
  - vm_compute. lia.
Defined.

(** C6. In the COPY state the source shows the sink's element, same
    payload, with [last] cleared, also on the element that carries the
    sink's [last]; the element is accepted exactly when it is taken
    downstream; the CRC unit is enabled exactly under [sink.valid] and
    [source.ready] and then takes the data in; the next state is CRC
    exactly when the sink's [last] element is accepted, else COPY. *)
Theorem inserter_copy_state (crc : CRC.class) (dw : nat)
        (s : Inserter.state crc) (sink : Stream.endpoint) (ready : bool) :
  Inserter.fsm crc s = Inserter.COPY ->
  Inserter.source (Inserter.comb_of crc dw s sink ready) =
    {| Stream.valid := Stream.valid sink; Stream.last := false;
       Stream.pl := Stream.pl sink |} /\
  Inserter.sink_ready (Inserter.comb_of crc dw s sink ready) = ready /\
  Inserter.crc_ce (Inserter.comb_of crc dw s sink ready) =
    Stream.valid sink && ready /\
  Inserter.crc_reset (Inserter.comb_of crc dw s sink ready) = false /\
  Inserter.crc_data (Inserter.comb_of crc dw s sink ready) =
    Stream.data (Stream.pl sink) /\
  Inserter.regs crc (Inserter.step crc dw s sink ready) =
    (if Stream.valid sink && ready
     then CRC.regs_next crc (Inserter.regs crc s) (Stream.data (Stream.pl sink))
     else Inserter.regs crc s) /\
  Inserter.fsm crc (Inserter.step crc dw s sink ready) =
    (if Stream.valid sink && Stream.last sink && ready
     then Inserter.CRC else Inserter.COPY).
Proof.
  intros Hs. destruct s as [f rg c]. cbn in Hs. subst f.
  unfold Inserter.step, Inserter.comb_of. cbn.
  repeat (split; [reflexivity|]).
  destruct (Stream.valid sink && Stream.last sink && ready); reflexivity.
Qed.

Lemma inserter_copy_state_witness :
  let crc := Instances.crc32_class 8 in
  let s := {| Inserter.fsm := Inserter.COPY;
              Inserter.regs := CRC.regs_reset crc; Inserter.cnt := 3 |} in
  let sink := {| Stream.valid := true; Stream.last := true;
                 Stream.pl := Instances.byte 0x04 |} in
  Inserter.source (Inserter.comb_of crc 8 s sink true) =
    {| Stream.valid := Stream.valid sink; Stream.last := false;
       Stream.pl := Stream.pl sink |} /\
  Inserter.sink_ready (Inserter.comb_of crc 8 s sink true) = true /\
  Inserter.crc_ce (Inserter.comb_of crc 8 s sink true) =
    Stream.valid sink && true /\
  Inserter.crc_reset (Inserter.comb_of crc 8 s sink true) = false /\
  Inserter.crc_data (Inserter.comb_of crc 8 s sink true) =
    Stream.data (Stream.pl sink) /\
  Inserter.regs crc (Inserter.step crc 8 s sink true) =
    (if Stream.valid sink && true
     then CRC.regs_next crc (Inserter.regs crc s) (Stream.data (Stream.pl sink))
     else Inserter.regs crc s) /\
  Inserter.fsm crc (Inserter.step crc 8 s sink true) =
    (if Stream.valid sink && Stream.last sink && true
     then Inserter.CRC else Inserter.COPY).
Proof.
  intros crc s sink.
  apply (inserter_copy_state crc 8 s sink true). reflexivity.
Defined.

(** C7, as the claim states it, fails: after the bytes 01 02 03 04 the
    CRC value is 0xB63CFBCD and the inserter (dw = 8) emits CD, FB, 3C, B6,
    the least-significant byte first, not B6, 3C, FB, CD. *)
Lemma inserter_append_not_high_first :
  let crc := Instances.crc32_class 8 in
  let s := {| Inserter.fsm := Inserter.CRC;
              Inserter.regs := InserterSpec.absorb crc (CRC.regs_reset crc)
                                 (map Instances.byte [0x01; 0x02; 0x03; 0x04]);
              Inserter.cnt := 3 |} in
  Inserter.released
    (Inserter.trace crc 8 (s, []) (repeat (true, true) 4)) <>
  InserterSpec.high_first 8 4 (Inserter.crc_value crc s).
Proof. vm_compute. discriminate. Qed.

(** A width that does not divide 32: at dw = 24 [ratio] is 1, and after
    the word 0x030201 (CRC value 0x55BC801D) the append state emits a
    single element, the low 24 bits BC801D of the value with [last]; the
    high byte is not sent, and the element count is 1 where
    [ceil(32/24)] is 2. *)
Lemma inserter_append_truncated_at_24 :
  let crc := Instances.crc32_class 24 in
  let s := {| Inserter.fsm := Inserter.CRC;
              Inserter.regs := InserterSpec.absorb crc (CRC.regs_reset crc)
                                 [Instances.byte 0x030201];
              Inserter.cnt := 0 |} in
  Inserter.ratio crc 24 = 1%nat /\
  Inserter.crc_value crc s = 0x55BC801D /\
  map (fun b : Stream.beat => (Stream.data (fst b), snd b))
      (Inserter.released
         (Inserter.trace crc 24 (s, []) (repeat (true, true) 4))) =
    [(0xBC801D, true)] /\
  Inserter.fsm crc
    (fst (Inserter.final crc 24 (s, []) (repeat (true, true) 4))) =
    Inserter.IDLE.
Proof. vm_compute. repeat split. Qed.

(** C7, amended.  For dw = 8, dw = 16 and dw >= 32 the CRC state entered
    with the counter at [ratio - 1] emits the CRC value as exactly
    [ceil(32/dw)] elements of [dw] bits, the least-significant chunk
    first, one per cycle in which the consumer is ready and held unchanged
    otherwise, with [last] on the final chunk only; the state machine is
    then back in IDLE.  For dw >= 32 that is a single element. *)
Theorem inserter_append_low_first (crc : CRC.class) (dw : nat)
        (rg : CRC.regs_t crc) (env : list (bool * bool)) :
  CRC.width crc = 32%nat ->
  dw = 8%nat \/ dw = 16%nat \/ (32 <= dw)%nat ->
  (Nat.max (32 / dw) 1 <= Env.readies env)%nat ->
  Inserter.released
    (Inserter.trace crc dw
       ({| Inserter.fsm := Inserter.CRC; Inserter.regs := rg;
           Inserter.cnt := (32 / dw - 1)%nat |}, []) env) =
    InserterSpec.low_first dw (Nat.max (32 / dw) 1) (CRC.value crc rg 0) /\
  Inserter.fsm crc
    (fst (Inserter.final crc dw
            ({| Inserter.fsm := Inserter.CRC; Inserter.regs := rg;
                Inserter.cnt := (32 / dw - 1)%nat |}, []) env)) = Inserter.IDLE /\
  (forall c pending g,
     Inserter.cycle crc dw
       ({| Inserter.fsm := Inserter.CRC; Inserter.regs := rg;
           Inserter.cnt := c |}, pending) (g, false) =
     (({| Inserter.fsm := Inserter.CRC; Inserter.regs := rg;
          Inserter.cnt := c |}, pending), None)).
Proof.
  intros Hw Hdw Hp.
  assert (Hratio : Inserter.ratio crc dw = (32 / dw)%nat).
  { unfold Inserter.ratio. now rewrite Hw. }
  assert (Hbeats : InserterSpec.crc_beats crc dw (CRC.value crc rg 0) =
                   InserterSpec.low_first dw (Nat.max (32 / dw) 1)
                                          (CRC.value crc rg 0)).
  { unfold InserterSpec.crc_beats. rewrite Hratio.
    destruct Hdw as [ -> | [ -> | Hdw ] ].
    - cbn -[Z.land Z.shiftr Z.ones Migen.slice].
      unfold InserterSpec.chunk, Inserter.ratio. rewrite Hw. reflexivity.
    - cbn -[Z.land Z.shiftr Z.ones Migen.slice].
      unfold InserterSpec.chunk, Inserter.ratio. rewrite Hw. reflexivity.
    - assert (Hle : (32 / dw <= 1)%nat).
      { change 1%nat with (32 / 32)%nat. apply Nat.div_le_compat_l. lia. }
      replace (Nat.ltb 1 (32 / dw)) with false by (symmetry; apply Nat.ltb_ge; exact Hle).
      replace (Nat.max (32 / dw) 1) with 1%nat by lia.
      unfold InserterSpec.low_first, Migen.slice. cbn [seq map Nat.sub Nat.eqb].
      rewrite Nat.mul_0_l, Nat.add_0_l, Nat.mul_1_l, Nat.sub_0_r, Z.shiftr_0_r.
      reflexivity. }
  destruct (InserterFacts.crc_phase crc dw env rg (32 / dw - 1)) as (E1 & E2 & _).
  { intros _. now rewrite Hratio. }
  { now rewrite Hratio. }
  split; [now rewrite E1, Hbeats|]. split; [exact E2|].
  intros c pending g.
  destruct (Nat.ltb_spec 1 (Inserter.ratio crc dw)) as [H|H].
  - now rewrite InserterFacts.cycle_crc_many.
  - now rewrite InserterFacts.cycle_crc_one.
Qed.

Lemma inserter_append_low_first_witness :
  let crc := Instances.crc32_class 8 in
  let rg := InserterSpec.absorb crc (CRC.regs_reset crc)
              (map Instances.byte [0x01; 0x02; 0x03; 0x04]) in
  let env := [(false, true); (true, false); (false, true); (true, true);
              (false, true)] in
  Inserter.released
    (Inserter.trace crc 8
       ({| Inserter.fsm := Inserter.CRC; Inserter.regs := rg;
           Inserter.cnt := (32 / 8 - 1)%nat |}, []) env) =
    InserterSpec.low_first 8 (Nat.max (32 / 8) 1) (CRC.value crc rg 0) /\
  Inserter.fsm crc
    (fst (Inserter.final crc 8
            ({| Inserter.fsm := Inserter.CRC; Inserter.regs := rg;
                Inserter.cnt := (32 / 8 - 1)%nat |}, []) env)) = Inserter.IDLE /\
  (forall c pending g,
     Inserter.cycle crc 8
       ({| Inserter.fsm := Inserter.CRC; Inserter.regs := rg;
           Inserter.cnt := c |}, pending) (g, false) =
     (({| Inserter.fsm := Inserter.CRC; Inserter.regs := rg;
          Inserter.cnt := c |}, pending), None)).
Proof.
  intros crc rg env.
  apply (inserter_append_low_first crc 8 rg env).
  - reflexivity.
  - left. reflexivity.
  - vm_compute. lia.
Defined.

(** C8. In every state the checker reaches from reset, under any inputs,
    the staging FIFO holds at most [ratio] elements, hence never more than
    its capacity [ratio + 1]; it holds the most recently accepted elements
    and the CRC unit has taken all accepted elements in.  The source is
    valid only when the FIFO holds [ratio] elements and the sink presents
    one more: the element shown, [e], was accepted [ratio] elements ago,
    the [ratio - 1] elements accepted after it are in the registers of the
    unit and the one presented is at its data input. *)
Theorem checker_staging_invariant (crc : CRC.class) (dw : nat)
        (s : Checker.state crc) (h : list Stream.beat) :
  (1 <= Checker.ratio crc dw)%nat ->
  CheckerSpec.reach crc dw s h ->
  (SyncFIFO.level (Checker.fifo crc s) <= Checker.ratio crc dw)%nat /\
  (SyncFIFO.level (Checker.fifo crc s) <= Checker.ratio crc dw + 1)%nat /\
  Checker.fifo crc s = skipn (length h - Checker.ratio crc dw) h /\
  Checker.regs crc s = CheckerSpec.absorb crc (CRC.regs_reset crc) h /\
  forall sink ready,
    Stream.valid (Checker.source (Checker.comb_of crc dw s sink ready)) = true ->
    Stream.valid sink = true /\
    SyncFIFO.level (Checker.fifo crc s) = Checker.ratio crc dw /\
    Checker.crc_error crc s sink =
      CRC.error crc (CheckerSpec.absorb crc (CRC.regs_reset crc) h)
                (Stream.data (Stream.pl sink)) 0 /\
    exists pre e post,
      h = pre ++ e :: post /\
      length post = (Checker.ratio crc dw - 1)%nat /\
      Stream.data (Stream.pl (Checker.source (Checker.comb_of crc dw s sink ready)))
        = Stream.data (fst e) /\
      Stream.last_be (Stream.pl (Checker.source (Checker.comb_of crc dw s sink ready)))
        = Stream.last_be (fst e).
Proof.
  intros Hr Hreach.
  destruct (CheckerInvariant.reach_inv crc dw Hr s h Hreach) as [Hq Hg].
  assert (Hlen : SyncFIFO.level (Checker.fifo crc s) =
                 Nat.min (length h) (Checker.ratio crc dw)).
  { unfold SyncFIFO.level. rewrite Hq, length_skipn. lia. }
  split; [lia|]. split; [lia|]. split; [exact Hq|]. split; [exact Hg|].
  intros sink ready Hv.
  unfold Checker.comb_of in Hv. cbn [Checker.source Stream.valid] in Hv.
  apply andb_prop in Hv. destruct Hv as [Hv Hfull].
  apply Nat.eqb_eq in Hfull.
  split; [exact Hv|]. split; [exact Hfull|].
  split; [unfold Checker.crc_error; now rewrite Hg|].
  destruct (Checker.fifo crc s) as [|e post] eqn:Eq.
  { cbn in Hfull. lia. }
  exists (firstn (length h - Checker.ratio crc dw) h), e, post.
  split.
  - rewrite Hq. apply eq_sym, firstn_skipn.
  - split.
    + unfold SyncFIFO.level in Hfull. cbn [length] in Hfull. lia.
    + unfold Checker.comb_of. cbn. rewrite Eq. cbn. destruct e. auto.
Qed.

Lemma checker_staging_invariant_witness :
  let crc := Instances.crc32_class 8 in
  let sk := fun d => {| Stream.valid := true; Stream.last := false;
                        Stream.pl := Instances.byte d |} in
  let s0 := Checker.reset_state crc in
  let s1 := Checker.step crc 8 s0 Stream.endpoint0 true in
  let h1 := CheckerSpec.history crc 8 s0 [] Stream.endpoint0 true in
  let s2 := Checker.step crc 8 s1 (sk 1) true in
  let h2 := CheckerSpec.history crc 8 s1 h1 (sk 1) true in
  let s3 := Checker.step crc 8 s2 (sk 2) false in
  let h3 := CheckerSpec.history crc 8 s2 h2 (sk 2) false in
  let s4 := Checker.step crc 8 s3 (sk 3) true in
  let h4 := CheckerSpec.history crc 8 s3 h3 (sk 3) true in
  let s := Checker.step crc 8 s4 (sk 4) true in
  let h := CheckerSpec.history crc 8 s4 h4 (sk 4) true in
  h = [(Instances.byte 1, false); (Instances.byte 2, false);
       (Instances.byte 3, false); (Instances.byte 4, false)] /\
  (SyncFIFO.level (Checker.fifo crc s) <= Checker.ratio crc 8)%nat /\
  (SyncFIFO.level (Checker.fifo crc s) <= Checker.ratio crc 8 + 1)%nat /\
  Checker.fifo crc s = skipn (length h - Checker.ratio crc 8) h /\
  Checker.regs crc s = CheckerSpec.absorb crc (CRC.regs_reset crc) h /\
  forall sink ready,
    Stream.valid (Checker.source (Checker.comb_of crc 8 s sink ready)) = true ->
    Stream.valid sink = true /\
    SyncFIFO.level (Checker.fifo crc s) = Checker.ratio crc 8 /\
    Checker.crc_error crc s sink =
      CRC.error crc (CheckerSpec.absorb crc (CRC.regs_reset crc) h)
                (Stream.data (Stream.pl sink)) 0 /\
    exists pre e post,
      h = pre ++ e :: post /\
      length post = (Checker.ratio crc 8 - 1)%nat /\
      Stream.data (Stream.pl (Checker.source (Checker.comb_of crc 8 s sink ready)))
        = Stream.data (fst e) /\
      Stream.last_be (Stream.pl (Checker.source (Checker.comb_of crc 8 s sink ready)))
        = Stream.last_be (fst e).
Proof.
  intros crc sk s0 s1 h1 s2 h2 s3 h3 s4 h4 s h.
  split; [vm_compute; reflexivity|].
  apply (checker_staging_invariant crc 8 s h).
  - vm_compute. lia.
  - repeat apply CheckerSpec.reach_step. apply CheckerSpec.reach_reset.
Defined.


Module AnnotationFacts.
Import Stream Checker CheckerSpec.

#[local] Arguments Checker.ratio : simpl never.
#[local] Arguments Nat.eqb : simpl never.

Section WithClass.
Variable crc : CRC.class.
Variable dw : nat.
Hypothesis ratio_pos : (1 <= ratio crc dw)%nat.



End WithClass.
End AnnotationFacts.

(** The error field a released element had on arrival is not carried to
    the source (dw = 8, [ratio] 4): the packet 01 02 03 04 with its CRC
    arrives with the error field set on 04 alone; 04 is released with
    [last] and with the error field clear, and [self.error] is not
    asserted.  With the error field set on the final CRC element instead,
    04 is released with the error field set. *)
Lemma checker_own_error_not_carried :
  let crc := Instances.crc32_class 8 in
  let flag := fun b : Stream.beat =>
                ({| Stream.data := Stream.data (fst b);
                    Stream.last_be := Stream.last_be (fst b);
                    Stream.error := true |}, snd b) in
  let pkt := InserterSpec.inserted crc 8
               (map Instances.byte [0x01; 0x02; 0x03; 0x04]) in
  let on (k : nat) := firstn k pkt ++ map flag (firstn 1%nat (skipn k pkt)) ++ skipn (S k) pkt in
  let run l := Checker.trace crc 8 (Checker.reset_state crc, l)
                 ((false, true) :: repeat (true, true) 8%nat) in
  map (fun b => Stream.error (fst b)) (on 3%nat) =
    [false; false; false; true; false; false; false; false] /\
  nth_error (map (fun b => (Stream.data (fst b), Stream.error (fst b), snd b))
                 (Checker.released (run (on 3%nat)))) 3%nat = Some (0x04, false, true) /\
  Checker.pulses (run (on 3%nat)) = 0%nat /\
  nth_error (map (fun b => (Stream.data (fst b), Stream.error (fst b), snd b))
                 (Checker.released (run (on 7%nat)))) 3%nat = Some (0x04, true, true) /\
  Checker.pulses (run (on 7%nat)) = 0%nat.
Proof. vm_compute. repeat split. Qed.



(** Packets of at most [ratio] elements: the source is never valid and
    [self.error] never asserted while they pass. *)
Lemma checker_short_packet_silent (crc : CRC.class) (dw : nat)
      (rest : list Stream.beat) (r0 : bool) (env : list (bool * bool)) :
  (1 <= Checker.ratio crc dw)%nat ->
  CheckerSpec.last_only rest ->
  (length rest <= Checker.ratio crc dw)%nat ->
  Forall (fun ev => Stream.valid (Checker.src ev) = false /\
                    Checker.pulse ev = false)
         (Checker.trace crc dw (Checker.reset_state crc, rest)
                        ((false, r0) :: env)).
Proof.
  intros Hr Hl Hn.
  destruct (RoundTrip.checker_from_reset crc dw rest r0 env Hr Hl) as (_ & R2 & R3).
  specialize (R3 Hn).
  apply Forall_forall. intros ev Hev.
  rewrite Forall_forall in R2, R3.
  split; [now apply R3|]. rewrite (R2 ev Hev), (R3 ev Hev). reflexivity.
Qed.

(** C10 at a packet of a single element (dw = 8, [ratio] 4): the element
    is accepted in IDLE, the state machine goes to COPY and never to RESET,
    the element stays in the FIFO, and it is released as the first element
    of the next packet, which then fails its residue check. *)
Theorem checker_single_element_packet_not_discarded :
  let crc := Instances.crc32_class 8 in
  let sp := Checker.final crc 8
              (Checker.reset_state crc, Stream.packet [Instances.byte 0x55])
              [(false, true); (true, true); (false, true); (false, true)] in
  let next := InserterSpec.inserted crc 8
                (map Instances.byte [0x01; 0x02; 0x03; 0x04]) in
  let tr := Checker.trace crc 8 (fst sp, next) (repeat (true, true) 12) in
  snd sp = [] /\
  Checker.fsm crc (fst sp) = Checker.COPY /\
  Checker.fifo crc (fst sp) = [(Instances.byte 0x55, true)] /\
  map (fun b => Stream.data (fst b)) (Checker.released tr) =
    [0x55; 0x01; 0x02; 0x03; 0x04] /\
  Checker.pulses tr = 1%nat.
Proof. vm_compute. repeat split. Qed.

Lemma elaborated_byte_unit :
  CRC32.LiteEthMACCRC32 8 = Some (Instances.elaborated (CRC32.LiteEthMACCRC32 8)).
Proof. vm_compute. reflexivity. Qed.

(** Why the sink has to be idle during the reset cycle of the checker: in
    RESET the checker asserts [sink.ready] like in any other state, while
    the FIFO and the CRC unit are held in reset, so an element presented
    in that cycle is accepted and lost. *)
Lemma checker_reset_cycle_drops_element :
  let crc := Instances.crc32_class 8 in
  let wire := InserterSpec.inserted crc 8
                (map Instances.byte [0x01; 0x02; 0x03; 0x04]) in
  let tr := Checker.trace crc 8 (Checker.reset_state crc, wire)
                          (repeat (true, true) 9) in
  map (fun b => Stream.data (fst b)) (Checker.released tr) = [0x02; 0x03; 0x04] /\
  Checker.pulses tr = 1%nat.
Proof. vm_compute. split; reflexivity. Qed.

(** C1, as the claim states it, fails: the error field is not false on
    every released element.  For the bytes 01 02 03 04 the elements 01, 02
    and 03 leave the checker with the error field set. *)
Lemma roundtrip_error_not_false_throughout :
  let crc := Instances.crc32_class 8 in
  let wire := Inserter.released
                (Inserter.trace crc 8
                   (Inserter.reset_state crc 8,
                    Stream.packet (map Instances.byte [0x01; 0x02; 0x03; 0x04]))
                   (repeat (true, true) 9)) in
  let out := Checker.released
               (Checker.trace crc 8 (Checker.reset_state crc, wire)
                              ((false, true) :: repeat (true, true) 8)) in
  ~ Forall (fun b => Stream.error (fst b) = false) out.
Proof.
  vm_compute. intros H. inversion H as [|b l Hb _]. discriminate Hb.
Qed.

(** C1, amended.  For every sequence of at least one byte-wide element,
    feeding it through the inserter and the inserter's output through the
    checker, the sink idle during the checker's reset cycle, reproduces
    the sequence exactly, data and [last_be] in order with [last] on the
    final element only; the error field of the final released element is
    false and [self.error] is never asserted.  Each environment may stall
    as it likes as long as it leaves enough cycles to finish. *)
Theorem inserter_checker_roundtrip (u : CRC32.unit)
        (ps : list Stream.payload) (env1 env2 : list (bool * bool)) (r0 : bool) :
  CRC32.LiteEthMACCRC32 8 = Some u ->
  ps <> [] ->
  (length ps + 5 <= Env.progress env1)%nat ->
  (length ps + 4 <= Env.progress env2)%nat ->
  let crc := CRC.of_crc32 u in
  let wire := Inserter.released
                (Inserter.trace crc 8
                   (Inserter.reset_state crc 8, Stream.packet ps) env1) in
  let tr := Checker.trace crc 8 (Checker.reset_state crc, wire)
                          ((false, r0) :: env2) in
  map (fun b => (Stream.data (fst b), Stream.last_be (fst b)))
      (Checker.released tr) =
    map (fun p => (Stream.data p, Stream.last_be p)) ps /\
  map snd (Checker.released tr) = map snd (Stream.packet ps) /\
  (exists pre fin, Checker.released tr = pre ++ [fin] /\
                   Stream.error (fst fin) = false /\ snd fin = true) /\
  Checker.pulses tr = 0%nat.
Proof.
  intros Hu Hne Hp1 Hp2 crc wire tr.
  destruct (RoundTrip.roundtrip_general u Hu ps env1 env2 r0 Hne Hp1 Hp2)
    as (_ & _ & H1 & H2 & H3 & H4).
  repeat split; assumption.
Qed.

Lemma inserter_checker_roundtrip_witness :
  let crc := CRC.of_crc32 (Instances.elaborated (CRC32.LiteEthMACCRC32 8)) in
  let ps := map Instances.byte [0xDE; 0xAD] in
  let env1 := [(true, false); (true, true); (false, true); (true, true);
               (true, false); (true, true); (true, true); (true, true);
               (true, true); (true, true)] in
  let env2 := [(true, true); (true, true); (true, true); (true, true);
               (true, false); (true, true); (false, true); (true, true)] in
  let wire := Inserter.released
                (Inserter.trace crc 8
                   (Inserter.reset_state crc 8, Stream.packet ps) env1) in
  let tr := Checker.trace crc 8 (Checker.reset_state crc, wire)
                          ((false, true) :: env2) in
  map (fun b => (Stream.data (fst b), Stream.last_be (fst b)))
      (Checker.released tr) =
    map (fun p => (Stream.data p, Stream.last_be p)) ps /\
  map snd (Checker.released tr) = map snd (Stream.packet ps) /\
  (exists pre fin, Checker.released tr = pre ++ [fin] /\
                   Stream.error (fst fin) = false /\ snd fin = true) /\
  Checker.pulses tr = 0%nat.
Proof.
  intros crc ps env1 env2.
  apply (inserter_checker_roundtrip
           (Instances.elaborated (CRC32.LiteEthMACCRC32 8)) ps env1 env2 true).
  - vm_compute. reflexivity.
  - discriminate.
  - vm_compute. lia.
  - vm_compute. lia.
Defined.

(** C3, as the claim states it, fails: the four bytes appended to
    01 02 03 04 are not B6 3C FB CD in that order. *)
Lemma inserter_appended_bytes_not_high_first :
  let crc := Instances.crc32_class 8 in
  let wire := Inserter.released
                (Inserter.trace crc 8
                   (Inserter.reset_state crc 8,
                    Stream.packet (map Instances.byte [0x01; 0x02; 0x03; 0x04]))
                   (repeat (true, true) 9)) in
  map (fun b => Stream.data (fst b)) (skipn 4 wire) <> [0xB6; 0x3C; 0xFB; 0xCD].
Proof. vm_compute. discriminate. Qed.

(** C3, amended.  With dw = 8 the inserter turns the bytes 01 02 03 04
    into the eight elements 01 02 03 04 CD FB 3C B6, the CRC 0xB63CFBCD
    least-significant byte first, with [last] on the final appended byte
    only; the checker fed these eight elements after its reset cycle
    releases exactly 01 02 03 04 with [last] on 04, the error field false
    on that final element and set on the three before it, and never
    asserts [self.error]. *)
Theorem crc32_concrete_scenario (env1 env2 : list (bool * bool)) (r0 : bool) :
  (9 <= Env.progress env1)%nat ->
  (8 <= Env.progress env2)%nat ->
  let crc := Instances.crc32_class 8 in
  let wire := Inserter.released
                (Inserter.trace crc 8
                   (Inserter.reset_state crc 8,
                    Stream.packet (map Instances.byte [0x01; 0x02; 0x03; 0x04]))
                   env1) in
  let tr := Checker.trace crc 8 (Checker.reset_state crc, wire)
                          ((false, r0) :: env2) in
  wire = [(Instances.byte 0x01, false); (Instances.byte 0x02, false);
          (Instances.byte 0x03, false); (Instances.byte 0x04, false);
          (Instances.byte 0xCD, false); (Instances.byte 0xFB, false);
          (Instances.byte 0x3C, false); (Instances.byte 0xB6, true)] /\
  Checker.released tr =
    [({| Stream.data := 0x01; Stream.last_be := 0; Stream.error := true |}, false);
     ({| Stream.data := 0x02; Stream.last_be := 0; Stream.error := true |}, false);
     ({| Stream.data := 0x03; Stream.last_be := 0; Stream.error := true |}, false);
     ({| Stream.data := 0x04; Stream.last_be := 0; Stream.error := false |}, true)] /\
  Checker.pulses tr = 0%nat.
Proof.
  intros Hp1 Hp2 crc wire tr.
  destruct (RoundTrip.roundtrip_general
              (Instances.elaborated (CRC32.LiteEthMACCRC32 8))
              elaborated_byte_unit
              (map Instances.byte [0x01; 0x02; 0x03; 0x04]) env1 env2 r0)
    as (H1 & H2 & _ & _ & _ & H6); [discriminate|exact Hp1|exact Hp2|].
  split; [|split].
  - etransitivity; [exact H1|]. vm_compute. reflexivity.
  - etransitivity; [exact H2|]. vm_compute. reflexivity.
  - exact H6.
Qed.

Lemma crc32_concrete_scenario_witness :
  let crc := Instances.crc32_class 8 in
  let wire := Inserter.released
                (Inserter.trace crc 8
                   (Inserter.reset_state crc 8,
                    Stream.packet (map Instances.byte [0x01; 0x02; 0x03; 0x04]))
                   (repeat (true, true) 9)) in
  let tr := Checker.trace crc 8 (Checker.reset_state crc, wire)
                          ((false, true) :: repeat (true, true) 8) in
  wire = [(Instances.byte 0x01, false); (Instances.byte 0x02, false);
          (Instances.byte 0x03, false); (Instances.byte 0x04, false);
          (Instances.byte 0xCD, false); (Instances.byte 0xFB, false);
          (Instances.byte 0x3C, false); (Instances.byte 0xB6, true)] /\
  Checker.released tr =
    [({| Stream.data := 0x01; Stream.last_be := 0; Stream.error := true |}, false);
     ({| Stream.data := 0x02; Stream.last_be := 0; Stream.error := true |}, false);
     ({| Stream.data := 0x03; Stream.last_be := 0; Stream.error := true |}, false);
     ({| Stream.data := 0x04; Stream.last_be := 0; Stream.error := false |}, true)] /\
  Checker.pulses tr = 0%nat.
Proof.
  apply (crc32_concrete_scenario (repeat (true, true) 9) (repeat (true, true) 8) true).
  - vm_compute. lia.
  - vm_compute. lia.
Defined.

(** * Further properties of the code *)

(** ** What [_optimize_eq] keeps and what it removes *)

Module OptimizeFacts.
Import Engine EngineSem EngineFacts.

Lemma term_eqb_refl t : term_eqb t t = true.
Proof. now apply term_eqb_eq. Qed.

Lemma term_eqb_neq a b : a <> b -> term_eqb a b = false.
Proof.
  intros H. destruct (term_eqb a b) eqn:E; [|reflexivity].
  apply term_eqb_eq in E. contradiction.
Qed.

Lemma odd_count_odd v : odd_count v = Nat.odd v.
Proof.
  induction v as [|v IH]; [reflexivity|].
  rewrite odd_count_S, IH, Nat.odd_succ, <- Nat.negb_odd. reflexivity.
Qed.

Lemma od_get_incr e d k :
  od_get (od_incr e d) k =
  if term_eqb e k then S (od_get d k) else od_get d k.
Proof.
  induction d as [|[k' v] d IH]; cbn.
  - destruct (term_eqb e k); reflexivity.
  - destruct (term_eqb k' e) eqn:E1; cbn.
    + apply term_eqb_eq in E1. subst k'.
      destruct (term_eqb e k); reflexivity.
    + destruct (term_eqb k' k) eqn:E2.
      * apply term_eqb_eq in E2. subst k'.
        destruct (term_eqb e k) eqn:E3; [|reflexivity].
        apply term_eqb_eq in E3. subst e. rewrite term_eqb_refl in E1. discriminate.
      * exact IH.
Qed.

Lemma od_get_fold l d k :
  od_get (fold_left (fun d e => od_incr e d) l d) k =
  (count_occ term_eq_dec l k + od_get d k)%nat.
Proof.
  revert d. induction l as [|e l IH]; intros d; [reflexivity|].
  cbn [fold_left count_occ]. rewrite IH, od_get_incr.
  destruct (term_eq_dec e k) as [->|Hne].
  - rewrite term_eqb_refl. lia.
  - rewrite term_eqb_neq by exact Hne. reflexivity.
Qed.

Lemma od_incr_keys_eq e d :
  map fst (od_incr e d) =
  if existsb (fun k => term_eqb k e) (map fst d) then map fst d
  else map fst d ++ [e].
Proof.
  induction d as [|[k v] d IH]; [reflexivity|].
  cbn. destruct (term_eqb k e); cbn; [reflexivity|].
  rewrite IH. destruct (existsb _ (map fst d)); reflexivity.
Qed.

Lemma od_incr_nodup e d : NoDup (map fst d) -> NoDup (map fst (od_incr e d)).
Proof.
  intros H. rewrite od_incr_keys_eq.
  destruct (existsb _ (map fst d)) eqn:E; [exact H|].
  apply NoDup_app; [exact H|constructor; [intros []|constructor]|].
  intros k Hk Hin. destruct Hin as [Hin|[]]. subst k.
  assert (existsb (fun k' => term_eqb k' e) (map fst d) = true).
  { apply existsb_exists. exists e. split; [exact Hk|apply term_eqb_refl]. }
  congruence.
Qed.

Lemma od_fold_nodup l d :
  NoDup (map fst d) ->
  NoDup (map fst (fold_left (fun d e => od_incr e d) l d)).
Proof.
  revert d. induction l as [|e l IH]; intros d H; [exact H|].
  cbn. apply IH. now apply od_incr_nodup.
Qed.

Lemma od_get_missing d k : ~ In k (map fst d) -> od_get d k = 0%nat.
Proof.
  induction d as [|[k' v] d IH]; [reflexivity|]. cbn. intros H.
  rewrite term_eqb_neq by (intros ->; apply H; now left).
  apply IH. intros Hk. apply H. now right.
Qed.

Lemma od_filter_in d k :
  NoDup (map fst d) ->
  (In k (map fst (filter (fun kv => negb (Nat.eqb (snd kv mod 2) 0)) d)) <->
   In k (map fst d) /\ Nat.odd (od_get d k) = true).
Proof.
  induction d as [|[k' v] d IH]; intros Hnd.
  - cbn. tauto.
  - inversion Hnd as [|? ? Hk' Hd]. subst.
    cbn [filter map fst snd od_get]. fold (odd_count v). rewrite odd_count_odd.
    destruct (term_eq_dec k' k) as [->|Hne].
    + rewrite term_eqb_refl. destruct (Nat.odd v) eqn:Ev; cbn [map fst In].
      * split; [intros _; split; [now left|reflexivity]|intros _; now left].
      * split; [|intros [_ H]; discriminate].
        intros H. apply IH in H; [|exact Hd]. destruct H as [H _]. contradiction.
    + rewrite term_eqb_neq by exact Hne.
      destruct (Nat.odd v); cbn [map fst In]; rewrite (IH Hd);
        split; intros H; try tauto;
        destruct H as [[H|H] H']; try contradiction; tauto.
Qed.

Lemma filter_keys_nodup (f : term * nat -> bool) d :
  NoDup (map fst d) -> NoDup (map fst (filter f d)).
Proof.
  induction d as [|kv d IH]; intros H; [constructor|].
  inversion H as [|? ? Hk Hd]. subst. cbn. destruct (f kv); cbn.
  - constructor; [|now apply IH]. intros Hin. apply Hk.
    apply in_map_iff in Hin. destruct Hin as (x & Ex & Hx).
    apply filter_In in Hx. destruct Hx as [Hx _].
    apply in_map_iff. exists x. auto.
  - now apply IH.
Qed.

Lemma optimize_eq_in l t :
  In t (_optimize_eq l) <-> Nat.odd (count_occ term_eq_dec l t) = true.
Proof.
  unfold _optimize_eq.
  rewrite od_filter_in by (apply od_fold_nodup; constructor).
  rewrite od_get_fold. cbn [od_get]. rewrite Nat.add_0_r.
  split; [now intros [_ H]|]. intros H. split; [|exact H].
  destruct (in_dec term_eq_dec t
              (map fst (fold_left (fun d e => od_incr e d) l []))) as [Hin|Hnin];
    [exact Hin|].
  apply od_get_missing in Hnin. rewrite od_get_fold in Hnin. cbn in Hnin.
  rewrite Nat.add_0_r in Hnin. rewrite Hnin in H. discriminate.
Qed.

Lemma optimize_eq_nodup l : NoDup (_optimize_eq l).
Proof.
  unfold _optimize_eq. apply filter_keys_nodup, od_fold_nodup. constructor.
Qed.

(** On a list without repetition the dictionary holds every term once, in
    the order of the list. *)
Lemma od_fold_fresh l d :
  NoDup (map fst d ++ l) ->
  fold_left (fun d e => od_incr e d) l d = d ++ map (fun t => (t, 1%nat)) l.
Proof.
  revert d. induction l as [|e l IH]; intros d H.
  - now rewrite app_nil_r.
  - cbn [fold_left map].
    assert (He : od_incr e d = d ++ [(e, 1%nat)]).
    { apply NoDup_remove_2 in H.
      assert (Hd : ~ In e (map fst d)) by (intros Hin; apply H, in_or_app; now left).
      clear - Hd. induction d as [|[k v] d IHd]; [reflexivity|].
      cbn. rewrite term_eqb_neq by (intros ->; apply Hd; now left).
      rewrite IHd; [reflexivity|]. intros Hin. apply Hd. now right. }
    rewrite He, IH.
    + now rewrite <- app_assoc.
    + rewrite map_app. cbn [map fst]. rewrite <- app_assoc. exact H.
Qed.

Lemma optimize_eq_fixed l : NoDup l -> _optimize_eq l = l.
Proof.
  intros H. unfold _optimize_eq. rewrite od_fold_fresh by exact H.
  cbn [app]. induction l as [|t l IH]; [reflexivity|].
  cbn. f_equal. apply IH. now inversion H.
Qed.

End OptimizeFacts.

(** X1. [_optimize_eq] returns every term that occurs an odd number of
    times in its argument, once, and no other term; a list it returned
    is left unchanged when optimised again. *)
Theorem optimize_eq_odd_occurrences (l : list Engine.term) :
  (forall t, In t (Engine._optimize_eq l) <->
             Nat.odd (count_occ EngineSem.term_eq_dec l t) = true) /\
  NoDup (Engine._optimize_eq l) /\
  Engine._optimize_eq (Engine._optimize_eq l) = Engine._optimize_eq l.
Proof.
  split; [intros t; apply OptimizeFacts.optimize_eq_in|].
  split; [apply OptimizeFacts.optimize_eq_nodup|].
  apply OptimizeFacts.optimize_eq_fixed, OptimizeFacts.optimize_eq_nodup.
Qed.

(** X2. Whatever the values of the bits, the xor of the references that
    [_optimize_eq] keeps equals the xor of all the references it was
    given: cancelling pairs does not change the equation. *)
Theorem optimize_eq_same_xor (last data : Z) (l : list Engine.term) :
  Engine.reduce_xor (map (Engine.bit_of last data) (Engine._optimize_eq l)) =
  Engine.reduce_xor (map (Engine.bit_of last data) l).
Proof.
  rewrite !EngineFacts.reduce_xor_all.
  apply (EngineFacts.sem_optimize_eq last data l).
Qed.

(** ** The xor network of an engine *)

Module NetworkFacts.
Import Engine EngineSem EngineFacts EngineCorrect BitFacts.

Lemma nth_map_false {A} (F : A -> bool) xs j :
  nth j (map F xs) false =
  match nth_error xs j with Some x => F x | None => false end.
Proof.
  revert j. induction xs as [|x xs IH]; intros [|j]; cbn; auto.
Qed.

Lemma xor_all_pointwise {A} (f g : A -> bool) l :
  xor_all (map (fun t => xorb (f t) (g t)) l) =
  xorb (xor_all (map f l)) (xor_all (map g l)).
Proof.
  induction l as [|t l IH]; [reflexivity|]. cbn. rewrite IH.
  generalize (f t) (g t) (xor_all (map f l)) (xor_all (map g l)).
  intros a b c d. now destruct a, b, c, d.
Qed.

Lemma bit_of_lxor s1 s2 d1 d2 t :
  bit_of (Z.lxor s1 s2) (Z.lxor d1 d2) t =
  xorb (bit_of s1 d1 t) (bit_of s2 d2 t).
Proof. destruct t; cbn; apply Z.lxor_spec. Qed.

(** Bit [j] of [next]. *)
Lemma next_testbit e s d (j : nat) :
  Z.testbit (next e s d) (Z.of_nat j) =
  match nth_error (xors e) j with
  | Some l => sem s d l
  | None => false
  end.
Proof.
  unfold next. rewrite bits_to_Z_testbit, nth_map_false.
  destruct (nth_error (xors e) j); [apply reduce_xor_all|reflexivity].
Qed.

Lemma next_range e s d : 0 <= next e s d < 2 ^ Z.of_nat (length (xors e)).
Proof.
  unfold next.
  pose proof (bits_to_Z_range
                (map (fun l => reduce_xor (map (bit_of s d) l)) (xors e))) as H.
  now rewrite length_map in H.
Qed.

Lemma next_linear e s1 s2 d1 d2 :
  next e (Z.lxor s1 s2) (Z.lxor d1 d2) = Z.lxor (next e s1 d1) (next e s2 d2).
Proof.
  apply Z.bits_inj'. intros n Hn.
  rewrite <- (Z2Nat.id n) by exact Hn.
  rewrite Z.lxor_spec, !next_testbit.
  destruct (nth_error (xors e) (Z.to_nat n)) as [l|]; [|reflexivity].
  unfold sem. rewrite <- xor_all_pointwise.
  f_equal. apply map_ext. intros t. apply bit_of_lxor.
Qed.

(** A reference within the widths reads the same bit of the truncated
    inputs. *)
Lemma bit_of_mod W N s d t :
  ref_ok W N t = true ->
  bit_of (s mod 2 ^ Z.of_nat N) (d mod 2 ^ Z.of_nat W) t = bit_of s d t.
Proof.
  destruct t as [n|n]; cbn; intros H; apply Nat.ltb_lt in H;
    apply Z.mod_pow2_bits_low; lia.
Qed.

Lemma good_refs_ok N P (HN : (1 <= N)%nat) W c l :
  good N P W c -> In l c -> forallb (ref_ok W N) l = true.
Proof.
  intros Hc Hl. pose proof (good_xors_ok N P HN W c Hc) as H.
  rewrite forallb_forall in H. specialize (H l Hl).
  unfold xors_ok in H. destruct l; [discriminate|exact H].
Qed.

End NetworkFacts.

(** X3. The output of an engine is linear over GF(2): the output for the
    xor of two states and the xor of two data words is the xor of the two
    outputs. *)
Theorem engine_next_linear (e : Engine.engine) (s1 s2 d1 d2 : Z) :
  Engine.next e (Z.lxor s1 s2) (Z.lxor d1 d2) =
  Z.lxor (Engine.next e s1 d1) (Engine.next e s2 d2).
Proof. apply NetworkFacts.next_linear. Qed.

(** X4. The output of an elaborated engine fits the register width, and
    it reads nothing but the [N] low bits of [last] and the [W] low bits
    of [data]. *)
Theorem engine_next_width (W N : nat) (P : Z) (e : Engine.engine) (s d : Z) :
  Engine.LiteEthMACCRCEngine W N P = Some e ->
  0 <= Engine.next e s d < 2 ^ Z.of_nat N /\
  Engine.next e s d =
  Engine.next e (s mod 2 ^ Z.of_nat N) (d mod 2 ^ Z.of_nat W).
Proof.
  intros He. destruct (EngineCorrect.built_pos W N P e He) as (HW & HN).
  destruct (EngineCorrect.engine_built N P HN W HW) as (c & E & Hc).
  rewrite E in He. injection He as <-.
  split.
  - pose proof (NetworkFacts.next_range
                  {| Engine.data_width := W; Engine.width := N;
                     Engine.xors := c |} s d) as H.
    cbn [Engine.xors] in H. destruct Hc as (Hl & _). now rewrite Hl in H.
  - unfold Engine.next. cbn [Engine.xors]. f_equal.
    apply map_ext_in. intros l Hl. f_equal.
    apply map_ext_in. intros t Ht. symmetry.
    apply NetworkFacts.bit_of_mod.
    pose proof (NetworkFacts.good_refs_ok N P HN W c l Hc Hl) as H.
    rewrite forallb_forall in H. now apply H.
Qed.

Lemma engine_next_width_witness :
  0 <= Engine.next (Instances.elaborated_engine
                      (Engine.LiteEthMACCRCEngine 8 32 0x04C11DB7))
                   0x1FFFFFFFF 0x1A5 < 2 ^ Z.of_nat 32 /\
  Engine.next (Instances.elaborated_engine
                 (Engine.LiteEthMACCRCEngine 8 32 0x04C11DB7)) 0x1FFFFFFFF 0x1A5 =
  Engine.next (Instances.elaborated_engine
                 (Engine.LiteEthMACCRCEngine 8 32 0x04C11DB7))
              (0x1FFFFFFFF mod 2 ^ Z.of_nat 32) (0x1A5 mod 2 ^ Z.of_nat 8).
Proof.
  apply (engine_next_width 8 32 0x04C11DB7). vm_compute. reflexivity.
Defined.

(** ** The recurrence loses nothing: one-to-one in the register and in
    the data *)

Module LfsrInjective.
Import Engine EngineSem EngineFacts EngineCorrect BitFacts LfsrFacts.

(** Two words with the same [m] low bits. *)
Lemma agree_mod (m : nat) a b :
  (forall j, (j < m)%nat -> Z.testbit a (Z.of_nat j) = Z.testbit b (Z.of_nat j)) ->
  a mod 2 ^ Z.of_nat m = b mod 2 ^ Z.of_nat m.
Proof.
  intros H. apply Z.bits_inj'. intros j Hj.
  destruct (Z.lt_ge_cases j (Z.of_nat m)).
  - rewrite !Z.mod_pow2_bits_low by lia.
    specialize (H (Z.to_nat j)). rewrite Z2Nat.id in H by lia. apply H. lia.
  - now rewrite !Z.mod_pow2_bits_high by lia.
Qed.

Lemma mod_agree (m : nat) a b (j : nat) :
  a mod 2 ^ Z.of_nat m = b mod 2 ^ Z.of_nat m -> (j < m)%nat ->
  Z.testbit a (Z.of_nat j) = Z.testbit b (Z.of_nat j).
Proof.
  intros H Hj.
  rewrite <- (Z.mod_pow2_bits_low a (Z.of_nat m)) by lia.
  rewrite <- (Z.mod_pow2_bits_low b (Z.of_nat m)) by lia.
  now rewrite H.
Qed.

Lemma data_bits_mod W d : data_bits W (d mod 2 ^ Z.of_nat W) = data_bits W d.
Proof.
  unfold data_bits. apply map_ext_in. intros j Hj. apply in_seq in Hj.
  apply Z.mod_pow2_bits_low. lia.
Qed.

Lemma data_bits_inj W d1 d2 :
  data_bits W d1 = data_bits W d2 ->
  d1 mod 2 ^ Z.of_nat W = d2 mod 2 ^ Z.of_nat W.
Proof.
  intros H. apply agree_mod. intros j Hj.
  assert (E : nth j (data_bits W d1) false = nth j (data_bits W d2) false)
    by now rewrite H.
  unfold data_bits in E.
  rewrite !(NetworkFacts.nth_map_false), nth_error_seq0 in E by exact Hj.
  exact E.
Qed.

Lemma data_bits_length W d : length (data_bits W d) = W.
Proof. unfold data_bits. now rewrite length_map, length_seq. Qed.

Lemma data_bits_shift W1 W2 d k :
  map (fun i => Z.testbit d (Z.of_nat i)) (seq (k + W1) W2) =
  map (fun i => Z.testbit (Z.shiftr d (Z.of_nat W1)) (Z.of_nat i)) (seq k W2).
Proof.
  revert k. induction W2 as [|W2 IH]; intros k; [reflexivity|].
  cbn [seq map]. f_equal.
  - rewrite Z.shiftr_spec by lia. f_equal. lia.
  - apply (IH (S k)).
Qed.

Lemma data_bits_app W1 W2 d :
  data_bits (W1 + W2) d =
  data_bits W1 d ++ data_bits W2 (Z.shiftr d (Z.of_nat W1)).
Proof.
  unfold data_bits. rewrite seq_app, map_app. f_equal.
  apply (data_bits_shift W1 W2 d 0).
Qed.

Section Lfsr.
Variable N : nat.
Variable P : Z.
Hypothesis N_pos : (1 <= N)%nat.

(** From the low bits of the register after a shift: the feedback of the
    shift and the low bits of the register before it. *)
Lemma lfsr_shift_back (m : nat) s1 s2 b1 b2 :
  (S m <= N)%nat ->
  (forall j, (j < S m)%nat ->
     Z.testbit (lfsr_shift N P s1 b1) (Z.of_nat j) =
     Z.testbit (lfsr_shift N P s2 b2) (Z.of_nat j)) ->
  feedback N s1 b1 = feedback N s2 b2 /\
  (forall j, (j < m)%nat -> Z.testbit s1 (Z.of_nat j) = Z.testbit s2 (Z.of_nat j)).
Proof.
  intros Hm H.
  assert (Hf : feedback N s1 b1 = feedback N s2 b2).
  { pose proof (H 0%nat ltac:(lia)) as H0.
    now rewrite !(lfsr_shift_bit N P N_pos) in H0 by lia. }
  split; [exact Hf|]. intros j Hj.
  pose proof (H (S j) ltac:(lia)) as HS.
  rewrite !(lfsr_shift_bit N P N_pos) in HS by lia. rewrite Hf in HS.
  revert HS.
  generalize (Z.testbit s1 (Z.of_nat j)) (Z.testbit s2 (Z.of_nat j))
             (feedback N s2 b2 && Z.testbit P (Z.of_nat (S j))).
  intros p q r. now destruct p, q, r.
Qed.

(** Only the [N] low bits of the register are read. *)
Lemma lfsr_shift_mod s b :
  lfsr_shift N P (s mod 2 ^ Z.of_nat N) b = lfsr_shift N P s b.
Proof.
  apply (in_range_ext N N_pos); try apply (lfsr_shift_range N P N_pos).
  intros j Hj. rewrite !(lfsr_shift_bit N P N_pos) by exact Hj.
  unfold feedback. rewrite Z.mod_pow2_bits_low by lia.
  destruct j as [|j']; [reflexivity|].
  now rewrite Z.mod_pow2_bits_low by lia.
Qed.

Lemma lfsr_feed_mod s bits :
  bits <> [] ->
  lfsr_feed N P (s mod 2 ^ Z.of_nat N) bits = lfsr_feed N P s bits.
Proof.
  destruct bits as [|b bits]; [congruence|]. intros _.
  unfold lfsr_feed. cbn. now rewrite lfsr_shift_mod.
Qed.

(** One shift is one-to-one on the register: with the same data bit, the
    registers before agree when the registers after do. *)
Lemma lfsr_shift_inj s1 s2 b :
  lfsr_shift N P s1 b = lfsr_shift N P s2 b ->
  forall j, (j < N)%nat -> Z.testbit s1 (Z.of_nat j) = Z.testbit s2 (Z.of_nat j).
Proof.
  intros E.
  destruct (lfsr_shift_back (N - 1) s1 s2 b b ltac:(lia)) as (Hf & Hlow).
  { intros j _. now rewrite E. }
  intros j Hj. destruct (Nat.eq_dec j (N - 1)) as [->|Hne].
  - unfold feedback in Hf.
    replace (Z.of_nat (N - 1)) with (Z.of_nat N - 1) by lia.
    revert Hf.
    generalize (Z.testbit s1 (Z.of_nat N - 1)) (Z.testbit s2 (Z.of_nat N - 1)).
    intros p q. now destruct p, q, b.
  - apply Hlow. lia.
Qed.

Lemma lfsr_feed_inj bits s1 s2 :
  in_range N s1 -> in_range N s2 ->
  lfsr_feed N P s1 bits = lfsr_feed N P s2 bits -> s1 = s2.
Proof.
  revert s1 s2. induction bits as [|b bits IH]; intros s1 s2 H1 H2 E.
  - exact E.
  - unfold lfsr_feed in *. cbn in E.
    apply IH in E; try apply (lfsr_shift_range N P N_pos).
    apply (in_range_ext N N_pos); trivial.
    now apply lfsr_shift_inj with (b := b).
Qed.

(** From one register value, two bit strings of the same length, no
    longer than the register, lead to different values unless they are
    equal. *)
Lemma lfsr_feed_data_inj s bits1 :
  forall bits2,
  length bits1 = length bits2 -> (length bits1 <= N)%nat ->
  (forall j, (j < length bits1)%nat ->
     Z.testbit (lfsr_feed N P s bits1) (Z.of_nat j) =
     Z.testbit (lfsr_feed N P s bits2) (Z.of_nat j)) ->
  bits1 = bits2.
Proof.
  induction bits1 as [|x1 b1 IH] using rev_ind; intros bits2 Hlen HN H.
  - destruct bits2; [reflexivity|discriminate].
  - destruct (exists_last (l := bits2)) as (b2 & x2 & ->).
    { intros ->. rewrite length_app in Hlen. cbn in Hlen. lia. }
    rewrite !length_app in *. cbn [length] in *.
    rewrite !(lfsr_feed_snoc N P) in H.
    destruct (lfsr_shift_back (length b1) (lfsr_feed N P s b1)
                (lfsr_feed N P s b2) x1 x2 ltac:(lia)) as (Hf & Hlow).
    { intros j Hj. apply H. lia. }
    assert (E : b1 = b2).
    { apply IH; [lia|lia|exact Hlow]. }
    subst b2. f_equal. f_equal.
    unfold feedback in Hf. revert Hf.
    generalize (Z.testbit (lfsr_feed N P s b1) (Z.of_nat N - 1)).
    intros p. now destruct p, x1, x2.
Qed.

(** The output of an elaborated engine, for any value of [last]. *)
Lemma next_serial_any W c s d :
  good N P W c ->
  next {| data_width := W; width := N; xors := c |} s d =
  lfsr_feed N P (s mod 2 ^ Z.of_nat N) (data_bits W d).
Proof.
  intros Hc.
  rewrite <- (next_of_good N P N_pos W c _ d Hc).
  2:{ apply Z.mod_pos_bound. apply Z.pow_pos_nonneg; lia. }
  unfold next. cbn [xors]. f_equal.
  apply map_ext_in. intros l Hl. f_equal.
  apply map_ext_in. intros t Ht.
  pose proof (NetworkFacts.good_refs_ok N P N_pos W c l Hc Hl) as H.
  rewrite forallb_forall in H. specialize (H t Ht).
  destruct t as [n|n]; cbn in *; [|reflexivity].
  apply Nat.ltb_lt in H. symmetry. apply Z.mod_pow2_bits_low. lia.
Qed.

End Lfsr.

(** No engine elaborates with a register of width 0. *)
Lemma built_width_0 W P e : LiteEthMACCRCEngine W 0 P = Some e -> False.
Proof. intros He. apply built_pos in He. lia. Qed.

(** Elaboration with a register of width at least 1. *)
Lemma built_good W N P e :
  (1 <= N)%nat -> LiteEthMACCRCEngine W N P = Some e ->
  exists c, e = {| data_width := W; width := N; xors := c |} /\ good N P W c.
Proof.
  intros HN He. destruct (built_pos W N P e He) as (HW & _).
  destruct (engine_built N P HN W HW) as (c & E & Hc).
  rewrite E in He. injection He as <-. eauto.
Qed.

End LfsrInjective.

(** X5. For a fixed data word the engine permutes the register values:
    two values of [last] with the same output have the same [N] low bits,
    and every [N]-bit value is the output for some [N]-bit [last]. *)
Theorem engine_next_permutes_states (W N : nat) (P : Z) (e : Engine.engine) (d : Z) :
  Engine.LiteEthMACCRCEngine W N P = Some e ->
  (forall s1 s2, Engine.next e s1 d = Engine.next e s2 d ->
     s1 mod 2 ^ Z.of_nat N = s2 mod 2 ^ Z.of_nat N) /\
  (forall t, 0 <= t < 2 ^ Z.of_nat N ->
     exists s, 0 <= s < 2 ^ Z.of_nat N /\ Engine.next e s d = t).
Proof.
  intros He. destruct (Nat.le_gt_cases 1 N) as [HN|HN].
  - destruct (LfsrInjective.built_good W N P e HN He) as (c & -> & Hc).
    assert (Hr : forall s, EngineSem.in_range N (s mod 2 ^ Z.of_nat N)).
    { intros s. apply Z.mod_pos_bound. apply Z.pow_pos_nonneg; lia. }
    split.
    + intros s1 s2 E.
      rewrite !(LfsrInjective.next_serial_any N P HN W c) in E by exact Hc.
      now apply (LfsrInjective.lfsr_feed_inj N P HN) in E.
    + intros t Ht.
      destruct (LfsrFacts.lfsr_feed_onto N P HN (Engine.data_bits W d) t Ht)
        as (s & Hs & E).
      exists s. split; [exact Hs|].
      now rewrite (EngineCorrect.next_of_good N P HN W c s d Hc Hs).
  - assert (N = 0%nat) by lia. subst N.
    destruct (LfsrInjective.built_width_0 W P e He).
Qed.

Lemma engine_next_permutes_states_witness :
  (forall s1 s2,
     Engine.next (Instances.elaborated_engine
                    (Engine.LiteEthMACCRCEngine 8 32 0x04C11DB7)) s1 0xA5 =
     Engine.next (Instances.elaborated_engine
                    (Engine.LiteEthMACCRCEngine 8 32 0x04C11DB7)) s2 0xA5 ->
     s1 mod 2 ^ Z.of_nat 32 = s2 mod 2 ^ Z.of_nat 32) /\
  (forall t, 0 <= t < 2 ^ Z.of_nat 32 ->
     exists s, 0 <= s < 2 ^ Z.of_nat 32 /\
       Engine.next (Instances.elaborated_engine
                      (Engine.LiteEthMACCRCEngine 8 32 0x04C11DB7)) s 0xA5 = t).
Proof.
  apply (engine_next_permutes_states 8 32 0x04C11DB7). vm_compute. reflexivity.
Defined.

(** X6. Engines of the same register compose: the engine for [W1 + W2]
    data bits gives what the engine for [W2] bits gives, on the data bits
    from [W1] up, from the output of the engine for [W1] bits. *)
Theorem engine_next_compose (W1 W2 N : nat) (P : Z) (e1 e2 e12 : Engine.engine)
        (s d : Z) :
  Engine.LiteEthMACCRCEngine W1 N P = Some e1 ->
  Engine.LiteEthMACCRCEngine W2 N P = Some e2 ->
  Engine.LiteEthMACCRCEngine (W1 + W2) N P = Some e12 ->
  Engine.next e12 s d =
  Engine.next e2 (Engine.next e1 s d) (Z.shiftr d (Z.of_nat W1)).
Proof.
  intros H1 H2 H12. destruct (Nat.le_gt_cases 1 N) as [HN|HN].
  - destruct (LfsrInjective.built_good _ N P _ HN H1) as (c1 & -> & Hc1).
    destruct (LfsrInjective.built_good _ N P _ HN H2) as (c2 & -> & Hc2).
    destruct (LfsrInjective.built_good _ N P _ HN H12) as (c12 & -> & Hc12).
    rewrite (LfsrInjective.next_serial_any N P HN _ c12) by exact Hc12.
    rewrite (LfsrInjective.next_serial_any N P HN _ c1) by exact Hc1.
    rewrite (EngineCorrect.next_of_good N P HN _ c2) by
      (trivial; apply (LfsrFacts.lfsr_feed_range N P HN);
       apply Z.mod_pos_bound; apply Z.pow_pos_nonneg; lia).
    rewrite LfsrInjective.data_bits_app. unfold Engine.lfsr_feed.
    now rewrite fold_left_app.
  - assert (N = 0%nat) by lia. subst N.
    destruct (LfsrInjective.built_width_0 _ P _ H1).
Qed.

Lemma engine_next_compose_witness :
  Engine.next (Instances.elaborated_engine
                 (Engine.LiteEthMACCRCEngine (8 + 8) 32 0x04C11DB7))
              0xFFFFFFFF 0xBEEF =
  Engine.next (Instances.elaborated_engine
                 (Engine.LiteEthMACCRCEngine 8 32 0x04C11DB7))
              (Engine.next (Instances.elaborated_engine
                              (Engine.LiteEthMACCRCEngine 8 32 0x04C11DB7))
                           0xFFFFFFFF 0xBEEF)
              (Z.shiftr 0xBEEF (Z.of_nat 8)).
Proof.
  apply (engine_next_compose 8 8 32 0x04C11DB7); vm_compute; reflexivity.
Defined.

(** X7. When the data width is at most the register width, the output
    tells the data words apart: from the same [last], two data words with
    the same output have the same [W] low bits. *)
Theorem engine_next_separates_data (W N : nat) (P : Z) (e : Engine.engine)
        (s d1 d2 : Z) :
  Engine.LiteEthMACCRCEngine W N P = Some e ->
  (W <= N)%nat ->
  Engine.next e s d1 = Engine.next e s d2 ->
  d1 mod 2 ^ Z.of_nat W = d2 mod 2 ^ Z.of_nat W.
Proof.
  intros He HW E. destruct (Nat.le_gt_cases 1 N) as [HN|HN].
  - destruct (LfsrInjective.built_good W N P e HN He) as (c & -> & Hc).
    rewrite !(LfsrInjective.next_serial_any N P HN W c) in E by exact Hc.
    apply LfsrInjective.data_bits_inj.
    apply (LfsrInjective.lfsr_feed_data_inj N P HN (s mod 2 ^ Z.of_nat N)).
    + now rewrite !LfsrInjective.data_bits_length.
    + now rewrite LfsrInjective.data_bits_length.
    + intros j _. now rewrite E.
  - assert (W = 0%nat) by lia. subst W. cbn. now rewrite !Z.mod_1_r.
Qed.

Lemma engine_next_separates_data_witness :
  0x1A5 mod 2 ^ Z.of_nat 8 = 0xA5 mod 2 ^ Z.of_nat 8.
Proof.
  apply (engine_next_separates_data 8 32 0x04C11DB7
           (Instances.elaborated_engine
              (Engine.LiteEthMACCRCEngine 8 32 0x04C11DB7)) 0xFFFFFFFF).
  - vm_compute. reflexivity.
  - lia.
  - vm_compute. reflexivity.
Defined.

(** ** The unit on a bus of any width *)

Module WideFacts.
Import CRC32 EngineSem BitFacts LfsrFacts EngineCorrect CRC32Facts ResidueFacts
       LfsrInjective ByteWide.

Lemma mod_range s : in_range width (s mod 2 ^ Z.of_nat width).
Proof. apply Z.mod_pos_bound. apply Z.pow_pos_nonneg; lia. Qed.

Lemma data_bits_land W d :
  Engine.data_bits W (Z.land d (Z.ones (Z.of_nat W))) = Engine.data_bits W d.
Proof.
  unfold Engine.data_bits. apply map_ext_in. intros i Hi. apply in_seq in Hi.
  rewrite Z.land_spec, testbit_ones_low by lia. apply andb_true_r.
Qed.

Lemma data_bits_slice W v lo hi :
  hi = (lo + W)%nat ->
  Engine.data_bits W (Migen.slice v lo hi) =
  Engine.data_bits W (Z.shiftr v (Z.of_nat lo)).
Proof.
  intros ->. unfold Migen.slice. replace (lo + W - lo)%nat with W by lia.
  apply data_bits_land.
Qed.

(** What lane [e] computes, for any registers. *)
Lemma engine_next_any dwidth u regs data e :
  LiteEthMACCRC32 dwidth = Some u -> (e < dw u)%nat ->
  engine_next u regs data e =
  Engine.lfsr_feed width polynom (last regs 0 mod 2 ^ Z.of_nat width)
                   (Engine.data_bits ((e + 1) * 8) data).
Proof.
  intros Hu He.
  destruct (built_inv dwidth u Hu) as (_ & _ & _ & Hen).
  destruct (Hen e He) as (en & Een & Eb).
  unfold engine_next. rewrite Een.
  destruct (built_good _ width polynom en width_pos Eb) as (c & -> & Hc).
  rewrite (next_serial_any width polynom width_pos _ c) by exact Hc.
  now rewrite data_bits_land.
Qed.

Lemma engine_next_range dwidth u regs data e :
  LiteEthMACCRC32 dwidth = Some u -> (e < dw u)%nat ->
  in_range width (engine_next u regs data e).
Proof.
  intros Hu He. rewrite (engine_next_any dwidth) by assumption.
  apply (lfsr_feed_range width polynom width_pos). apply mod_range.
Qed.

Lemma regs_next_nth u regs d k :
  (k < dw u)%nat -> nth k (regs_next u regs d) 0 = engine_next u regs d k.
Proof.
  intros Hk. unfold regs_next.
  erewrite nth_indep by (rewrite length_map, length_seq; lia).
  rewrite (map_nth (engine_next u regs d) (seq 0 (dw u)) 0%nat k).
  now rewrite seq_nth by lia.
Qed.

Lemma regs_next_length u regs d : length (regs_next u regs d) = dw u.
Proof. unfold regs_next. now rewrite length_map, length_seq. Qed.

Lemma last_nth (l : list Z) : last l 0 = nth (length l - 1) l 0.
Proof.
  destruct l as [|a l0]; [reflexivity|].
  destruct (exists_last (l := a :: l0)) as (l' & x & E); [discriminate|].
  rewrite E, last_last, length_app. cbn [length].
  replace (length l' + 1 - 1)%nat with (length l') by lia.
  now rewrite nth_middle.
Qed.

(** The register of the top lane after an update. *)
Lemma top_next dwidth u regs d :
  LiteEthMACCRC32 dwidth = Some u -> (1 <= dw u)%nat ->
  last (regs_next u regs d) 0 =
  Engine.lfsr_feed width polynom (last regs 0 mod 2 ^ Z.of_nat width)
                   (Engine.data_bits (dw u * 8) d).
Proof.
  intros Hu Hdw. rewrite last_nth, regs_next_length.
  rewrite regs_next_nth by lia.
  rewrite (engine_next_any dwidth) by (trivial; lia).
  do 2 f_equal. lia.
Qed.

Lemma selected_lane_0 u : CRC32Spec.selected_lane u 0 = (dw u - 1)%nat.
Proof. reflexivity. Qed.

(** The residue flag, for [last_be = 0]. *)
Lemma error_top dwidth u regs t :
  LiteEthMACCRC32 dwidth = Some u -> (1 <= dw u)%nat ->
  error u regs t 0 =
  negb (Engine.lfsr_feed width polynom (last regs 0 mod 2 ^ Z.of_nat width)
                         (Engine.data_bits (dw u * 8) t) =? check).
Proof.
  intros Hu Hdw. unfold error.
  rewrite (outputs_lane u regs t 0) by (try assumption; try (split; [lia|apply Z.pow_pos_nonneg; lia])).
  cbn [snd]. rewrite selected_lane_0.
  rewrite (engine_next_any dwidth) by (trivial; lia).
  do 4 f_equal. lia.
Qed.

(** The visible value, for [last_be = 0]. *)
Lemma value_top u regs :
  (1 <= dw u)%nat -> length regs = dw u ->
  value u regs 0 = invert width (reverse_bits width (last regs 0)).
Proof.
  intros Hdw Hlen. unfold value.
  rewrite (outputs_lane u regs 0 0) by (try assumption; try (split; [lia|apply Z.pow_pos_nonneg; lia])).
  cbn [fst]. rewrite selected_lane_0, last_nth, Hlen. reflexivity.
Qed.

Lemma value_bits_top r :
  Engine.data_bits width (invert width (reverse_bits width r)) =
  map (fun i => negb (Z.testbit r (Z.of_nat (width - 1 - i)))) (seq 0 width).
Proof.
  unfold Engine.data_bits. apply map_ext_in. intros j Hj. apply in_seq in Hj.
  rewrite invert_testbit, reverse_bits_testbit by lia. reflexivity.
Qed.

Lemma feed_cat s a b :
  Engine.lfsr_feed width polynom (Engine.lfsr_feed width polynom s a) b =
  Engine.lfsr_feed width polynom s (a ++ b).
Proof. unfold Engine.lfsr_feed. now rewrite fold_left_app. Qed.

(** The residue flag on the word [t] after the words [front]. *)
Lemma error_after dwidth u front regs t :
  LiteEthMACCRC32 dwidth = Some u -> (1 <= dw u)%nat ->
  error u (fold_left (regs_next u) front regs) t 0 =
  negb (Engine.lfsr_feed width polynom (last regs 0 mod 2 ^ Z.of_nat width)
          (concat (map (Engine.data_bits (dw u * 8)) (front ++ [t]))) =? check).
Proof.
  intros Hu Hdw. revert regs.
  induction front as [|a front IH]; intros regs.
  - cbn [fold_left app map concat]. rewrite app_nil_r.
    now apply (error_top dwidth).
  - cbn [fold_left app map concat]. rewrite IH.
    rewrite (top_next dwidth) by assumption.
    rewrite Z.mod_small, feed_cat; [reflexivity|].
    apply (lfsr_feed_range width polynom width_pos). apply mod_range.
Qed.

(** The bits of a word, cut in [n] chunks of [W] bits. *)
Lemma data_bits_chunks W n v :
  Engine.data_bits (n * W) v =
  concat (map (fun i => Engine.data_bits W (Migen.slice v (i * W) ((i + 1) * W)))
              (seq 0 n)).
Proof.
  induction n as [|n IH]; [reflexivity|].
  rewrite seq_S, map_app, concat_app. cbn [Nat.add map concat].
  rewrite app_nil_r, <- IH.
  replace (S n * W)%nat with (n * W + W)%nat by lia.
  rewrite data_bits_app. f_equal.
  symmetry. apply data_bits_slice. lia.
Qed.

Lemma concat_bits_length W ts :
  length (concat (map (Engine.data_bits W) ts)) = (length ts * W)%nat.
Proof.
  induction ts as [|t ts IH]; [reflexivity|].
  cbn [map concat length]. rewrite length_app, data_bits_length, IH. lia.
Qed.

Lemma app_eq_length {A} (a b x y : list A) :
  length a = length b -> a ++ x = b ++ y -> a = b /\ x = y.
Proof.
  revert b. induction a as [|h a IH]; intros [|h' b] Hl E; try discriminate.
  - auto.
  - cbn in Hl, E. injection E as -> E. destruct (IH b ltac:(lia) E) as (-> & ->).
    auto.
Qed.

Lemma concat_bits_inj W ts zs :
  length ts = length zs ->
  concat (map (Engine.data_bits W) ts) = concat (map (Engine.data_bits W) zs) ->
  map (fun t => t mod 2 ^ Z.of_nat W) ts = map (fun t => t mod 2 ^ Z.of_nat W) zs.
Proof.
  revert zs. induction ts as [|t ts IH]; intros [|z zs] Hl E; try discriminate.
  - reflexivity.
  - cbn [map concat] in *.
    apply app_eq_length in E; [|now rewrite !data_bits_length].
    destruct E as (E1 & E2). f_equal.
    + now apply data_bits_inj.
    + apply IH; [cbn in Hl; lia|exact E2].
Qed.

Lemma concat_bits_mod W ts zs :
  map (fun t => t mod 2 ^ Z.of_nat W) ts = map (fun t => t mod 2 ^ Z.of_nat W) zs ->
  concat (map (Engine.data_bits W) ts) = concat (map (Engine.data_bits W) zs).
Proof.
  revert zs. induction ts as [|t ts IH]; intros [|z zs] E; try discriminate.
  - reflexivity.
  - cbn [map concat] in *. injection E as E1 E2. f_equal.
    + now rewrite <- (data_bits_mod W t), E1, data_bits_mod.
    + now apply IH.
Qed.

Lemma slice_mod v lo W hi :
  hi = (lo + W)%nat ->
  Migen.slice v lo hi mod 2 ^ Z.of_nat W = Migen.slice v lo hi.
Proof.
  intros ->. unfold Migen.slice. replace (lo + W - lo)%nat with W by lia.
  rewrite Z.land_ones by lia. apply Z.mod_mod.
  apply Z.pow_nonzero; lia.
Qed.

(** The residue: from the register [r], a string of [N] bits leads to the
    residue constant exactly when it is the complement of [r], top bit
    first. *)
Lemma residue_unique N P (HN : (1 <= N)%nat) r bits :
  in_range N r -> length bits = N ->
  (Engine.lfsr_feed N P r bits = Engine.lfsr_feed N P 0 (repeat true N) <->
   bits = map (fun i => negb (Z.testbit r (Z.of_nat (N - 1 - i)))) (seq 0 N)).
Proof.
  intros Hr Hl. split.
  - intros E. apply (lfsr_feed_data_inj N P HN r).
    + now rewrite length_map, length_seq.
    + lia.
    + intros j _. now rewrite E, (residue_constant N P HN r Hr).
  - intros ->. now apply residue_constant.
Qed.

Lemma value_range u regs last_be : in_range width (value u regs last_be).
Proof.
  unfold value, outputs.
  assert (H0 : in_range width (fst ((0, false) : Z * bool))).
  { cbn. unfold in_range. split; [lia|]. apply Z.pow_pos_nonneg; lia. }
  revert H0. generalize ((0, false) : Z * bool). generalize (seq 0 (dw u)).
  intros l. induction l as [|e l IH]; intros acc Hacc; [exact Hacc|].
  cbn [fold_left]. apply IH.
  destruct (Z.testbit (last_be_sel u last_be) (Z.of_nat e)); [|exact Hacc].
  cbn [fst]. apply invert_range.
Qed.

Section Unit8.
Variable u8 : CRC32.unit.
Hypothesis Hu8 : LiteEthMACCRC32 8 = Some u8.

Lemma byte_step r b :
  regs_next u8 [r] b =
  [Engine.lfsr_feed width polynom (r mod 2 ^ Z.of_nat width) (Engine.data_bits 8 b)].
Proof.
  unfold regs_next. rewrite (dw_one u8 Hu8). cbn [seq map].
  rewrite (engine_next_any 8 u8 [r] b 0 Hu8) by (rewrite (dw_one u8 Hu8); lia).
  reflexivity.
Qed.

Lemma bytes_fold d n r :
  fold_left (regs_next u8) (CRC32Spec.bytes_of (S n) d) [r] =
  [Engine.lfsr_feed width polynom (r mod 2 ^ Z.of_nat width)
                    (Engine.data_bits (S n * 8) d)].
Proof.
  induction n as [|n IH].
  - cbn [CRC32Spec.bytes_of seq map fold_left]. rewrite byte_step.
    do 2 f_equal. etransitivity; [apply (data_bits_slice 8 d 0); lia|].
    cbn [Z.of_nat]. now rewrite Z.shiftr_0_r.
  - unfold CRC32Spec.bytes_of in *. rewrite seq_S, map_app, fold_left_app, IH.
    cbn [Nat.add map fold_left]. rewrite byte_step.
    rewrite Z.mod_small, feed_cat.
    2:{ apply (lfsr_feed_range width polynom width_pos). apply mod_range. }
    do 2 f_equal.
    replace (S (S n) * 8)%nat with (S n * 8 + 8)%nat by lia.
    rewrite data_bits_app. f_equal.
    apply data_bits_slice. lia.
Qed.

End Unit8.
End WideFacts.

Module WideCheck.

(** The residue check accepts one trailer only. *)
Lemma check_exact (dwidth : nat) (u : CRC32.unit)
        (regs : CRC32.regs_t) (ts : list Z) :
  CRC32.LiteEthMACCRC32 dwidth = Some u ->
  dwidth = 8%nat \/ dwidth = 16%nat \/ dwidth = 32%nat ->
  length regs = CRC32.dw u ->
  length ts = (32 / dwidth)%nat ->
  (CRC32.error u (fold_left (CRC32.regs_next u) (removelast ts) regs)
               (last ts 0) 0 = false <->
   map (fun t => t mod 2 ^ Z.of_nat dwidth) ts =
   map (fun i => Migen.slice (CRC32.value u regs 0) (i * dwidth) ((i + 1) * dwidth))
       (seq 0 (32 / dwidth))).
Proof.
  intros Hu Hd Hlen Hts.
  destruct (CRC32Facts.built_inv dwidth u Hu) as (_ & Hdw & _).
  assert (HW : (CRC32.dw u * 8 = dwidth)%nat).
  { rewrite Hdw. destruct Hd as [ -> | [ -> | -> ] ]; reflexivity. }
  assert (Hpos : (1 <= CRC32.dw u)%nat).
  { rewrite Hdw. destruct Hd as [ -> | [ -> | -> ] ]; cbn; lia. }
  assert (Hn : (32 / dwidth * dwidth = 32)%nat).
  { destruct Hd as [ -> | [ -> | -> ] ]; reflexivity. }
  assert (Hne : ts <> []).
  { intros ->. cbn in Hts. destruct Hd as [ -> | [ -> | -> ] ]; discriminate. }
  rewrite (WideFacts.error_after dwidth) by assumption.
  rewrite <- app_removelast_last by exact Hne.
  rewrite HW, negb_false_iff, Z.eqb_eq, <- ResidueFacts.residue_crc32.
  set (r := last regs 0 mod 2 ^ Z.of_nat CRC32.width).
  assert (Hr : EngineSem.in_range CRC32.width r) by apply WideFacts.mod_range.
  assert (Hbits : length (concat (map (Engine.data_bits dwidth) ts)) = CRC32.width).
  { rewrite WideFacts.concat_bits_length, Hts. exact Hn. }
  rewrite (WideFacts.residue_unique CRC32.width CRC32.polynom ByteWide.width_pos
             r _ Hr Hbits).
  assert (Hv : map (fun i => negb (Z.testbit r (Z.of_nat (CRC32.width - 1 - i))))
                   (seq 0 CRC32.width) =
               concat (map (Engine.data_bits dwidth)
                 (map (fun i => Migen.slice (CRC32.value u regs 0)
                                            (i * dwidth) ((i + 1) * dwidth))
                      (seq 0 (32 / dwidth))))).
  { rewrite map_map, <- WideFacts.data_bits_chunks, Hn.
    rewrite WideFacts.value_top by assumption.
    change 32%nat with CRC32.width. rewrite WideFacts.value_bits_top.
    apply map_ext_in. intros i Hi. apply in_seq in Hi.
    unfold r. rewrite Z.mod_pow2_bits_low; [reflexivity|]. lia. }
  rewrite Hv. split.
  - intros E. apply WideFacts.concat_bits_inj in E.
    2:{ now rewrite length_map, length_seq. }
    rewrite E, map_map. apply map_ext. intros i.
    apply WideFacts.slice_mod. lia.
  - intros E. apply WideFacts.concat_bits_mod.
    rewrite E, map_map. apply map_ext. intros i.
    symmetry. apply WideFacts.slice_mod. lia.
Qed.

End WideCheck.


(** X8. The width of the bus does not change the CRC: after an update with
    the word [d], lane [k] of a unit of any width holds what the byte-wide
    unit holds after [k + 1] updates with the [k + 1] low bytes of [d],
    the lowest first, from the register of the top lane. *)
Theorem crc32_lane_is_bytewise (dwidth : nat) (u u8 : CRC32.unit)
        (regs : CRC32.regs_t) (d : Z) (k : nat) :
  CRC32.LiteEthMACCRC32 dwidth = Some u ->
  CRC32.LiteEthMACCRC32 8 = Some u8 ->
  (k < CRC32.dw u)%nat ->
  fold_left (CRC32.regs_next u8) (CRC32Spec.bytes_of (k + 1) d) [last regs 0] =
  [nth k (CRC32.regs_next u regs d) 0].
Proof.
  intros Hu Hu8 Hk.
  rewrite WideFacts.regs_next_nth by exact Hk.
  rewrite (WideFacts.engine_next_any dwidth) by assumption.
  replace (k + 1)%nat with (S k) by lia.
  apply (WideFacts.bytes_fold u8 Hu8).
Qed.

Lemma crc32_lane_is_bytewise_witness :
  fold_left (CRC32.regs_next (Instances.elaborated (CRC32.LiteEthMACCRC32 8)))
            (CRC32Spec.bytes_of (2 + 1) 0x11223344) [last [5; 7; 9; 11] 0] =
  [nth 2 (CRC32.regs_next (Instances.elaborated (CRC32.LiteEthMACCRC32 32))
                          [5; 7; 9; 11] 0x11223344) 0].
Proof.
  apply (crc32_lane_is_bytewise 32).
  - vm_compute. reflexivity.
  - vm_compute. reflexivity.
  - vm_compute. lia.
Defined.

(** X9. The registers of the unit always fit 32 bits: the reset value and
    the value after any update hold one register per lane, each below
    [2^32], whatever the registers were before; [value] is below [2^32]
    too. *)
Theorem crc32_registers_fit (dwidth : nat) (u : CRC32.unit)
        (regs : CRC32.regs_t) (d last_be : Z) :
  CRC32.LiteEthMACCRC32 dwidth = Some u ->
  length (CRC32.regs_reset u) = CRC32.dw u /\
  Forall (fun r => 0 <= r < 2 ^ 32) (CRC32.regs_reset u) /\
  length (CRC32.regs_next u regs d) = CRC32.dw u /\
  Forall (fun r => 0 <= r < 2 ^ 32) (CRC32.regs_next u regs d) /\
  0 <= CRC32.value u regs last_be < 2 ^ 32.
Proof.
  intros Hu. split; [|split; [|split; [|split]]].
  - unfold CRC32.regs_reset. apply repeat_length.
  - unfold CRC32.regs_reset. apply Forall_forall. intros r Hr.
    apply repeat_spec in Hr. subst r. apply ByteWide.init_range.
  - apply WideFacts.regs_next_length.
  - unfold CRC32.regs_next. apply Forall_forall. intros r Hr.
    apply in_map_iff in Hr. destruct Hr as (e & <- & He). apply in_seq in He.
    apply (WideFacts.engine_next_range dwidth); [exact Hu|lia].
  - apply WideFacts.value_range.
Qed.

Lemma crc32_registers_fit_witness :
  let u := Instances.elaborated (CRC32.LiteEthMACCRC32 16) in
  length (CRC32.regs_reset u) = CRC32.dw u /\
  Forall (fun r => 0 <= r < 2 ^ 32) (CRC32.regs_reset u) /\
  length (CRC32.regs_next u [2 ^ 40; -1] 0x1234) = CRC32.dw u /\
  Forall (fun r => 0 <= r < 2 ^ 32) (CRC32.regs_next u [2 ^ 40; -1] 0x1234) /\
  0 <= CRC32.value u [2 ^ 40; -1] 3 < 2 ^ 32.
Proof.
  apply (crc32_registers_fit 16). vm_compute. reflexivity.
Defined.

(** X10. The residue check accepts one trailer only.  For a bus of 8, 16
    or 32 bits, from any registers, the [32 / dw] words that follow leave
    the error flag clear on the last of them exactly when they are the
    visible [value] of these registers, cut in words, the low word
    first. *)
Theorem crc32_check_exact (dwidth : nat) (u : CRC32.unit)
        (regs : CRC32.regs_t) (ts : list Z) :
  CRC32.LiteEthMACCRC32 dwidth = Some u ->
  dwidth = 8%nat \/ dwidth = 16%nat \/ dwidth = 32%nat ->
  length regs = CRC32.dw u ->
  length ts = (32 / dwidth)%nat ->
  (CRC32.error u (fold_left (CRC32.regs_next u) (removelast ts) regs)
               (last ts 0) 0 = false <->
   map (fun t => t mod 2 ^ Z.of_nat dwidth) ts =
   map (fun i => Migen.slice (CRC32.value u regs 0) (i * dwidth) ((i + 1) * dwidth))
       (seq 0 (32 / dwidth))).
Proof. apply WideCheck.check_exact. Qed.

Lemma crc32_check_exact_witness :
  let u := Instances.elaborated (CRC32.LiteEthMACCRC32 16) in
  CRC32.error u (fold_left (CRC32.regs_next u) (removelast [0xFBCD; 0xB63C]) [5; 7])
              (last [0xFBCD; 0xB63C] 0) 0 = false <->
  map (fun t => t mod 2 ^ Z.of_nat 16) [0xFBCD; 0xB63C] =
  map (fun i => Migen.slice (CRC32.value u [5; 7] 0) (i * 16) ((i + 1) * 16))
      (seq 0 (32 / 16)).
Proof.
  apply (crc32_check_exact 16).
  - vm_compute. reflexivity.
  - right. left. reflexivity.
  - vm_compute. reflexivity.
  - vm_compute. reflexivity.
Defined.

(** ** The inserter on a stream of packets *)

Module InserterStream.
Import Stream Inserter InserterSpec Env InserterFacts.

#[local] Arguments Inserter.ratio : simpl never.
#[local] Arguments Nat.ltb : simpl never.

Lemma complete_tl (b : beat) (bs : list beat) : complete (b :: bs) -> complete bs.
Proof.
  unfold complete. destruct bs as [|b' bs]; [reflexivity|]. auto.
Qed.

Lemma complete_more p (bs : list beat) : complete ((p, false) :: bs) -> bs <> [].
Proof. intros H ->. cbn in H. discriminate. Qed.

Lemma packet_nonempty ps : ps <> [] -> packet ps <> [].
Proof. destruct ps as [|p [|p' ps]]; [congruence|discriminate|discriminate]. Qed.

Lemma last_packet ps d :
  ps <> [] -> snd (List.last (packet ps) d) = true.
Proof.
  induction ps as [|p ps IH]; [congruence|]. intros _.
  destruct ps as [|p' ps]; [reflexivity|].
  change (packet (p :: p' :: ps)) with ((p, false) :: packet (p' :: ps)).
  pose proof (packet_nonempty (p' :: ps) ltac:(discriminate)) as Hne.
  destruct (packet (p' :: ps)) as [|b bs] eqn:E; [congruence|].
  change (List.last ((p, false) :: b :: bs) d) with (List.last (b :: bs) d).
  apply IH. discriminate.
Qed.

Lemma last_app_cons {A} (a : list A) b bs d :
  List.last (a ++ b :: bs) d = List.last (b :: bs) d.
Proof.
  induction a as [|x a IH]; [reflexivity|].
  cbn [app]. rewrite <- IH.
  destruct (a ++ b :: bs) eqn:E; [|reflexivity].
  destruct a; discriminate.
Qed.

Lemma complete_packets pss :
  Forall (fun ps => ps <> []) pss -> complete (concat (map packet pss)).
Proof.
  induction 1 as [|ps pss Hps _ IH]; [reflexivity|].
  cbn [map concat]. unfold complete in *.
  destruct (concat (map packet pss)) as [|b bs] eqn:E.
  - rewrite app_nil_r. now apply last_packet.
  - rewrite last_app_cons. exact IH.
Qed.

Lemma starts_packet f ps (rest : list beat) :
  ps <> [] ->
  starts f (packet ps ++ rest) = ((if f then 1 else 0) + starts true rest)%nat.
Proof.
  revert f. induction ps as [|p ps IH]; [congruence|]. intros f _.
  destruct ps as [|p' ps]; [reflexivity|].
  change (packet (p :: p' :: ps)) with ((p, false) :: packet (p' :: ps)).
  cbn [app starts]. rewrite IH by discriminate. reflexivity.
Qed.

Lemma starts_packets pss :
  Forall (fun ps => ps <> []) pss ->
  starts true (concat (map packet pss)) = length pss.
Proof.
  induction 1 as [|ps pss Hps _ IH]; [reflexivity|].
  cbn [map concat length]. rewrite starts_packet by exact Hps. now rewrite IH.
Qed.

Section WithClass.
Variable crc : CRC.class.
Variable dw : nat.

Lemma wire_packet r ps (rest : list beat) :
  ps <> [] ->
  wire crc dw r (packet ps ++ rest) =
  map (fun p => (p, false)) ps ++
  crc_beats crc dw (CRC.value crc (absorb crc r ps) 0) ++
  wire crc dw (CRC.regs_reset crc) rest.
Proof.
  revert r. induction ps as [|p ps IH]; [congruence|]. intros r _.
  destruct ps as [|p' ps]; [reflexivity|].
  change (packet (p :: p' :: ps)) with ((p, false) :: packet (p' :: ps)).
  cbn [app wire map]. rewrite IH by discriminate. reflexivity.
Qed.

Lemma wire_packets pss :
  Forall (fun ps => ps <> []) pss ->
  wire crc dw (CRC.regs_reset crc) (concat (map packet pss)) =
  concat (map (inserted crc dw) pss).
Proof.
  induction 1 as [|ps pss Hps _ IH]; [reflexivity|].
  cbn [map concat]. rewrite wire_packet by exact Hps.
  unfold inserted. now rewrite IH, app_assoc.
Qed.

Lemma crc_rest_loaded v :
  crc_rest crc dw v (ratio crc dw - 1) = crc_beats crc dw v.
Proof. reflexivity. Qed.

Lemma crc_rest_one v c c' :
  (ratio crc dw <= 1)%nat -> crc_rest crc dw v c = crc_rest crc dw v c'.
Proof.
  intros H. unfold crc_rest.
  now replace (Nat.ltb 1 (ratio crc dw)) with false by (symmetry; apply Nat.ltb_ge; lia).
Qed.

(** One cycle: what is shown is the head of what is expected, and a cycle
    with both sides willing brings the end nearer. *)
Lemma cycle_expected s pending g r :
  steady crc dw s pending ->
  let c := cycle crc dw (s, pending) (g, r) in
  steady crc dw (fst (fst c)) (snd (fst c)) /\
  expected crc dw s pending =
    match snd c with Some b => [b] | None => [] end ++
    expected crc dw (fst (fst c)) (snd (fst c)) /\
  (todo crc dw (fst (fst c)) (snd (fst c)) <=
   todo crc dw s pending - (if g && r then 1 else 0))%nat.
Proof.
  intros (Hcomp & Hcopy). destruct s as [f rg c]. cbn [fsm cnt] in Hcopy.
  destruct f.
  - (* IDLE *)
    cbv zeta. rewrite cycle_idle. cbn [fst snd app].
    destruct pending as [|[p l] bs].
    + cbn [present valid endpoint0]. split; [|split].
      * split; [exact Hcomp|]. discriminate.
      * reflexivity.
      * unfold todo, expected. cbn. lia.
    + cbn [present valid]. destruct g.
      * split; [|split].
        -- split; [exact Hcomp|]. intros _. split; [discriminate|].
           cbn [cnt]. intros H. apply Nat.ltb_lt in H. now rewrite H.
        -- reflexivity.
        -- unfold todo, expected. cbn [fsm regs starts andb].
           destruct r; lia.
      * split; [|split].
        -- split; [exact Hcomp|]. discriminate.
        -- reflexivity.
        -- unfold todo, expected. cbn [fsm andb]. lia.
  - (* COPY *)
    destruct (Hcopy eq_refl) as (Hne & Hcnt).
    destruct pending as [|[p l] bs]; [congruence|].
    destruct (g && r) eqn:Egr.
    + apply andb_true_iff in Egr. destruct Egr as (-> & ->).
      cbv zeta. rewrite cycle_copy_accept. cbn [fst snd app].
      split; [|split].
      * split; [now apply complete_tl in Hcomp|].
        destruct l; [discriminate|]. intros _. split.
        -- now apply complete_more in Hcomp.
        -- exact Hcnt.
      * unfold expected. destruct l; cbn [fsm regs cnt wire]; [|reflexivity].
        destruct (Nat.ltb_spec 1 (ratio crc dw)) as [H|H].
        -- now rewrite (Hcnt H), crc_rest_loaded.
        -- now rewrite (crc_rest_one _ c (ratio crc dw - 1) H), crc_rest_loaded.
      * unfold todo, expected. destruct l; cbn [fsm regs cnt wire starts length].
        -- rewrite !length_app.
           destruct (Nat.ltb_spec 1 (ratio crc dw)) as [H|H].
           ++ rewrite (Hcnt H), crc_rest_loaded. lia.
           ++ rewrite (crc_rest_one _ c (ratio crc dw - 1) H), crc_rest_loaded. lia.
        -- lia.
    + cbv zeta. rewrite cycle_copy_stall.
      2:{ cbn [present valid]. exact Egr. }
      cbn [fst snd app]. split; [|split].
      * split; [exact Hcomp|]. intros _. split; [discriminate|exact Hcnt].
      * reflexivity.
      * lia.
  - (* CRC *)
    destruct (Nat.ltb_spec 1 (ratio crc dw)) as [H|H].
    + cbv zeta. rewrite cycle_crc_many by exact H. cbn [fst snd].
      assert (Hl : Nat.ltb 1 (ratio crc dw) = true) by now apply Nat.ltb_lt.
      destruct r.
      * destruct c as [|c'].
        -- split; [|split].
           ++ split; [exact Hcomp|]. discriminate.
           ++ unfold expected, crc_rest. cbn [fsm regs cnt]. rewrite Hl. reflexivity.
           ++ unfold todo, expected, crc_rest. cbn [fsm regs cnt]. rewrite Hl.
              cbn [chunks_from length app]. rewrite andb_true_r.
              destruct g; lia.
        -- split; [|split].
           ++ split; [exact Hcomp|]. discriminate.
           ++ unfold expected, crc_rest. cbn [fsm regs cnt]. rewrite Hl. reflexivity.
           ++ unfold todo, expected, crc_rest. cbn [fsm regs cnt]. rewrite Hl.
              cbn [chunks_from length app]. fold (chunks_from crc dw).
              destruct g; cbn [andb]; lia.
      * split; [|split].
        -- split; [exact Hcomp|]. discriminate.
        -- reflexivity.
        -- rewrite andb_false_r. lia.
    + cbv zeta. rewrite cycle_crc_one by exact H. cbn [fst snd].
      assert (Hl : Nat.ltb 1 (ratio crc dw) = false) by now apply Nat.ltb_ge.
      destruct r.
      * split; [|split].
        -- split; [exact Hcomp|]. discriminate.
        -- unfold expected, crc_rest. cbn [fsm regs cnt]. rewrite Hl. reflexivity.
        -- unfold todo, expected, crc_rest. cbn [fsm regs cnt]. rewrite Hl.
           cbn [length app]. destruct g; cbn [andb]; lia.
      * split; [|split].
        -- split; [exact Hcomp|]. discriminate.
        -- reflexivity.
        -- rewrite andb_false_r. lia.
Qed.

(** A run: what was released, followed by what is still expected, is what
    was expected at the start. *)
Lemma run_expected env s pending :
  steady crc dw s pending ->
  steady crc dw (fst (final crc dw (s, pending) env))
         (snd (final crc dw (s, pending) env)) /\
  expected crc dw s pending =
    released (trace crc dw (s, pending) env) ++
    expected crc dw (fst (final crc dw (s, pending) env))
             (snd (final crc dw (s, pending) env)) /\
  (todo crc dw (fst (final crc dw (s, pending) env))
        (snd (final crc dw (s, pending) env)) <=
   todo crc dw s pending - progress env)%nat.
Proof.
  revert s pending. induction env as [|[g r] env IH]; intros s pending Hs.
  - cbn. split; [exact Hs|]. split; [reflexivity|]. lia.
  - rewrite ins_trace_cons, ins_final_cons, ins_released_cons, progress_cons.
    destruct (cycle_expected s pending g r Hs) as (H1 & H2 & H3).
    destruct (cycle crc dw (s, pending) (g, r)) as [[s' pending'] o].
    cbn [fst snd] in *.
    destruct (IH s' pending' H1) as (I1 & I2 & I3).
    split; [exact I1|]. split.
    + rewrite H2, I2. now rewrite app_assoc.
    + lia.
Qed.

(** Nothing is left to do only in IDLE with nothing pending. *)
Lemma todo_0 s pending :
  steady crc dw s pending -> todo crc dw s pending = 0%nat ->
  fsm crc s = IDLE /\ pending = [] /\ expected crc dw s pending = [].
Proof.
  intros (Hcomp & Hcopy) H0. unfold todo in H0.
  assert (He : expected crc dw s pending = []).
  { destruct (expected crc dw s pending); [reflexivity|cbn in H0; lia]. }
  unfold expected in He. destruct s as [f rg c]. cbn [fsm regs cnt] in *.
  destruct f.
  - destruct pending as [|[p l] bs]; [auto|discriminate].
  - destruct (Hcopy eq_refl) as (Hne & _).
    destruct pending as [|[p l] bs]; [congruence|discriminate].
  - unfold crc_rest in He.
    destruct (Nat.ltb 1 (ratio crc dw)); [|discriminate].
    destruct c; discriminate.
Qed.

End WithClass.
End InserterStream.

(** X11. Packets through the inserter, one after the other, for any CRC
    unit and any width: whatever the producer and the consumer do, what
    was released so far is the beginning of the packets, each followed by
    its CRC, nothing else and nothing out of order; and once both sides
    were willing in enough cycles, one per element on the wire and one
    more per packet, all of it was released, the state machine is back
    in IDLE and nothing is pending. *)
Theorem inserter_packets (crc : CRC.class) (dw : nat)
        (pss : list (list Stream.payload)) (env : list (bool * bool)) :
  Forall (fun ps => ps <> []) pss ->
  let out := concat (map (InserterSpec.inserted crc dw) pss) in
  let start := (Inserter.reset_state crc dw, concat (map Stream.packet pss)) in
  (exists rest,
     out = Inserter.released (Inserter.trace crc dw start env) ++ rest) /\
  ((length out + length pss <= Env.progress env)%nat ->
   Inserter.released (Inserter.trace crc dw start env) = out /\
   Inserter.fsm crc (fst (Inserter.final crc dw start env)) = Inserter.IDLE /\
   snd (Inserter.final crc dw start env) = []).
Proof.
  intros Hpss out start.
  assert (Hs : InserterSpec.steady crc dw (fst start) (snd start)).
  { split; [now apply InserterStream.complete_packets|]. discriminate. }
  destruct (InserterStream.run_expected crc dw env _ _ Hs) as (H1 & H2 & H3).
  assert (E : InserterSpec.expected crc dw (fst start) (snd start) = out).
  { apply (InserterStream.wire_packets crc dw pss Hpss). }
  rewrite E in H2. change (fst start, snd start) with start in *.
  split.
  - eexists. exact H2.
  - intros Hp.
    assert (T : InserterSpec.todo crc dw (fst start) (snd start) =
                (length out + length pss)%nat).
    { unfold InserterSpec.todo. rewrite E. f_equal.
      apply (InserterStream.starts_packets pss Hpss). }
    rewrite T in H3.
    destruct (InserterStream.todo_0 crc dw _ _ H1 ltac:(lia)) as (F1 & F2 & F3).
    rewrite F3, app_nil_r in H2. auto.
Qed.

Lemma inserter_packets_witness :
  let crc := Instances.crc32_class 8 in
  let pss := [map Instances.byte [0x01; 0x02]; map Instances.byte [0x03]] in
  let env := (true, false) :: (false, true) :: repeat (true, true) 13 in
  let out := concat (map (InserterSpec.inserted crc 8) pss) in
  let start := (Inserter.reset_state crc 8, concat (map Stream.packet pss)) in
  (exists rest,
     out = Inserter.released (Inserter.trace crc 8 start env) ++ rest) /\
  ((length out + length pss <= Env.progress env)%nat ->
   Inserter.released (Inserter.trace crc 8 start env) = out /\
   Inserter.fsm crc (fst (Inserter.final crc 8 start env)) = Inserter.IDLE /\
   snd (Inserter.final crc 8 start env) = []).
Proof.
  intros crc pss env.
  apply (inserter_packets crc 8 pss env).
  repeat constructor; discriminate.
Defined.

(** ** The checker between packets and in its reset cycle *)

Module CheckerStream.
Import Stream Checker CheckerSpec Env InserterFacts CheckerFacts.

#[local] Arguments Checker.ratio : simpl never.
#[local] Arguments Nat.eqb : simpl never.

Section WithClass.
Variable crc : CRC.class.
Variable dw : nat.

(** With nothing pending a state other than RESET stays as it is. *)
Lemma idle_rest env s :
  fsm crc s <> RESET -> final crc dw (s, []) env = (s, []).
Proof.
  induction env as [|[g ready] env IH]; intros Hs; [reflexivity|].
  rewrite chk_final_cons. destruct s as [f r q]. cbn [fsm] in Hs.
  rewrite cycle_stall by (trivial; reflexivity).
  apply IH. exact Hs.
Qed.

(** With nothing pending the RESET state leads to the state that follows
    the reset cycle. *)
Lemma settle r q gr env :
  final crc dw ({| fsm := RESET; regs := r; fifo := q |}, []) (gr :: env) =
  (idle_state crc, []).
Proof.
  rewrite chk_final_cons. destruct gr as [g ready].
  change (cycle crc dw ({| fsm := RESET; regs := r; fifo := q |}, []) (g, ready))
    with (cycle crc dw ({| fsm := RESET; regs := r; fifo := q |}, []) (false, ready)).
  rewrite cycle_reset_gap. cbn [fst].
  apply idle_rest. discriminate.
Qed.

(** Where a packet leaves the checker. *)
Lemma run_final env gr1 f r q (rest : list beat) :
  f <> RESET -> (1 <= ratio crc dw)%nat -> (length q <= ratio crc dw)%nat ->
  last_only rest -> rest <> [] ->
  f = COPY \/ (2 <= length rest)%nat ->
  (length rest <= progress env)%nat ->
  final crc dw ({| fsm := f; regs := r; fifo := q |}, rest) (env ++ [gr1]) =
  (idle_state crc, []).
Proof.
  intros Hf Hr. revert f r q rest Hf.
  induction env as [|[g ready] env IH]; intros f r q rest Hf Hq Hl Hne Hc Hp.
  - destruct rest; [congruence|cbn in Hp; lia].
  - destruct rest as [|[p l] rest]; [congruence|].
    rewrite progress_cons in Hp. cbn [app]. rewrite chk_final_cons.
    assert (K : forall q',
              (length q' <= ratio crc dw)%nat ->
              (length rest <= progress env)%nat ->
              final crc dw
                ({| fsm := match f with COPY => if l then RESET else COPY | _ => COPY end;
                    regs := CRC.regs_next crc r (data p);
                    fifo := q' |}, rest) (env ++ [gr1]) = (idle_state crc, [])).
    { intros q' Hq' Hp'. destruct rest as [|e' rest'].
      - assert (l = true) by (cbn in Hl; exact Hl). subst l.
        destruct Hc as [-> | Hc]; [|cbn in Hc; lia].
        destruct env; apply settle.
      - assert (l = false) by (cbn in Hl; destruct Hl as [Hl _]; exact Hl). subst l.
        replace (match f with COPY => COPY | _ => COPY end) with COPY
          by (now destruct f).
        apply IH; trivial; try discriminate.
        + eapply last_only_tail. exact Hl.
        + now left. }
    destruct g.
    + destruct (Nat.eqb (length q) (ratio crc dw)) eqn:Ef.
      * apply Nat.eqb_eq in Ef. destruct ready.
        -- destruct q as [|h q0]; [cbn in Ef; lia|].
           rewrite cycle_shift by trivial.
           apply K; [rewrite length_app; cbn [length] in *; lia|cbn [length andb] in Hp; lia].
        -- rewrite cycle_stall.
           2: exact Hf.
           2:{ cbn [present valid].
               replace (Nat.eqb (length q) (ratio crc dw)) with true
                 by (symmetry; apply Nat.eqb_eq; exact Ef).
               reflexivity. }
           apply IH; trivial; cbn in Hp; exact Hp.
      * apply Nat.eqb_neq in Ef.
        rewrite cycle_fill by (trivial; lia).
        apply K; [rewrite length_app; cbn [length]; lia|destruct ready; cbn [length andb] in Hp; lia].
    + rewrite cycle_stall by (trivial; reflexivity).
      apply IH; trivial; cbn in Hp; exact Hp.
Qed.

(** The reset cycle with an element presented, whatever the FIFO holds:
    the element is accepted when the FIFO is not full or the consumer is
    ready, the FIFO and the registers are reset in any case. *)
Lemma cycle_reset_any r q p l (rest : list beat) ready :
  fst (cycle crc dw ({| fsm := RESET; regs := r; fifo := q |}, (p, l) :: rest)
             (true, ready)) =
  (idle_state crc,
   if negb (Nat.eqb (length q) (ratio crc dw)) || ready
   then rest else (p, l) :: rest) /\
  sink_ready (comb_of crc dw {| fsm := RESET; regs := r; fifo := q |}
                      (present true ((p, l) :: rest)) ready) =
  negb (Nat.eqb (length q) (ratio crc dw)) || ready.
Proof.
  unfold cycle, comb_of, step, idle_state, SyncFIFO.sync, SyncFIFO.level.
  cbn. destruct (Nat.eqb (length q) (ratio crc dw)), ready; cbn; split; reflexivity.
Qed.

(** The reset cycle with no element presented shows nothing. *)
Lemma cycle_reset_quiet r q (pending : list beat) ready :
  valid (src (snd (cycle crc dw ({| fsm := RESET; regs := r; fifo := q |}, pending)
                         (false, ready)))) = false /\
  pulse (snd (cycle crc dw ({| fsm := RESET; regs := r; fifo := q |}, pending)
                    (false, ready))) = false.
Proof. destruct pending as [|[? ?] ?]; split; reflexivity. Qed.

End WithClass.
End CheckerStream.

(** X12. The checker removes the last [ratio] elements of a packet, for
    any CRC unit and width, whether the CRC is right or not: fed after
    the reset cycle, a packet of [n] elements leaves as its first
    [n - ratio] elements, data and [last_be] unchanged and in order, with
    the [last] flags of the elements [ratio] places later, hence [last] on
    the final released element only; a packet of at most [ratio] elements
    releases nothing. *)
Theorem checker_strips_last_elements (crc : CRC.class) (dw : nat)
        (rest : list Stream.beat) (r0 : bool) (env : list (bool * bool)) :
  (1 <= Checker.ratio crc dw)%nat ->
  CheckerSpec.last_only rest ->
  (length rest <= Env.progress env)%nat ->
  let tr := Checker.trace crc dw (Checker.reset_state crc, rest)
                          ((false, r0) :: env) in
  map (fun b => (Stream.data (fst b), Stream.last_be (fst b)))
      (Checker.released tr) =
    map (fun b => (Stream.data (fst b), Stream.last_be (fst b)))
        (firstn (length rest - Checker.ratio crc dw) rest) /\
  map snd (Checker.released tr) = map snd (skipn (Checker.ratio crc dw) rest) /\
  length (Checker.released tr) = (length rest - Checker.ratio crc dw)%nat.
Proof.
  intros Hr Hl Hp tr.
  destruct (RoundTrip.checker_from_reset crc dw rest r0 env Hr Hl) as (R1 & _ & _).
  specialize (R1 Hp). fold tr in R1.
  assert (H1 : map (fun b => (Stream.data (fst b), Stream.last_be (fst b)))
                   (Checker.released tr) =
               map (fun b => (Stream.data (fst b), Stream.last_be (fst b)))
                   (firstn (length rest - Checker.ratio crc dw) rest)).
  { rewrite R1, (ExpectFacts.expect_payload crc dw Hr) by (cbn; lia).
    reflexivity. }
  split; [exact H1|]. split.
  - rewrite R1, (ExpectFacts.expect_last crc dw Hr) by (cbn; lia).
    cbn [length]. now rewrite Nat.sub_0_r.
  - apply (f_equal (@length _)) in H1. rewrite !length_map in H1.
    rewrite length_firstn in H1. unfold Stream.beat in *. lia.
Qed.

Lemma checker_strips_last_elements_witness :
  let crc := Instances.crc32_class 8 in
  let rest := Stream.packet (map Instances.byte [1; 2; 3; 4; 5; 6]) in
  let env := [(true, true); (true, false); (true, true); (false, true);
              (true, true); (true, true); (true, true); (true, true)] in
  let tr := Checker.trace crc 8 (Checker.reset_state crc, rest)
                          ((false, true) :: env) in
  map (fun b => (Stream.data (fst b), Stream.last_be (fst b)))
      (Checker.released tr) =
    map (fun b => (Stream.data (fst b), Stream.last_be (fst b)))
        (firstn (length rest - Checker.ratio crc 8) rest) /\
  map snd (Checker.released tr) = map snd (skipn (Checker.ratio crc 8) rest) /\
  length (Checker.released tr) = (length rest - Checker.ratio crc 8)%nat.
Proof.
  intros crc rest env.
  apply (checker_strips_last_elements crc 8 rest true env).
  - vm_compute. lia.
  - vm_compute. repeat split.
  - vm_compute. lia.
Defined.

(** X13. After a packet of at least two elements and one more cycle the
    checker is in the state that follows its reset cycle, whatever the
    packet and its CRC: in IDLE, the registers of the CRC unit at their
    reset value and the FIFO empty, nothing of the packet left behind. *)
Theorem checker_ready_for_next_packet (crc : CRC.class) (dw : nat)
        (rest : list Stream.beat) (r0 : bool) (env : list (bool * bool))
        (gr1 : bool * bool) :
  (1 <= Checker.ratio crc dw)%nat ->
  CheckerSpec.last_only rest ->
  (2 <= length rest)%nat ->
  (length rest <= Env.progress env)%nat ->
  Checker.final crc dw (Checker.reset_state crc, rest)
                ((false, r0) :: env ++ [gr1]) =
    ({| Checker.fsm := Checker.IDLE; Checker.regs := CRC.regs_reset crc;
        Checker.fifo := [] |}, []) /\
  Checker.final crc dw (Checker.reset_state crc, []) [(false, r0)] =
    ({| Checker.fsm := Checker.IDLE; Checker.regs := CRC.regs_reset crc;
        Checker.fifo := [] |}, []).
Proof.
  intros Hr Hl Hn Hp. split.
  - rewrite CheckerFacts.chk_final_cons. unfold Checker.reset_state.
    rewrite CheckerFacts.cycle_reset_gap. cbn [fst].
    apply (CheckerStream.run_final crc dw env gr1); trivial.
    + discriminate.
    + cbn. lia.
    + intros ->. cbn in Hn. lia.
    + now right.
  - reflexivity.
Qed.

Lemma checker_ready_for_next_packet_witness :
  let crc := Instances.crc32_class 8 in
  let rest := Stream.packet (map Instances.byte [1; 2; 3; 4; 5; 6]) in
  let env := [(true, true); (true, false); (true, true); (false, true);
              (true, true); (true, true); (true, true); (true, true)] in
  Checker.final crc 8 (Checker.reset_state crc, rest)
                ((false, true) :: env ++ [(true, false)]) =
    ({| Checker.fsm := Checker.IDLE; Checker.regs := CRC.regs_reset crc;
        Checker.fifo := [] |}, []) /\
  Checker.final crc 8 (Checker.reset_state crc, []) [(false, true)] =
    ({| Checker.fsm := Checker.IDLE; Checker.regs := CRC.regs_reset crc;
        Checker.fifo := [] |}, []).
Proof.
  intros crc rest env.
  apply (checker_ready_for_next_packet crc 8 rest true env (true, false)).
  - vm_compute. lia.
  - vm_compute. repeat split.
  - vm_compute. lia.
  - vm_compute. lia.
Defined.

(** X14. The reset cycle, whatever the FIFO holds (at least [ratio]
    1).  The FIFO and the CRC unit are held in reset and the state machine
    goes to IDLE.  An element presented in that cycle is accepted exactly
    when the FIFO does not hold [ratio] elements or the consumer is ready;
    once accepted it is gone from the producer and is neither staged nor
    fed to the CRC unit.  The source is valid in that cycle exactly when
    the FIFO holds [ratio] elements, as it does after a packet: it then
    shows the oldest element still staged, with the [last] flag and the
    error annotation of the presented element, and with a ready consumer
    that stale element is released ahead of what the rest of the run
    releases.  When the FIFO does not hold [ratio] elements, as at
    power-up, the released elements, the error pulses and the final state
    are those of the same run without the presented element. *)
Theorem checker_reset_cycle_loses_element (crc : CRC.class) (dw : nat)
        (r : CRC.regs_t crc) (q : SyncFIFO.state)
        (p : Stream.payload) (l : bool) (rest : list Stream.beat) (r0 : bool)
        (env : list (bool * bool)) :
  (1 <= Checker.ratio crc dw)%nat ->
  let s := {| Checker.fsm := Checker.RESET; Checker.regs := r;
              Checker.fifo := q |} in
  let full := Nat.eqb (SyncFIFO.level q) (Checker.ratio crc dw) in
  let shown := ({| Stream.data := Stream.data (SyncFIFO.source_payload q);
                   Stream.last_be := Stream.last_be (SyncFIFO.source_payload q);
                   Stream.error :=
                     Stream.error p || CRC.error crc r (Stream.data p) 0 |}, l) in
  Checker.sink_ready
    (Checker.comb_of crc dw s (Stream.present true ((p, l) :: rest)) r0) =
    negb full || r0 /\
  fst (Checker.cycle crc dw (s, (p, l) :: rest) (true, r0)) =
    ({| Checker.fsm := Checker.IDLE; Checker.regs := CRC.regs_reset crc;
        Checker.fifo := [] |},
     if negb full || r0 then rest else (p, l) :: rest) /\
  snd (Checker.cycle crc dw (s, (p, l) :: rest) (true, r0)) =
    {| Checker.src := {| Stream.valid := full; Stream.last := snd shown;
                         Stream.pl := fst shown |};
       Checker.rdy := r0;
       Checker.pulse := full && l && CRC.error crc r (Stream.data p) 0 |} /\
  (full = true ->
   Checker.released (Checker.trace crc dw (s, (p, l) :: rest)
                                   ((true, true) :: env)) =
   shown :: Checker.released (Checker.trace crc dw (s, rest)
                                            ((false, true) :: env))) /\
  (full = false ->
   Checker.released (Checker.trace crc dw (s, (p, l) :: rest)
                                   ((true, r0) :: env)) =
   Checker.released (Checker.trace crc dw (s, rest) ((false, r0) :: env)) /\
   Checker.pulses (Checker.trace crc dw (s, (p, l) :: rest)
                                 ((true, r0) :: env)) =
   Checker.pulses (Checker.trace crc dw (s, rest) ((false, r0) :: env)) /\
   Checker.final crc dw (s, (p, l) :: rest) ((true, r0) :: env) =
   Checker.final crc dw (s, rest) ((false, r0) :: env)).
Proof.
  intros Hr s full shown.
  assert (Ev := CheckerFacts.cycle_event crc dw Checker.RESET r q p l rest true r0).
  assert (G : forall ready,
            fst (Checker.cycle crc dw (s, rest) (false, ready)) =
            (CheckerSpec.idle_state crc, rest)).
  { intros ready. unfold s. now rewrite CheckerFacts.cycle_reset_gap. }
  split; [|split; [|split; [|split]]].
  - apply (CheckerStream.cycle_reset_any crc dw r q p l rest r0).
  - apply (CheckerStream.cycle_reset_any crc dw r q p l rest r0).
  - exact Ev.
  - intros Hf.
    destruct (CheckerStream.cycle_reset_any crc dw r q p l rest true) as (C1 & _).
    destruct (CheckerStream.cycle_reset_quiet crc dw r q rest true) as (Gv & _).
    assert (Ev1 := CheckerFacts.cycle_event crc dw Checker.RESET r q p l rest true true).
    fold s in C1, Gv, Ev1.
    rewrite !CheckerFacts.chk_trace_cons, !CheckerFacts.chk_released_cons.
    rewrite C1, Gv, G, Ev1. cbn [Checker.src Checker.rdy Stream.valid Stream.pl Stream.last].
    fold (SyncFIFO.level q). fold full. rewrite Hf, orb_true_r. reflexivity.
  - intros Hf.
    destruct (CheckerStream.cycle_reset_any crc dw r q p l rest r0) as (C1 & _).
    destruct (CheckerStream.cycle_reset_quiet crc dw r q rest r0) as (Gv & Gp).
    fold s in C1, Gv, Gp, Ev. fold (SyncFIFO.level q) in C1, Ev. fold full in C1, Ev.
    rewrite Hf in C1, Ev. cbn [negb orb andb] in C1, Ev.
    split; [|split].
    + rewrite !CheckerFacts.chk_trace_cons, !CheckerFacts.chk_released_cons.
      rewrite C1, Gv, G, Ev. reflexivity.
    + rewrite !CheckerFacts.chk_trace_cons. unfold Checker.pulses. cbn [filter].
      rewrite C1, Gp, G, Ev. reflexivity.
    + rewrite !CheckerFacts.chk_final_cons. rewrite C1, G. reflexivity.
Qed.

Lemma checker_reset_cycle_loses_element_witness :
  let crc := Instances.crc32_class 8 in
  let r := CheckerSpec.absorb crc (CRC.regs_reset crc)
             (Stream.packet (map Instances.byte [0x01; 0xCD; 0xFB; 0x3C; 0xB6])) in
  let q := Stream.packet (map Instances.byte [0xCD; 0xFB; 0x3C; 0xB6]) in
  let p := Instances.byte 0xDE in
  let l := false in
  let rest := Stream.packet (map Instances.byte [1; 2; 3; 4; 5; 6]) in
  let env := repeat (true, true) 6 in
  let r0 := false in
  let s := {| Checker.fsm := Checker.RESET; Checker.regs := r;
              Checker.fifo := q |} in
  let full := Nat.eqb (SyncFIFO.level q) (Checker.ratio crc 8) in
  let shown := ({| Stream.data := Stream.data (SyncFIFO.source_payload q);
                   Stream.last_be := Stream.last_be (SyncFIFO.source_payload q);
                   Stream.error :=
                     Stream.error p || CRC.error crc r (Stream.data p) 0 |}, l) in
  full = true /\
  Checker.sink_ready
    (Checker.comb_of crc 8 s (Stream.present true ((p, l) :: rest)) r0) =
    negb full || r0 /\
  fst (Checker.cycle crc 8 (s, (p, l) :: rest) (true, r0)) =
    ({| Checker.fsm := Checker.IDLE; Checker.regs := CRC.regs_reset crc;
        Checker.fifo := [] |},
     if negb full || r0 then rest else (p, l) :: rest) /\
  snd (Checker.cycle crc 8 (s, (p, l) :: rest) (true, r0)) =
    {| Checker.src := {| Stream.valid := full; Stream.last := snd shown;
                         Stream.pl := fst shown |};
       Checker.rdy := r0;
       Checker.pulse := full && l && CRC.error crc r (Stream.data p) 0 |} /\
  (full = true ->
   Checker.released (Checker.trace crc 8 (s, (p, l) :: rest)
                                   ((true, true) :: env)) =
   shown :: Checker.released (Checker.trace crc 8 (s, rest)
                                            ((false, true) :: env))) /\
  (full = false ->
   Checker.released (Checker.trace crc 8 (s, (p, l) :: rest)
                                   ((true, r0) :: env)) =
   Checker.released (Checker.trace crc 8 (s, rest) ((false, r0) :: env)) /\
   Checker.pulses (Checker.trace crc 8 (s, (p, l) :: rest)
                                 ((true, r0) :: env)) =
   Checker.pulses (Checker.trace crc 8 (s, rest) ((false, r0) :: env)) /\
   Checker.final crc 8 (s, (p, l) :: rest) ((true, r0) :: env) =
   Checker.final crc 8 (s, rest) ((false, r0) :: env)).
Proof.
  intros crc r q p l rest env r0 s full shown.
  split; [reflexivity|].
  apply (checker_reset_cycle_loses_element crc 8 r q p l rest r0 env).
  vm_compute. lia.
Defined.

(** ** The inserter and the checker on a bus of 8, 16 or 32 bits *)

Module WideTrip.
Import Stream EngineSem Instances Env.

#[local] Arguments Checker.ratio : simpl never.
#[local] Arguments Inserter.ratio : simpl never.
#[local] Arguments Nat.eqb : simpl never.

(** The words of a list of elements. *)
Lemma absorb_words (u : CRC32.unit) R (bs : list beat) :
  CheckerSpec.absorb (CRC.of_crc32 u) R bs =
  fold_left (CRC32.regs_next u) (map (fun b => data (fst b)) bs) R.
Proof.
  revert R. induction bs as [|b bs IH]; intros R; [reflexivity|].
  cbn [map fold_left]. rewrite <- IH. reflexivity.
Qed.

Lemma absorb_payloads (u : CRC32.unit) R (ps : list payload) :
  InserterSpec.absorb (CRC.of_crc32 u) R ps =
  fold_left (CRC32.regs_next u) (map data ps) R.
Proof.
  revert R. induction ps as [|p ps IH]; intros R; [reflexivity|].
  cbn [map fold_left]. rewrite <- IH. reflexivity.
Qed.

Lemma fold_length (u : CRC32.unit) ws R :
  length R = CRC32.dw u ->
  length (fold_left (CRC32.regs_next u) ws R) = CRC32.dw u.
Proof.
  revert R. induction ws as [|w ws IH]; intros R HR; [exact HR|].
  cbn [fold_left]. apply IH. apply WideFacts.regs_next_length.
Qed.

Lemma final_bad_words (u : CRC32.unit) R (bs : list beat) :
  bs <> [] ->
  CheckerSpec.final_bad (CRC.of_crc32 u) R bs =
  CRC32.error u
    (fold_left (CRC32.regs_next u)
               (removelast (map (fun b => data (fst b)) bs)) R)
    (List.last (map (fun b => data (fst b)) bs) 0) 0.
Proof.
  intros Hne. destruct (exists_last Hne) as (front & e & ->).
  rewrite ExpectFacts.final_bad_snoc, absorb_words, map_app. cbn [map].
  now rewrite removelast_last, last_last.
Qed.

Lemma last_app_ne {A} (a b : list A) d :
  b <> [] -> List.last (a ++ b) d = List.last b d.
Proof.
  destruct b as [|x b]; [congruence|]. intros _.
  apply InserterStream.last_app_cons.
Qed.

Section Unit.
Variable dwidth : nat.
Variable u : CRC32.unit.
Hypothesis Hu : CRC32.LiteEthMACCRC32 dwidth = Some u.
Hypothesis Hd : dwidth = 8%nat \/ dwidth = 16%nat \/ dwidth = 32%nat.

Lemma dw_bits : (CRC32.dw u * 8 = dwidth)%nat.
Proof.
  destruct (CRC32Facts.built_inv dwidth u Hu) as (_ & Hdw & _).
  rewrite Hdw. destruct Hd as [E|[E|E]]; rewrite E; reflexivity.
Qed.

Lemma dw_pos : (1 <= CRC32.dw u)%nat.
Proof.
  destruct (CRC32Facts.built_inv dwidth u Hu) as (_ & Hdw & _).
  rewrite Hdw. destruct Hd as [E|[E|E]]; rewrite E; cbn; lia.
Qed.

Lemma words_bits : (32 / dwidth * dwidth = 32)%nat.
Proof. destruct Hd as [E|[E|E]]; rewrite E; reflexivity. Qed.

Lemma words_pos : (1 <= 32 / dwidth)%nat.
Proof. destruct Hd as [E|[E|E]]; rewrite E; cbn; lia. Qed.

Lemma wide_ratio_checker : Checker.ratio (CRC.of_crc32 u) dwidth = (32 / dwidth)%nat.
Proof. reflexivity. Qed.

Lemma wide_ratio_inserter : Inserter.ratio (CRC.of_crc32 u) dwidth = (32 / dwidth)%nat.
Proof. reflexivity. Qed.

(** The elements the inserter appends: the visible value cut in words,
    the low word first, [last] on the final one. *)
Lemma crc_beats_low v :
  InserterSpec.crc_beats (CRC.of_crc32 u) dwidth v =
  InserterSpec.low_first dwidth (32 / dwidth) v.
Proof.
  unfold InserterSpec.crc_beats. rewrite wide_ratio_inserter.
  destruct Hd as [E|[E|E]]; rewrite E.
  - cbn -[Z.land Z.shiftr Z.ones Migen.slice].
    unfold InserterSpec.chunk, Inserter.ratio. reflexivity.
  - cbn -[Z.land Z.shiftr Z.ones Migen.slice].
    unfold InserterSpec.chunk, Inserter.ratio. reflexivity.
  - cbn -[Z.land Z.shiftr Z.ones Migen.slice].
    unfold InserterSpec.low_first, Migen.slice. cbn [seq map Nat.sub Nat.eqb].
    rewrite Z.shiftr_0_r. reflexivity.
Qed.

Lemma low_first_words n v :
  map (fun b => data (fst b)) (InserterSpec.low_first dwidth n v) =
  map (fun i => Migen.slice v (i * dwidth) ((i + 1) * dwidth)) (seq 0 n).
Proof. unfold InserterSpec.low_first. rewrite map_map. reflexivity. Qed.

Lemma low_first_length n v : length (InserterSpec.low_first dwidth n v) = n.
Proof. unfold InserterSpec.low_first. now rewrite length_map, length_seq. Qed.

Lemma low_first_flags n v :
  (1 <= n)%nat ->
  map snd (InserterSpec.low_first dwidth n v) = repeat false (n - 1) ++ [true].
Proof.
  intros Hn. unfold InserterSpec.low_first. rewrite map_map. cbn [snd].
  assert (E : seq 0 n = seq 0 (n - 1) ++ [(n - 1)%nat]).
  { rewrite <- seq_S. f_equal. lia. }
  rewrite E, map_app. cbn [map]. rewrite Nat.eqb_refl. f_equal.
  rewrite (map_ext_in _ (fun _ => false)).
  - now rewrite map_const, length_seq.
  - intros i Hi. apply in_seq in Hi. apply Nat.eqb_neq. lia.
Qed.

Lemma flags_last_only (l : list beat) k :
  map snd l = repeat false k ++ [true] -> CheckerSpec.last_only l.
Proof.
  revert l. induction k as [|k IH]; intros l H.
  - destruct l as [|b [|b' l]]; try discriminate.
    cbn in *. now injection H.
  - destruct l as [|b l]; [discriminate|].
    cbn [map repeat app] in H. injection H as Hb Hl.
    specialize (IH l Hl).
    destruct l as [|b' l]; [destruct k; discriminate|].
    cbn. auto.
Qed.

Lemma inserted_flags (ps : list payload) :
  map snd (InserterSpec.inserted (CRC.of_crc32 u) dwidth ps) =
  repeat false (length ps + 32 / dwidth - 1) ++ [true].
Proof.
  unfold InserterSpec.inserted. rewrite crc_beats_low, map_app.
  rewrite RoundTripFacts.plain_last, low_first_flags by apply words_pos.
  rewrite app_assoc, <- repeat_app. do 2 f_equal.
  pose proof words_pos. lia.
Qed.

Lemma wide_inserted_last_only (ps : list payload) :
  CheckerSpec.last_only (InserterSpec.inserted (CRC.of_crc32 u) dwidth ps).
Proof. eapply flags_last_only. apply inserted_flags. Qed.

Lemma wide_inserted_length (ps : list payload) :
  length (InserterSpec.inserted (CRC.of_crc32 u) dwidth ps) =
  (length ps + 32 / dwidth)%nat.
Proof.
  unfold InserterSpec.inserted.
  now rewrite crc_beats_low, length_app, length_map, low_first_length.
Qed.

(** The residue check passes on what the inserter put on the wire. *)
Lemma wide_inserted_residue (ps : list payload) :
  CheckerSpec.final_bad (CRC.of_crc32 u) (CRC.regs_reset (CRC.of_crc32 u))
    (InserterSpec.inserted (CRC.of_crc32 u) dwidth ps) = false.
Proof.
  pose proof words_pos as Hn.
  rewrite final_bad_words.
  2:{ intros E. apply (f_equal (@length _)) in E.
      rewrite wide_inserted_length in E. cbn in E. lia. }
  unfold InserterSpec.inserted. rewrite crc_beats_low, map_app, low_first_words.
  set (v := CRC.value (CRC.of_crc32 u)
              (InserterSpec.absorb (CRC.of_crc32 u)
                 (CRC.regs_reset (CRC.of_crc32 u)) ps) 0).
  set (ts := map (fun i => Migen.slice v (i * dwidth) ((i + 1) * dwidth))
                 (seq 0 (32 / dwidth))).
  assert (Hts : ts <> []).
  { intros E. apply (f_equal (@length _)) in E. unfold ts in E.
    rewrite length_map, length_seq in E. cbn in E. lia. }
  rewrite removelast_app, last_app_ne, fold_left_app by exact Hts.
  rewrite map_map. cbn [fst].
  rewrite <- absorb_payloads.
  apply (WideCheck.check_exact dwidth u _ ts Hu Hd).
  - rewrite absorb_payloads. apply fold_length.
    unfold CRC.regs_reset. cbn. unfold CRC32.regs_reset. apply repeat_length.
  - unfold ts. now rewrite length_map, length_seq.
  - unfold ts. rewrite map_map. apply map_ext. intros i.
    apply WideFacts.slice_mod. lia.
Qed.

(** The residue flag of a packet, from the bits of its words. *)
Lemma final_bad_bits R (bs : list beat) :
  bs <> [] ->
  CheckerSpec.final_bad (CRC.of_crc32 u) R bs =
  negb (Engine.lfsr_feed CRC32.width CRC32.polynom
          (List.last R 0 mod 2 ^ Z.of_nat CRC32.width)
          (concat (map (Engine.data_bits dwidth)
                       (map (fun b => data (fst b)) bs))) =? CRC32.check).
Proof.
  intros Hne. destruct (exists_last Hne) as (front & e & ->).
  rewrite ExpectFacts.final_bad_snoc, absorb_words.
  change (CRC.error (CRC.of_crc32 u)) with (CRC32.error u).
  rewrite (WideFacts.error_after dwidth u _ R _ Hu dw_pos), dw_bits.
  rewrite !map_app. reflexivity.
Qed.

(** The final element of what the inserter put on the wire. *)
Lemma inserted_final (ps : list payload) :
  exists front d,
    InserterSpec.inserted (CRC.of_crc32 u) dwidth ps =
    front ++ [({| data := d; last_be := 0; error := false |}, true)].
Proof.
  pose proof words_pos as Hn.
  unfold InserterSpec.inserted. rewrite crc_beats_low.
  unfold InserterSpec.low_first.
  assert (E : seq 0 (32 / dwidth) =
              seq 0 (32 / dwidth - 1) ++ [(32 / dwidth - 1)%nat]).
  { rewrite <- seq_S. f_equal. lia. }
  rewrite E, map_app. cbn [map]. rewrite Nat.eqb_refl, app_assoc.
  eexists. eexists. reflexivity.
Qed.

(** The inserter followed by the checker. *)
Lemma roundtrip (ps : list payload) env1 env2 r0 :
  ps <> [] ->
  (length ps + 32 / dwidth + 1 <= progress env1)%nat ->
  (length ps + 32 / dwidth <= progress env2)%nat ->
  let crc := CRC.of_crc32 u in
  let wire := Inserter.released
                (Inserter.trace crc dwidth
                   (Inserter.reset_state crc dwidth, packet ps) env1) in
  let tr := Checker.trace crc dwidth (Checker.reset_state crc, wire)
                          ((false, r0) :: env2) in
  wire = InserterSpec.inserted crc dwidth ps /\
  map (fun b => (data (fst b), last_be (fst b))) (Checker.released tr) =
    map (fun p => (data p, last_be p)) ps /\
  map snd (Checker.released tr) = map snd (packet ps) /\
  (exists pre fin, Checker.released tr = pre ++ [fin] /\
                   error (fst fin) = false /\ snd fin = true) /\
  Checker.pulses tr = 0%nat.
Proof.
  intros Hne Hp1 Hp2 crc wire tr. subst crc.
  pose proof words_pos as Hn.
  assert (Hlen : (1 <= length ps)%nat).
  { destruct ps; [congruence|cbn; lia]. }
  assert (Hwire : wire = InserterSpec.inserted (CRC.of_crc32 u) dwidth ps).
  { unfold wire, Inserter.reset_state.
    apply (InserterFacts.idle_phase (CRC.of_crc32 u) dwidth env1); [exact Hne|].
    rewrite wide_ratio_inserter. lia. }
  assert (Hr : (1 <= Checker.ratio (CRC.of_crc32 u) dwidth)%nat)
    by (rewrite wide_ratio_checker; lia).
  destruct (RoundTrip.checker_from_reset (CRC.of_crc32 u) dwidth wire r0 env2 Hr)
    as (R1 & R2 & _).
  { rewrite Hwire. apply wide_inserted_last_only. }
  fold tr in R1, R2.
  assert (Hrel : Checker.released tr =
                 CheckerSpec.expect (CRC.of_crc32 u) dwidth
                   (CRC.regs_reset (CRC.of_crc32 u)) []
                   (InserterSpec.inserted (CRC.of_crc32 u) dwidth ps)).
  { rewrite <- Hwire. apply R1. rewrite Hwire, wide_inserted_length. exact Hp2. }
  split; [exact Hwire|]. split; [|split; [|split]].
  - rewrite Hrel, (ExpectFacts.expect_payload (CRC.of_crc32 u) dwidth Hr) by (cbn; lia).
    rewrite wide_ratio_checker, wide_inserted_length.
    cbn [length app].
    replace (0 + (length ps + 32 / dwidth) - 32 / dwidth)%nat with (length ps) by lia.
    unfold InserterSpec.inserted.
    rewrite firstn_app, length_map, Nat.sub_diag, firstn_O, app_nil_r.
    rewrite firstn_all2 by (rewrite length_map; lia).
    rewrite map_map. reflexivity.
  - rewrite Hrel, (ExpectFacts.expect_last (CRC.of_crc32 u) dwidth Hr) by (cbn; lia).
    rewrite wide_ratio_checker. cbn [length]. rewrite Nat.sub_0_r.
    rewrite <- skipn_map, inserted_flags.
    rewrite RoundTripFacts.skipn_repeat by lia.
    rewrite RoundTripFacts.packet_last by exact Hne.
    do 2 f_equal. lia.
  - pose proof (wide_inserted_residue ps) as Hres.
    destruct (inserted_final ps) as (front & d & E).
    rewrite E in Hrel, Hres.
    rewrite ExpectFacts.final_bad_snoc in Hres.
    destruct (ExpectFacts.expect_final (CRC.of_crc32 u) dwidth Hr
                (CRC.regs_reset (CRC.of_crc32 u)) [] front
                ({| data := d; last_be := 0; error := false |}, true))
      as (pre & h & Ex).
    { cbn. lia. }
    { apply (f_equal (@length _)) in E.
      rewrite wide_inserted_length, length_app in E. cbn [length] in E.
      rewrite wide_ratio_checker. unfold beat in *. lia. }
    eexists. eexists. split; [rewrite Hrel; exact Ex|]. split; [|reflexivity].
    unfold CheckerSpec.release. cbn [fst data error] in Hres |- *.
    exact Hres.
  - rewrite (PulseFacts.pulses_law _ _ R2). rewrite Hwire.
    now rewrite wide_inserted_residue.
Qed.

(** A packet from the inserter with up to 32 consecutive bits changed
    fails the residue check. *)
Lemma burst_bad (ps : list payload) (pre mid mid' post : list beat) :
  InserterSpec.inserted (CRC.of_crc32 u) dwidth ps = pre ++ mid ++ post ->
  (length mid * dwidth <= 32)%nat ->
  length mid' = length mid ->
  map (fun b => data (fst b) mod 2 ^ Z.of_nat dwidth) mid' <>
  map (fun b => data (fst b) mod 2 ^ Z.of_nat dwidth) mid ->
  CheckerSpec.final_bad (CRC.of_crc32 u) (CRC.regs_reset (CRC.of_crc32 u))
                        (pre ++ mid' ++ post) = true.
Proof.
  intros E Hm Hl Hdiff.
  pose proof (wide_inserted_residue ps) as H0. rewrite E in H0.
  assert (Hmid : mid <> []).
  { intros ->. destruct mid'; [now apply Hdiff|discriminate]. }
  assert (Hmid' : mid' <> []).
  { intros ->. destruct mid; [now apply Hdiff|discriminate]. }
  rewrite final_bad_bits in H0 by (destruct pre, mid; try congruence; discriminate).
  rewrite final_bad_bits by (destruct pre, mid'; try congruence; discriminate).
  rewrite !map_app, !concat_app in *.
  rewrite <- !WideFacts.feed_cat in *.
  set (r0 := List.last (CRC.regs_reset (CRC.of_crc32 u)) 0
             mod 2 ^ Z.of_nat CRC32.width) in *.
  assert (Hs : in_range CRC32.width
                 (Engine.lfsr_feed CRC32.width CRC32.polynom r0
                    (concat (map (Engine.data_bits dwidth)
                                 (map (fun b : beat => data (fst b)) pre))))).
  { apply (LfsrFacts.lfsr_feed_range CRC32.width CRC32.polynom ByteWide.width_pos).
    apply WideFacts.mod_range. }
  apply negb_false_iff, Z.eqb_eq in H0.
  apply negb_true_iff, Z.eqb_neq. intros H1. apply Hdiff.
  rewrite <- H0 in H1.
  apply (LfsrInjective.lfsr_feed_inj CRC32.width CRC32.polynom ByteWide.width_pos) in H1;
    try (apply (LfsrFacts.lfsr_feed_range CRC32.width CRC32.polynom ByteWide.width_pos); exact Hs).
  assert (Hb : concat (map (Engine.data_bits dwidth)
                           (map (fun b : beat => data (fst b)) mid')) =
               concat (map (Engine.data_bits dwidth)
                           (map (fun b : beat => data (fst b)) mid))).
  { apply (LfsrInjective.lfsr_feed_data_inj CRC32.width CRC32.polynom ByteWide.width_pos
             (Engine.lfsr_feed CRC32.width CRC32.polynom r0
                (concat (map (Engine.data_bits dwidth)
                             (map (fun b : beat => data (fst b)) pre))))).
    - rewrite !WideFacts.concat_bits_length, !length_map. now rewrite Hl.
    - rewrite WideFacts.concat_bits_length, length_map, Hl. exact Hm.
    - intros j _. unfold beat in *. now rewrite H1. }
  apply WideFacts.concat_bits_inj in Hb.
  + now rewrite !map_map in Hb.
  + now rewrite !length_map.
Qed.

End Unit.

(** A released element with [last] was shown with [last]. *)
Lemma released_last tr b :
  In b (Checker.released tr) -> snd b = true ->
  exists ev, In ev tr /\
    valid (Checker.src ev) && last (Checker.src ev) = true.
Proof.
  induction tr as [|ev tr IH]; intros Hin Hb; [destruct Hin|].
  rewrite CheckerFacts.chk_released_cons in Hin. apply in_app_or in Hin.
  destruct Hin as [Hin|Hin].
  - destruct (valid (Checker.src ev) && Checker.rdy ev) eqn:Ev; [|destruct Hin].
    destruct Hin as [<-|[]]. cbn [snd] in Hb.
    exists ev. split; [now left|].
    apply andb_true_iff in Ev. destruct Ev as (-> & _). now rewrite Hb.
  - destruct (IH Hin Hb) as (ev' & H1 & H2). exists ev'. split; [now right|exact H2].
Qed.

Lemma filter_nonempty {A} (f : A -> bool) l x :
  In x l -> f x = true -> (1 <= length (filter f l))%nat.
Proof.
  intros Hin Hf.
  assert (H : In x (filter f l)) by (apply filter_In; auto).
  destruct (filter f l); [destruct H|cbn; lia].
Qed.

End WideTrip.

(** X15. The inserter followed by the checker on a bus of 8, 16 or 32
    bits, the CRC leaving as four, two or one element: every packet of at
    least one element is reproduced, data and [last_be] in order with
    [last] on the final element only, the error field of the final
    released element is false and [self.error] is never asserted; the sink
    of the checker is idle during its reset cycle and each environment may
    stall as it likes as long as it leaves enough cycles. *)
Theorem inserter_checker_roundtrip_wide (dwidth : nat) (u : CRC32.unit)
        (ps : list Stream.payload) (env1 env2 : list (bool * bool)) (r0 : bool) :
  CRC32.LiteEthMACCRC32 dwidth = Some u ->
  dwidth = 8%nat \/ dwidth = 16%nat \/ dwidth = 32%nat ->
  ps <> [] ->
  (length ps + 32 / dwidth + 1 <= Env.progress env1)%nat ->
  (length ps + 32 / dwidth <= Env.progress env2)%nat ->
  let crc := CRC.of_crc32 u in
  let wire := Inserter.released
                (Inserter.trace crc dwidth
                   (Inserter.reset_state crc dwidth, Stream.packet ps) env1) in
  let tr := Checker.trace crc dwidth (Checker.reset_state crc, wire)
                          ((false, r0) :: env2) in
  length wire = (length ps + 32 / dwidth)%nat /\
  map (fun b => (Stream.data (fst b), Stream.last_be (fst b)))
      (Checker.released tr) =
    map (fun p => (Stream.data p, Stream.last_be p)) ps /\
  map snd (Checker.released tr) = map snd (Stream.packet ps) /\
  (exists pre fin, Checker.released tr = pre ++ [fin] /\
                   Stream.error (fst fin) = false /\ snd fin = true) /\
  Checker.pulses tr = 0%nat.
Proof.
  intros Hu Hd Hne Hp1 Hp2 crc wire tr.
  destruct (WideTrip.roundtrip dwidth u Hu Hd ps env1 env2 r0 Hne Hp1 Hp2)
    as (H0 & H1 & H2 & H3 & H4).
  split; [|auto].
  fold crc in H0. fold wire in H0. rewrite H0.
  apply (WideTrip.wide_inserted_length dwidth u Hd).
Qed.

Lemma inserter_checker_roundtrip_wide_witness :
  let crc := CRC.of_crc32 (Instances.elaborated (CRC32.LiteEthMACCRC32 32)) in
  let ps := map Instances.byte [0xDEADBEEF; 0x01020304] in
  let env1 := [(true, false); (true, true); (false, true); (true, true);
               (true, false); (true, true); (true, true); (true, true)] in
  let env2 := [(true, true); (true, false); (true, true); (false, true);
               (true, true)] in
  let wire := Inserter.released
                (Inserter.trace crc 32
                   (Inserter.reset_state crc 32, Stream.packet ps) env1) in
  let tr := Checker.trace crc 32 (Checker.reset_state crc, wire)
                          ((false, true) :: env2) in
  length wire = (length ps + 32 / 32)%nat /\
  map (fun b => (Stream.data (fst b), Stream.last_be (fst b)))
      (Checker.released tr) =
    map (fun p => (Stream.data p, Stream.last_be p)) ps /\
  map snd (Checker.released tr) = map snd (Stream.packet ps) /\
  (exists pre fin, Checker.released tr = pre ++ [fin] /\
                   Stream.error (fst fin) = false /\ snd fin = true) /\
  Checker.pulses tr = 0%nat.
Proof.
  intros crc ps env1 env2.
  apply (inserter_checker_roundtrip_wide 32
           (Instances.elaborated (CRC32.LiteEthMACCRC32 32)) ps env1 env2 true).
  - vm_compute. reflexivity.
  - right. right. reflexivity.
  - discriminate.
  - vm_compute. lia.
  - vm_compute. lia.
Defined.

(** X16. The checker detects every burst of up to 32 bits.  Take what the
    inserter put on the wire for a packet, on a bus of 8, 16 or 32 bits,
    and change the data of consecutive elements that span at most 32
    bits, the [last] flags kept: fed to the checker after its reset
    cycle, the final released element carries the error field set and
    [self.error] is asserted, in exactly one cycle when the consumer is
    always ready. *)
Theorem checker_detects_burst (dwidth : nat) (u : CRC32.unit)
        (ps : list Stream.payload) (pre mid mid' post : list Stream.beat)
        (env : list (bool * bool)) (r0 : bool) :
  CRC32.LiteEthMACCRC32 dwidth = Some u ->
  dwidth = 8%nat \/ dwidth = 16%nat \/ dwidth = 32%nat ->
  ps <> [] ->
  let crc := CRC.of_crc32 u in
  InserterSpec.inserted crc dwidth ps = pre ++ mid ++ post ->
  (length mid * dwidth <= 32)%nat ->
  map snd mid' = map snd mid ->
  map (fun b => Stream.data (fst b) mod 2 ^ Z.of_nat dwidth) mid' <>
  map (fun b => Stream.data (fst b) mod 2 ^ Z.of_nat dwidth) mid ->
  (length (pre ++ mid' ++ post) <= Env.progress env)%nat ->
  let tr := Checker.trace crc dwidth (Checker.reset_state crc, pre ++ mid' ++ post)
                          ((false, r0) :: env) in
  (exists front fin, Checker.released tr = front ++ [fin] /\
                     Stream.error (fst fin) = true /\ snd fin = true) /\
  (1 <= Checker.pulses tr)%nat /\
  (Forall (fun gr : bool * bool => snd gr = true) env ->
   Checker.pulses tr = 1%nat).
Proof.
  intros Hu Hd Hne crc E Hm Hfl Hdiff Hp tr.
  assert (Hl : length mid' = length mid).
  { apply (f_equal (@length _)) in Hfl. now rewrite !length_map in Hfl. }
  pose proof (WideTrip.burst_bad dwidth u Hu Hd ps pre mid mid' post E Hm Hl Hdiff)
    as Hbad.
  fold crc in Hbad.
  pose proof (WideTrip.words_pos dwidth Hd) as Hn.
  assert (Hr : (1 <= Checker.ratio crc dwidth)%nat).
  { unfold crc. rewrite WideTrip.wide_ratio_checker. exact Hn. }
  assert (Hflags : map snd (pre ++ mid' ++ post) =
                   repeat false (length ps + 32 / dwidth - 1) ++ [true]).
  { unfold Stream.beat in *. rewrite !map_app, Hfl, <- !map_app, <- E.
    apply (WideTrip.inserted_flags dwidth u Hd). }
  assert (Hlast : CheckerSpec.last_only (pre ++ mid' ++ post)).
  { eapply WideTrip.flags_last_only. exact Hflags. }
  assert (Hlen : length (pre ++ mid' ++ post) = (length ps + 32 / dwidth)%nat).
  { assert (H : length (map snd (pre ++ mid' ++ post)) =
                (length ps + 32 / dwidth - 1 + 1)%nat).
    { now rewrite Hflags, length_app, repeat_length. }
    rewrite length_map in H. etransitivity; [exact H|lia]. }
  assert (Hps : (1 <= length ps)%nat).
  { destruct ps; [congruence|cbn; lia]. }
  destruct (RoundTrip.checker_from_reset crc dwidth (pre ++ mid' ++ post) r0 env
              Hr Hlast) as (R1 & R2 & _).
  specialize (R1 Hp). fold tr in R1, R2.
  rewrite Hbad in R2.
  assert (Hne' : pre ++ mid' ++ post <> []).
  { intros E0. rewrite E0 in Hlen. cbn in Hlen. lia. }
  destruct (exists_last Hne') as (front & e & Efe).
  assert (He : snd e = true).
  { rewrite Efe, map_app in Hflags. cbn [map] in Hflags.
    apply app_inj_tail in Hflags. now destruct Hflags. }
  destruct (ExpectFacts.expect_final crc dwidth Hr (CRC.regs_reset crc) [] front e)
    as (out & h & Ex).
  { cbn. lia. }
  { rewrite Efe, length_app in Hlen. cbn [length] in Hlen.
    unfold crc. rewrite WideTrip.wide_ratio_checker. cbn [length]. lia. }
  assert (Hfin : exists front' fin,
             Checker.released tr = front' ++ [fin] /\
             Stream.error (fst fin) = true /\ snd fin = true).
  { eexists. eexists. split; [rewrite R1, Efe; exact Ex|]. split.
    - rewrite Efe, ExpectFacts.final_bad_snoc in Hbad.
      unfold CheckerSpec.release. cbn [fst Stream.error]. rewrite Hbad.
      apply orb_true_r.
    - exact He. }
  split; [exact Hfin|].
  split.
  - rewrite (PulseFacts.pulses_law _ _ R2).
    destruct Hfin as (front' & fin & Erel & _ & Hfin).
    destruct (WideTrip.released_last tr fin) as (ev & Hin & Hev).
    { rewrite Erel. apply in_or_app. right. now left. }
    { exact Hfin. }
    apply (WideTrip.filter_nonempty _ _ ev Hin Hev).
  - intros Henv. unfold tr.
    rewrite CheckerFacts.chk_trace_cons. unfold Checker.reset_state.
    rewrite CheckerFacts.cycle_reset_gap. cbn [fst snd].
    unfold Checker.pulses. cbn [filter Checker.pulse].
    assert (Hpr : Checker.pulses
                    (Checker.trace crc dwidth
                       ({| Checker.fsm := Checker.IDLE;
                           Checker.regs := CRC.regs_reset crc;
                           Checker.fifo := [] |}, pre ++ mid' ++ post) env) =
                  if CheckerSpec.final_bad crc (CRC.regs_reset crc)
                       (pre ++ mid' ++ post) then 1%nat else 0%nat).
    { apply PulseFacts.pulses_ready; trivial.
      - discriminate.
      - unfold crc. rewrite WideTrip.wide_ratio_checker. unfold Stream.beat in *. lia. }
    rewrite Hbad in Hpr. exact Hpr.
Qed.

Lemma checker_detects_burst_witness :
  let crc := CRC.of_crc32 (Instances.elaborated (CRC32.LiteEthMACCRC32 8)) in
  let pre := [(Instances.byte 0x01, false)] in
  let mid := [(Instances.byte 0x02, false); (Instances.byte 0x03, false)] in
  let mid' := [(Instances.byte 0x12, false); (Instances.byte 0x03, false)] in
  let post := [(Instances.byte 0x04, false);
               (Instances.byte 0xCD, false); (Instances.byte 0xFB, false);
               (Instances.byte 0x3C, false); (Instances.byte 0xB6, true)] in
  let env := [(true, true); (true, false); (true, true); (true, true);
              (true, true); (false, true); (true, true); (true, true);
              (true, true); (true, true)] in
  let tr := Checker.trace crc 8 (Checker.reset_state crc, pre ++ mid' ++ post)
                          ((false, true) :: env) in
  (exists front fin, Checker.released tr = front ++ [fin] /\
                     Stream.error (fst fin) = true /\ snd fin = true) /\
  (1 <= Checker.pulses tr)%nat /\
  (Forall (fun gr : bool * bool => snd gr = true) env ->
   Checker.pulses tr = 1%nat).
Proof.
  intros crc pre mid mid' post env.
  apply (checker_detects_burst 8
           (Instances.elaborated (CRC32.LiteEthMACCRC32 8))
           (map Instances.byte [0x01; 0x02; 0x03; 0x04]) pre mid mid' post env true).
  - vm_compute. reflexivity.
  - left. reflexivity.
  - discriminate.
  - vm_compute. reflexivity.
  - vm_compute. lia.
  - reflexivity.
  - vm_compute. discriminate.
  - vm_compute. lia.
Defined.

(** ** The lanes of the unit and [last_be] *)

Module LaneFacts.
Import CRC32 EngineSem BitFacts LfsrFacts CRC32Facts LfsrInjective ByteWide WideFacts.

Lemma selected_lane_pow2 u (k : nat) : CRC32Spec.selected_lane u (2 ^ Z.of_nat k) = k.
Proof.
  unfold CRC32Spec.selected_lane.
  assert (0 < 2 ^ Z.of_nat k) by (apply Z.pow_pos_nonneg; lia).
  destruct (Z.eqb_spec (2 ^ Z.of_nat k) 0) as [E|E]; [lia|].
  rewrite Z.log2_pow2 by lia. apply Nat2Z.id.
Qed.

Lemma pow2_lane_range u (k : nat) :
  (k < dw u)%nat -> 0 <= 2 ^ Z.of_nat k < 2 ^ Z.of_nat (dw u).
Proof.
  intros Hk. split; [apply Z.pow_nonneg; lia|].
  apply Z.pow_lt_mono_r; lia.
Qed.

Section Unit8.
Variable u8 : CRC32.unit.
Hypothesis Hu8 : LiteEthMACCRC32 8 = Some u8.

(** The register of the byte-wide unit after the [n] low bytes of [d]. *)
Lemma bytes_fold_any d n r :
  exists x,
    fold_left (regs_next u8) (CRC32Spec.bytes_of n d) [r] = [x] /\
    x mod 2 ^ Z.of_nat width =
    Engine.lfsr_feed width polynom (r mod 2 ^ Z.of_nat width)
                     (Engine.data_bits (n * 8) d).
Proof.
  destruct n as [|n].
  - exists r. split; reflexivity.
  - eexists. split; [apply (bytes_fold u8 Hu8)|].
    apply Z.mod_small. apply (lfsr_feed_range width polynom width_pos).
    apply mod_range.
Qed.

End Unit8.
End LaneFacts.

(** X17. [last_be] selects the CRC over the valid bytes of the last word.
    With bit [k] of [last_be] set alone, [value] after an update with the
    word [d] is the value of the byte-wide unit after the [k + 1] low
    bytes of [d], and [error] on the word [d] is the error flag of the
    byte-wide unit on byte [k] of [d] after the [k] bytes below it: the
    bytes of [d] above byte [k] do not count. *)
Theorem crc32_last_be_selects_bytes (dwidth : nat) (u u8 : CRC32.unit)
        (regs : CRC32.regs_t) (d : Z) (k : nat) :
  CRC32.LiteEthMACCRC32 dwidth = Some u ->
  CRC32.LiteEthMACCRC32 8 = Some u8 ->
  (k < CRC32.dw u)%nat ->
  CRC32.value u (CRC32.regs_next u regs d) (2 ^ Z.of_nat k) =
    CRC32.value u8
      (fold_left (CRC32.regs_next u8) (CRC32Spec.bytes_of (k + 1) d)
                 [last regs 0]) 0 /\
  CRC32.error u regs d (2 ^ Z.of_nat k) =
    CRC32.error u8
      (fold_left (CRC32.regs_next u8) (CRC32Spec.bytes_of k d) [last regs 0])
      (Migen.slice d (k * 8) ((k + 1) * 8)) 0.
Proof.
  intros Hu Hu8 Hk.
  assert (Hdw : (1 <= CRC32.dw u)%nat) by lia.
  pose proof (ByteWide.dw_one u8 Hu8) as Hone.
  split.
  - unfold CRC32.value at 1.
    rewrite (CRC32Facts.outputs_lane u _ 0 (2 ^ Z.of_nat k) Hdw
               (LaneFacts.pow2_lane_range u k Hk)).
    cbn [fst]. rewrite LaneFacts.selected_lane_pow2.
    rewrite WideFacts.regs_next_nth by exact Hk.
    rewrite (WideFacts.engine_next_any dwidth) by assumption.
    replace (k + 1)%nat with (S k) by lia.
    rewrite (WideFacts.bytes_fold u8 Hu8).
    rewrite WideFacts.value_top by (rewrite Hone; cbn; lia).
    reflexivity.
  - unfold CRC32.error at 1.
    rewrite (CRC32Facts.outputs_lane u regs d (2 ^ Z.of_nat k) Hdw
               (LaneFacts.pow2_lane_range u k Hk)).
    cbn [snd]. rewrite LaneFacts.selected_lane_pow2.
    rewrite (WideFacts.engine_next_any dwidth) by assumption.
    destruct (LaneFacts.bytes_fold_any u8 Hu8 d k (last regs 0)) as (x & Ex & Hx).
    rewrite Ex, (WideFacts.error_top 8 u8) by (trivial; rewrite Hone; lia).
    cbn [last]. rewrite Hx, Hone, WideFacts.feed_cat.
    do 3 f_equal.
    replace ((k + 1) * 8)%nat with (k * 8 + 8)%nat by lia.
    rewrite LfsrInjective.data_bits_app. f_equal.
    symmetry. apply WideFacts.data_bits_slice. lia.
Qed.

Lemma crc32_last_be_selects_bytes_witness :
  let u := Instances.elaborated (CRC32.LiteEthMACCRC32 32) in
  let u8 := Instances.elaborated (CRC32.LiteEthMACCRC32 8) in
  CRC32.value u (CRC32.regs_next u [5; 7; 9; 11] 0x11223344) (2 ^ Z.of_nat 1) =
    CRC32.value u8
      (fold_left (CRC32.regs_next u8) (CRC32Spec.bytes_of (1 + 1) 0x11223344)
                 [last [5; 7; 9; 11] 0]) 0 /\
  CRC32.error u [5; 7; 9; 11] 0x11223344 (2 ^ Z.of_nat 1) =
    CRC32.error u8
      (fold_left (CRC32.regs_next u8) (CRC32Spec.bytes_of 1 0x11223344)
                 [last [5; 7; 9; 11] 0])
      (Migen.slice 0x11223344 (1 * 8) ((1 + 1) * 8)) 0.
Proof.
  intros u u8.
  apply (crc32_last_be_selects_bytes 32 u u8 [5; 7; 9; 11] 0x11223344 1).
  - vm_compute. reflexivity.
  - vm_compute. reflexivity.
  - vm_compute. lia.
Defined.

(** ** The equations the generator leaves *)

Module EquationFacts.
Import Engine EngineSem PyListFacts EngineFacts EngineCorrect OptimizeFacts NetworkFacts.

Lemma term_eqb_sym a b : term_eqb a b = term_eqb b a.
Proof. destruct a, b; cbn; trivial; apply Nat.eqb_sym. Qed.

(** The bit a reference reads when only the bit of [t] is set. *)
Lemma bit_of_flip t t' :
  bit_of (flip_last t 0) (flip_data t 0) t' = term_eqb t t'.
Proof.
  destruct t as [n|n], t' as [m|m]; cbn [flip_last flip_data bit_of term_eqb];
    rewrite ?Z.lxor_0_l, ?Z.bits_0; trivial;
    rewrite Z.pow2_bits_eqb by lia;
    destruct (Nat.eqb_spec n m) as [->|Hne];
    [apply Z.eqb_refl|apply Z.eqb_neq; lia|apply Z.eqb_refl|apply Z.eqb_neq; lia].
Qed.

(** In a list without duplicates the xor of the tests for [t] tells
    whether [t] occurs. *)
Lemma xor_all_member t l :
  NoDup l -> (xor_all (map (term_eqb t) l) = true <-> In t l).
Proof.
  induction 1 as [|x l Hx Hl IH]; cbn [map xor_all In].
  - split; [discriminate|intros []].
  - destruct (term_eqb t x) eqn:E.
    + apply term_eqb_eq in E. subst x.
      assert (Hf : xor_all (map (term_eqb t) l) = false).
      { apply not_true_is_false. intros F. apply IH in F. contradiction. }
      rewrite Hf. cbn. split; auto.
    + cbn. rewrite IH. split; [auto|].
      intros [->|H]; [|exact H]. now rewrite term_eqb_refl in E.
Qed.

Lemma flip_as_xor t s d :
  flip_last t s = Z.lxor s (flip_last t 0) /\
  flip_data t d = Z.lxor d (flip_data t 0).
Proof.
  destruct t; cbn [flip_last flip_data]; now rewrite ?Z.lxor_0_l, ?Z.lxor_0_r.
Qed.

(** Inverting the bit of [t] inverts the output bit [j] exactly when the
    equation of that bit, free of duplicates, mentions [t]. *)
Lemma flip_next e j l t s d :
  nth_error (xors e) j = Some l -> NoDup l ->
  (In t l <->
   Z.testbit (next e (flip_last t s) (flip_data t d)) (Z.of_nat j) =
   negb (Z.testbit (next e s d) (Z.of_nat j))).
Proof.
  intros El Hl.
  destruct (flip_as_xor t s d) as (-> & ->).
  rewrite next_linear, Z.lxor_spec, (next_testbit e (flip_last t 0)), El.
  unfold sem. rewrite (map_ext _ _ (bit_of_flip t)).
  rewrite <- (xor_all_member t l Hl).
  destruct (Z.testbit (next e s d) (Z.of_nat j)),
           (xor_all (map (term_eqb t) l)); cbn; split; congruence.
Qed.

Section Build.
Variables (N : nat) (P : Z).
Hypothesis N_pos : (1 <= N)%nat.

Lemma init_nodup : Forall (@NoDup term) (curval_init N).
Proof.
  unfold curval_init. apply Forall_forall. intros l Hl.
  apply in_map_iff in Hl. destruct Hl as (i & <- & _).
  constructor; [intros []|constructor].
Qed.

(** One shift keeps the slots free of duplicates. *)
Lemma shift_nodup i c c' :
  good N P i c -> Forall (@NoDup term) c ->
  shift N (taps N P) c i = Some c' -> Forall (@NoDup term) c'.
Proof.
  intros (Hlen & Hsc & _) Hnd Hs.
  destruct (exists_last (l := c)) as (rest & top & ->).
  { intros ->. cbn in Hlen. lia. }
  rewrite length_app in Hlen. cbn in Hlen.
  unfold shift in Hs. rewrite pop_snoc in Hs.
  destruct (for_range_slots
              (fun j x => _optimize_eq
                            (if in_taps (j + 1) (taps N P)
                             then x ++ (top ++ [Din i]) else x))
              rest (N - 1)) as (l' & E & Hl' & Hn); [lia|].
  unfold tap_slot in Hs. rewrite E in Hs. injection Hs as <-.
  apply Forall_app in Hnd. destruct Hnd as (_ & Htop).
  apply Forall_inv in Htop. rename Htop into Htop'.
  constructor.
  - apply NoDup_app; [exact Htop'|constructor; [intros []|constructor]|].
    intros t Ht [<-|[]].
    assert (Hin : nth_error (rest ++ [top]) (N - 1) = Some top).
    { rewrite nth_error_app2 by lia.
      replace (N - 1 - length rest)%nat with 0%nat by lia. reflexivity. }
    specialize (Hsc _ _ Hin). rewrite Forall_forall in Hsc.
    specialize (Hsc _ Ht). cbn in Hsc. lia.
  - apply Forall_forall. intros l Hl.
    apply In_nth_error in Hl. destruct Hl as (j & El).
    assert (Hj : (j < N - 1)%nat).
    { apply nth_error_Some_lt in El. lia. }
    rewrite Hn in El.
    replace (j <? N - 1)%nat with true in El by (symmetry; apply Nat.ltb_lt; lia).
    destruct (nth_error rest j) as [x|]; [|discriminate].
    cbn in El. injection El as <-. apply optimize_eq_nodup.
Qed.

Lemma loop_nodup k :
  exists c, PyList.for_range k (shift N (taps N P)) (curval_init N) = Some c /\
            good N P k c /\ Forall (@NoDup term) c.
Proof.
  induction k as [|k (c & E & Hc & Hnd)].
  - exists (curval_init N). split; [reflexivity|].
    split; [now apply good_init|apply init_nodup].
  - destruct (good_shift N P N_pos k c Hc) as (c' & E' & Hc').
    exists c'. rewrite for_range_S, E. split; [exact E'|]. split; [exact Hc'|].
    now apply (shift_nodup k c c').
Qed.

(** The equations of an elaborated engine. *)
Lemma built_tidy W e :
  LiteEthMACCRCEngine W N P = Some e ->
  good N P W (xors e) /\ Forall (@NoDup term) (xors e).
Proof.
  intros He. destruct (built_pos W N P e He) as (HW & _).
  destruct (loop_nodup W) as (c & E & Hc & Hnd).
  unfold LiteEthMACCRCEngine, curval_final in He.
  rewrite (Signal_pos W HW), (Signal_pos N N_pos), E in He.
  rewrite (for_range_collect (xors_ok W N) c N) in He.
  - rewrite firstn_all2 in He by (destruct Hc as (Hl & _); lia).
    injection He as <-. auto.
  - destruct Hc as (Hl & _); lia.
  - now apply (good_xors_ok N P N_pos).
Qed.

End Build.
End EquationFacts.

(** X18. The equations of an elaborated engine are minimal.  The
    equation of each output bit is not empty, mentions no input bit
    twice and only bits within the widths of [last] and [data]; and it
    mentions an input bit exactly when the output bit depends on it:
    inverting that input bit alone, whatever the other inputs are,
    inverts the output bit. *)
Theorem engine_equations_minimal (W N : nat) (P : Z) (e : Engine.engine)
        (j : nat) (l : list Engine.term) :
  Engine.LiteEthMACCRCEngine W N P = Some e ->
  nth_error (Engine.xors e) j = Some l ->
  (j < N)%nat /\ l <> [] /\ NoDup l /\
  (forall t, In t l -> Engine.ref_ok W N t = true) /\
  (forall t s d,
     In t l <->
     Z.testbit (Engine.next e (EngineSem.flip_last t s) (EngineSem.flip_data t d))
               (Z.of_nat j) =
     negb (Z.testbit (Engine.next e s d) (Z.of_nat j))).
Proof.
  intros He El. destruct (Nat.le_gt_cases 1 N) as [HN|HN].
  - destruct (EquationFacts.built_tidy N P HN W e He) as (Hc & Hnd).
    assert (Hl : NoDup l).
    { rewrite Forall_forall in Hnd. apply Hnd. eapply nth_error_In. exact El. }
    split; [|split; [|split; [exact Hl|split]]].
    + destruct Hc as (Hlen & _). rewrite <- Hlen.
      eapply EngineCorrect.nth_error_Some_lt. exact El.
    + eapply (EngineCorrect.good_nonempty N P HN); eauto.
    + intros t Ht.
      pose proof (NetworkFacts.good_refs_ok N P HN W _ l Hc
                    (nth_error_In _ _ El)) as H.
      rewrite forallb_forall in H. now apply H.
    + intros t s d. now apply EquationFacts.flip_next.
  - assert (N = 0%nat) by lia. subst N.
    destruct (LfsrInjective.built_width_0 W P e He).
Qed.

Lemma engine_equations_minimal_witness :
  let e := Instances.elaborated_engine (Engine.LiteEthMACCRCEngine 8 32 0x04C11DB7) in
  let l := [Engine.State 24; Engine.State 30; Engine.Din 1; Engine.Din 7] in
  (0 < 32)%nat /\ l <> [] /\ NoDup l /\
  (forall t, In t l -> Engine.ref_ok 8 32 t = true) /\
  (forall t s d,
     In t l <->
     Z.testbit (Engine.next e (EngineSem.flip_last t s) (EngineSem.flip_data t d))
               (Z.of_nat 0) =
     negb (Z.testbit (Engine.next e s d) (Z.of_nat 0))).
Proof.
  intros e l.
  apply (engine_equations_minimal 8 32 0x04C11DB7 e 0 l).
  - vm_compute. reflexivity.
  - vm_compute. reflexivity.
Defined.

(** ** The register seen in reflected form *)

Module ReflectFacts.
Import CRC32 EngineSem BitFacts LfsrFacts EngineCorrect CRC32Facts ResidueFacts
       LfsrInjective ByteWide WideFacts.

(** Reversing the bits keeps the width. *)
Lemma reverse_range x : in_range width (reverse_bits width x).
Proof.
  unfold reverse_bits.
  pose proof (bits_to_Z_range
                (map (fun i => Z.testbit x (Z.of_nat (width - 1 - i)))
                     (seq 0 width))) as H.
  now rewrite length_map, length_seq in H.
Qed.

Lemma poly_reflected (j : nat) :
  (j < 32)%nat ->
  Z.testbit 0xEDB88320 (Z.of_nat j) =
  match (31 - j)%nat with
  | O => true
  | S _ => Z.testbit polynom (Z.of_nat (31 - j))
  end.
Proof.
  intros Hj.
  do 32 (destruct j as [|j]; [reflexivity|]). lia.
Qed.

Lemma shiftr1_range c : in_range width c -> in_range width (Z.shiftr c 1).
Proof.
  unfold in_range. intros Hc. rewrite Z.shiftr_div_pow2 by lia.
  change (2 ^ 1) with 2. split; [apply Z.div_pos; lia|].
  apply Z.div_lt_upper_bound; lia.
Qed.

Lemma reflected_range c (b : bool) :
  in_range width c ->
  in_range width (Z.lxor (Z.shiftr c 1) (if b then 0xEDB88320 else 0)).
Proof.
  intros Hc. apply (lxor_range width width_pos); [now apply shiftr1_range|].
  destruct b; unfold in_range, width; cbn; lia.
Qed.

(** A shift of the register, seen in the reflected register. *)
Lemma reverse_shift s din :
  in_range width s ->
  reverse_bits width (Engine.lfsr_shift width polynom s din) =
  Z.lxor (Z.shiftr (reverse_bits width s) 1)
         (if xorb (Z.testbit (reverse_bits width s) 0) din
          then 0xEDB88320 else 0).
Proof.
  intros Hs.
  apply (in_range_ext width width_pos).
  - apply reverse_range.
  - apply reflected_range. apply reverse_range.
  - intros j Hj. unfold width in Hj.
    rewrite reverse_bits_testbit by exact Hj.
    rewrite (lfsr_shift_bit width polynom width_pos) by (unfold width; lia).
    rewrite Z.lxor_spec, Z.shiftr_spec by lia.
    change 0 with (Z.of_nat 0) at 1.
    rewrite (reverse_bits_testbit width s 0) by (unfold width; lia).
    unfold feedback. change (Z.of_nat width - 1) with (Z.of_nat (width - 1 - 0)).
    set (fb := xorb (Z.testbit s (Z.of_nat (width - 1 - 0))) din).
    assert (Hq : Z.testbit (if fb then 0xEDB88320 else 0) (Z.of_nat j) =
                 fb && Z.testbit 0xEDB88320 (Z.of_nat j)).
    { destruct fb; [reflexivity|apply Z.bits_0]. }
    rewrite Hq, poly_reflected by exact Hj.
    change (width - 1)%nat with 31%nat.
    destruct (31 - j)%nat as [|j'] eqn:Ej.
    + assert (j = 31%nat) by lia. subst j.
      rewrite (testbit_high (Z.of_nat width)) by
        (try apply reverse_range; unfold width; lia).
      now rewrite andb_true_r.
    + replace (Z.of_nat j + 1) with (Z.of_nat (S j)) by lia.
      rewrite reverse_bits_testbit by (unfold width; lia).
      replace (width - 1 - S j)%nat with j' by (unfold width; lia).
      reflexivity.
Qed.

(** The byte xored in at once, then eight shifts, is the byte fed bit by
    bit. *)
Lemma iter_shift_right k m c :
  Nat.iter k Reference.shift_right (Z.lxor c m) =
  Z.lxor (fold_left (fun c din =>
                       Z.lxor (Z.shiftr c 1)
                              (if xorb (Z.testbit c 0) din then 0xEDB88320 else 0))
                    (Engine.data_bits k m) c)
         (Z.shiftr m (Z.of_nat k)).
Proof.
  induction k as [|k IH].
  - unfold Engine.data_bits. cbn [seq map fold_left Nat.iter Z.of_nat].
    now rewrite Z.shiftr_0_r.
  - rewrite data_bits_S, fold_left_app, Nat.iter_succ. cbn [fold_left]. rewrite IH.
    set (a := fold_left _ (Engine.data_bits k m) c).
    unfold Reference.shift_right.
    rewrite Z.lxor_spec, Z.shiftr_spec, Z.shiftr_lxor, Z.shiftr_shiftr by lia.
    replace (0 + Z.of_nat k) with (Z.of_nat k) by lia.
    replace (Z.of_nat k + 1) with (Z.of_nat (S k)) by lia.
    destruct (xorb (Z.testbit a 0) (Z.testbit m (Z.of_nat k))).
    + rewrite !Z.lxor_assoc. f_equal. apply Z.lxor_comm.
    + now rewrite Z.lxor_0_r.
Qed.

Lemma update_serial c byte :
  Reference.update c byte =
  fold_left (fun c din =>
               Z.lxor (Z.shiftr c 1)
                      (if xorb (Z.testbit c 0) din then 0xEDB88320 else 0))
            (Engine.data_bits 8 byte) c.
Proof.
  unfold Reference.update. rewrite iter_shift_right.
  change 0xFF with (Z.ones (Z.of_nat 8)). rewrite Z.land_ones by lia.
  rewrite data_bits_mod, Z.shiftr_div_pow2 by lia.
  rewrite Z.div_small by (apply Z.mod_pos_bound; apply Z.pow_pos_nonneg; lia).
  apply Z.lxor_0_r.
Qed.

(** The bits of a byte through the register, seen in the reflected
    register. *)
Lemma reverse_feed bits s :
  in_range width s ->
  reverse_bits width (Engine.lfsr_feed width polynom s bits) =
  fold_left (fun c din =>
               Z.lxor (Z.shiftr c 1)
                      (if xorb (Z.testbit c 0) din then 0xEDB88320 else 0))
            bits (reverse_bits width s).
Proof.
  revert s. induction bits as [|b bits IH]; intros s Hs; [reflexivity|].
  unfold Engine.lfsr_feed in *. cbn [fold_left].
  rewrite IH by (apply (lfsr_shift_range width polynom width_pos)).
  now rewrite reverse_shift.
Qed.

Lemma invert_lxor x :
  in_range width x -> invert width x = Z.lxor x 0xFFFFFFFF.
Proof.
  intros Hx. apply (in_range_ext width width_pos).
  - apply invert_range.
  - apply (lxor_range width width_pos); [exact Hx|]. unfold in_range, width. cbn. lia.
  - intros j Hj. rewrite invert_testbit, Z.lxor_spec by exact Hj.
    change 0xFFFFFFFF with (Z.ones 32).
    rewrite testbit_ones_low by (unfold width in Hj; lia).
    now rewrite xorb_true_r.
Qed.

(** The bits of a word through the reflected register, byte by byte. *)
Lemma update_bytes w n c :
  fold_left Reference.update (CRC32Spec.bytes_of n w) c =
  fold_left (fun c din =>
               Z.lxor (Z.shiftr c 1)
                      (if xorb (Z.testbit c 0) din then 0xEDB88320 else 0))
            (Engine.data_bits (n * 8) w) c.
Proof.
  induction n as [|n IH]; [reflexivity|].
  unfold CRC32Spec.bytes_of in *. rewrite seq_S, map_app, fold_left_app, IH.
  cbn [Nat.add map fold_left]. rewrite update_serial.
  replace (S n * 8)%nat with (n * 8 + 8)%nat by lia.
  rewrite data_bits_app, fold_left_app. f_equal.
  apply data_bits_slice. lia.
Qed.

Lemma update_words n ws c :
  fold_left Reference.update (concat (map (CRC32Spec.bytes_of n) ws)) c =
  fold_left (fun c din =>
               Z.lxor (Z.shiftr c 1)
                      (if xorb (Z.testbit c 0) din then 0xEDB88320 else 0))
            (concat (map (Engine.data_bits (n * 8)) ws)) c.
Proof.
  revert c. induction ws as [|w ws IH]; intros c; [reflexivity|].
  cbn [map concat]. rewrite !fold_left_app, update_bytes. apply IH.
Qed.

(** The register of the top lane after the words [ws]. *)
Lemma top_fold dwidth u ws R :
  LiteEthMACCRC32 dwidth = Some u -> (1 <= dw u)%nat ->
  in_range width (last R 0) ->
  last (fold_left (regs_next u) ws R) 0 =
  Engine.lfsr_feed width polynom (last R 0)
                   (concat (map (Engine.data_bits (dw u * 8)) ws)).
Proof.
  intros Hu Hdw. revert R. induction ws as [|w ws IH]; intros R HR; [reflexivity|].
  cbn [fold_left map concat]. rewrite IH.
  - rewrite (top_next dwidth u R w Hu Hdw), Z.mod_small by exact HR.
    apply feed_cat.
  - rewrite (top_next dwidth u R w Hu Hdw).
    apply (lfsr_feed_range width polynom width_pos). apply mod_range.
Qed.

Lemma last_repeat (x : Z) n : (1 <= n)%nat -> last (repeat x n) 0 = x.
Proof.
  intros Hn. destruct n as [|n]; [lia|].
  cbn [repeat]. rewrite repeat_cons. apply last_last.
Qed.

End ReflectFacts.

(** X19. The unit computes the CRC-32 of IEEE 802.3.  After reset and any
    words, one per update, [value] (with [last_be = 0]) is the CRC that
    the usual bitwise software algorithm gives for the bytes of these
    words, the low byte of each word first (reflected polynomial
    0xEDB88320, initial value and final xor 0xFFFFFFFF); that algorithm
    gives the well-known check value 0xCBF43926 for the ASCII digits 1
    to 9. *)
Theorem crc32_value_is_ieee_crc32 (dwidth : nat) (u : CRC32.unit) (words : list Z) :
  CRC32.LiteEthMACCRC32 dwidth = Some u ->
  (1 <= CRC32.dw u)%nat ->
  CRC32.value u (fold_left (CRC32.regs_next u) words (CRC32.regs_reset u)) 0 =
    Reference.crc32 (concat (map (CRC32Spec.bytes_of (CRC32.dw u)) words)) /\
  Reference.crc32 [0x31; 0x32; 0x33; 0x34; 0x35; 0x36; 0x37; 0x38; 0x39] =
    0xCBF43926.
Proof.
  intros Hu Hdw. split; [|vm_compute; reflexivity].
  assert (Hlast : last (CRC32.regs_reset u) 0 = CRC32.init).
  { unfold CRC32.regs_reset. now apply ReflectFacts.last_repeat. }
  rewrite WideFacts.value_top.
  2: exact Hdw.
  2:{ apply WideTrip.fold_length. unfold CRC32.regs_reset. apply repeat_length. }
  rewrite (ReflectFacts.top_fold dwidth u words _ Hu Hdw)
    by (rewrite Hlast; apply ByteWide.init_range).
  rewrite Hlast.
  rewrite ReflectFacts.invert_lxor by apply ReflectFacts.reverse_range.
  rewrite ReflectFacts.reverse_feed by apply ByteWide.init_range.
  unfold Reference.crc32. rewrite ReflectFacts.update_words. reflexivity.
Qed.

Lemma crc32_value_is_ieee_crc32_witness :
  let u := Instances.elaborated (CRC32.LiteEthMACCRC32 32) in
  CRC32.value u (fold_left (CRC32.regs_next u) [0x04030201; 0x08070605]
                           (CRC32.regs_reset u)) 0 =
    Reference.crc32 (concat (map (CRC32Spec.bytes_of (CRC32.dw u))
                                 [0x04030201; 0x08070605])) /\
  Reference.crc32 [0x31; 0x32; 0x33; 0x34; 0x35; 0x36; 0x37; 0x38; 0x39] =
    0xCBF43926.
Proof.
  intros u. apply (crc32_value_is_ieee_crc32 32 u).
  - vm_compute. reflexivity.
  - vm_compute. lia.
Defined.

(** ** The taps the generator reads *)

Module TapFacts.
Import Engine PyListFacts EngineCorrect.

(** Two loop bodies that agree below the bound give the same loop. *)
Lemma for_range_ext {S} (n : nat) (f g : S -> nat -> option S) (s : S) :
  (forall a i, (i < n)%nat -> f a i = g a i) ->
  PyList.for_range n f s = PyList.for_range n g s.
Proof.
  induction n as [|n IH]; intros H; [reflexivity|].
  rewrite !for_range_S, IH by (intros a i Hi; apply H; lia).
  destruct (PyList.for_range n g s); [apply H; lia|reflexivity].
Qed.

(** One shift reads the polynomial at the bits 1 to [N - 1] only. *)
Lemma shift_taps N P P' c i :
  (forall j, (1 <= j < N)%nat ->
     Z.testbit P (Z.of_nat j) = Z.testbit P' (Z.of_nat j)) ->
  shift N (taps N P) c i = shift N (taps N P') c i.
Proof.
  intros H. unfold shift.
  destruct (PyList.pop c) as [[rest top]|]; [|reflexivity].
  rewrite (for_range_ext (N - 1) (tap_slot (taps N P) (top ++ [Din i]))
             (tap_slot (taps N P') (top ++ [Din i]))); [reflexivity|].
  intros a j Hj. unfold tap_slot.
  assert (HN : (1 <= N)%nat) by lia.
  rewrite (in_taps_eq N P HN), (in_taps_eq N P' HN), H by lia.
  reflexivity.
Qed.

End TapFacts.

(** X20. The generator reads the polynomial at the bits 1 to [N - 1]
    only: bit 0 is taken as set whatever it is, and the bits from [N] up
    are ignored, so two polynomials that agree on the bits 1 to [N - 1]
    elaborate to the same engine. *)
Theorem engine_polynom_bits (W N : nat) (P P' : Z) :
  (forall j, (1 <= j < N)%nat ->
     Z.testbit P (Z.of_nat j) = Z.testbit P' (Z.of_nat j)) ->
  Engine.LiteEthMACCRCEngine W N P = Engine.LiteEthMACCRCEngine W N P'.
Proof.
  intros H. unfold Engine.LiteEthMACCRCEngine, Engine.curval_final.
  rewrite (TapFacts.for_range_ext W (Engine.shift N (Engine.taps N P))
             (Engine.shift N (Engine.taps N P'))); [reflexivity|].
  intros c i _. now apply TapFacts.shift_taps.
Qed.

Lemma engine_polynom_bits_witness :
  Engine.LiteEthMACCRCEngine 8 32 0x04C11DB7 =
  Engine.LiteEthMACCRCEngine 8 32 0x104C11DB6.
Proof.
  apply (engine_polynom_bits 8 32 0x04C11DB7 0x104C11DB6).
  intros j Hj.
  do 32 (destruct j as [|j]; [try reflexivity; lia|]). lia.
Defined.
